(** * inference-allocator: admission queue, slot pool, worker and orchestrator

    A shallow embedding of the service modules of [inference_allocator]
    ([services/priority_queue.py], [services/gpu_manager.py],
    [services/inference_worker.py], [services/orchestrator.py]) and of the
    request models ([models/request.py], [models/gpu.py]), followed by the
    properties established for them.

    The services run on one asyncio event loop.  A coroutine is preempted
    only at an [await]; the critical sections of the queue and of the pool
    contain no [await] other than the condition wait, which is taken with
    the state untouched.  Each operation is therefore one atomic state
    transformer, and a call that reaches a condition wait is reported as
    [Suspended] with the state it found.

    A [str] is held as the bytes of its UTF-8 encoding, an [int] as an
    integer without bound. *)

From Stdlib Require Import ZArith Lia List String Ascii.
From stdpp Require Import base list sorting.
Import ListNotations.

Local Open Scope Z_scope.

(** ** Exceptions, outcomes and the state monad of the services *)

(** The exception classes the modelled code raises or lets through.
    [CancelledError], [KeyboardInterrupt] and [SystemExit] derive from
    [BaseException] only; every other class derives from [Exception]. *)
Inductive exn : Set :=
| QueueFullError
| KeyError
| IndexError
| TypeError
| ValueError
| OverflowError
| InvalidStateError
| CancelledError
| KeyboardInterrupt
| SystemExit.

(** [isinstance(e, Exception)], the test made by [except Exception]. *)
Definition is_Exception (e : exn) : bool :=
  match e with
  | CancelledError | KeyboardInterrupt | SystemExit => false
  | _ => true
  end.

(** How a call ends.  [Suspended]: the coroutine waits on a condition or on
    a future and has not returned.  [Diverged]: a loop of the model used up
    its iteration bound; the bounds are chosen so that this never occurs,
    which the lemmas below establish. *)
Inductive outcome (A : Type) : Type :=
| Returned (a : A)
| Raised (e : exn)
| Suspended
| Diverged.
Arguments Returned {A} a.
Arguments Raised {A} e.
Arguments Suspended {A}.
Arguments Diverged {A}.

(** A method of an object with state [S]: it yields an outcome and the
    state it leaves behind, also when it raises. *)
Definition M (S A : Type) : Type := S -> outcome A * S.

Definition ret {S A} (a : A) : M S A := fun s => (Returned a, s).

Definition raise {S A} (e : exn) : M S A := fun s => (Raised e, s).

Definition bind {S A B} (m : M S A) (k : A -> M S B) : M S B :=
  fun s =>
    match m s with
    | (Returned a, s') => k a s'
    | (Raised e, s') => (Raised e, s')
    | (Suspended, s') => (Suspended, s')
    | (Diverged, s') => (Diverged, s')
    end.

Definition get_state {S} : M S S := fun s => (Returned s, s).

Definition set_state {S} (s : S) : M S unit := fun _ => (Returned tt, s).

Definition modify {S} (f : S -> S) : M S unit := fun s => (Returned tt, f s).

(** [try: body finally: fin].  The finaliser runs when the body returned or
    raised; the body's outcome stands unless the finaliser itself does not
    return. *)
Definition try_finally {S A} (body : M S A) (fin : M S unit) : M S A :=
  fun s =>
    match body s with
    | (Returned a, s') =>
        match fin s' with
        | (Returned _, s'') => (Returned a, s'')
        | (Raised e, s'') => (Raised e, s'')
        | (Suspended, s'') => (Suspended, s'')
        | (Diverged, s'') => (Diverged, s'')
        end
    | (Raised e, s') =>
        match fin s' with
        | (Returned _, s'') => (Raised e, s'')
        | (Raised e', s'') => (Raised e', s'')
        | (Suspended, s'') => (Suspended, s'')
        | (Diverged, s'') => (Diverged, s'')
        end
    | (Suspended, s') => (Suspended, s')
    | (Diverged, s') => (Diverged, s')
    end.

Declare Scope svc_scope.
Delimit Scope svc_scope with svc.
Notation "x <- c ;; k" := (bind c (fun x => k))
  (at level 100, c at next level, right associativity) : svc_scope.
Notation "c ;;; k" := (bind c (fun _ => k))
  (at level 100, right associativity) : svc_scope.
Local Open Scope svc_scope.

(** ** models/request.py and models/gpu.py *)

Module request.

(** [class Priority(IntEnum)]. *)
Inductive Priority : Set := HIGH | MEDIUM | LOW.

(** [int(priority)]. *)
Definition int (p : Priority) : Z :=
  match p with HIGH => 1 | MEDIUM => 2 | LOW => 3 end.

(** What a caller may pass for the [priority] field before validation. *)
Inductive value : Type :=
| VStr (s : string)
| VInt (n : Z)
| VPriority (p : Priority)
| VNone.

(** [str.lower] on one character: an upper-case ASCII letter goes to its
    lower-case letter, every other ASCII character is unchanged. *)
Definition lower_ascii (c : ascii) : ascii :=
  let n := N_of_ascii c in
  if ((65 <=? n) && (n <=? 90))%N then ascii_of_N (n + 32) else c.

Fixpoint lower (s : string) : string :=
  match s with
  | EmptyString => EmptyString
  | String c s' => String (lower_ascii c) (lower s')
  end.

(** [mapping = {"high": ..., "medium": ..., "low": ...}] with
    [key in mapping] and [mapping[key]] folded into one lookup. *)
Definition mapping (key : string) : option Priority :=
  if String.eqb key "high" then Some HIGH
  else if String.eqb key "medium" then Some MEDIUM
  else if String.eqb key "low" then Some LOW
  else None.

(** [InferenceRequest.parse_priority], the [mode="before"] validator. *)
Definition parse_priority (v : value) : value :=
  match v with
  | VStr s =>
      match mapping (lower s) with
      | Some p => VPriority p
      | None => v
      end
  | _ => v
  end.

Record InferenceRequest : Type := {
  model_id : string;
  prompt : string;
  priority : Priority;
  request_id : option string
}.

(** Construction of an [InferenceRequest] from the caller's fields.  A
    field that is absent takes its [Field(default=...)], which the
    validator does not see.  A field that is present goes through
    [parse_priority]; a member of the enum is kept, and anything else is
    left to the enum coercion [coerce] of the validation library, which
    either produces a member or rejects the request ([None]). *)
Definition make_request (coerce : value -> option Priority)
    (model_id prompt : string)
    (priority : option value) (request_id : option string)
  : option InferenceRequest :=
  match priority with
  | None => Some {| model_id := model_id; prompt := prompt;
                    priority := MEDIUM; request_id := request_id |}
  | Some v =>
      match parse_priority v with
      | VPriority p =>
          Some {| model_id := model_id; prompt := prompt;
                  priority := p; request_id := request_id |}
      | w =>
          match coerce w with
          | Some p => Some {| model_id := model_id; prompt := prompt;
                              priority := p; request_id := request_id |}
          | None => None
          end
      end
  end.

(** [class InferenceResponse(BaseModel)].  [F] is the type of floats. *)
Record InferenceResponse (F : Type) : Type := {
  r_request_id : string;
  r_model_id : string;
  output : string;
  r_gpu_id : Z;
  inference_time_ms : F
}.
Arguments r_request_id {F} _.
Arguments r_model_id {F} _.
Arguments output {F} _.
Arguments r_gpu_id {F} _.
Arguments inference_time_ms {F} _.

End request.

Module gpu.

(** [class GPUState(Enum)]. *)
Inductive GPUState : Set := AVAILABLE | BUSY.

Definition GPUState_eqb (a b : GPUState) : bool :=
  match a, b with
  | AVAILABLE, AVAILABLE | BUSY, BUSY => true
  | _, _ => false
  end.

(** [@dataclass class GPUSlot]. *)
Record GPUSlot : Set := { gpu_id : Z; state : GPUState }.

End gpu.

(** ** heapq (the standard library module used by the queue)

    [heappush], [heappop] and their helpers [_siftdown] and [_siftup],
    transcribed from [Lib/heapq.py].  The heap is a Python list mutated in
    place: each function is a state transformer on that list.  Positions are
    natural numbers; [(pos - 1) >> 1] is [(pos - 1) / 2].  Every position
    that is assigned has been read just before, or is position 0 of a list
    found non-empty, so an assignment [heap[pos] = x] never raises and is
    [<[pos := x]> heap]. *)

Module heapq.

Section Heapq.

Context {T : Type}.

(** The items are opaque to the queue.  [item_eq] is their [==], which
    holds between an object and itself, and [item_lt] their [<], which
    for unorderable items raises [TypeError] ([None]). *)
Variable item_eq : T -> T -> bool.
Variable item_lt : T -> T -> option bool.

(** A heap entry, the tuple [(int(priority), counter, item)]. *)
Definition entry : Type := Z * Z * T.

(** [a < b] on two such tuples: the first position at which the tuples
    differ by [==] decides, by [<] on the components found there; tuples
    equal at every position are not below each other. *)
Definition tuple_lt (a b : entry) : option bool :=
  let '(p1, c1, x1) := a in
  let '(p2, c2, x2) := b in
  if negb (p1 =? p2) then Some (p1 <? p2)
  else if negb (c1 =? c2) then Some (c1 <? c2)
  else if negb (item_eq x1 x2) then item_lt x1 x2
  else Some false.

(** The [while pos > startpos] loop of [_siftdown].  At most [pos]
    iterations can run, since [parentpos < pos]. *)
Fixpoint _siftdown_loop (fuel : nat) (newitem : entry) (startpos pos : nat)
    (heap : list entry) : outcome unit * list entry :=
  if (startpos <? pos)%nat then
    match fuel with
    | O => (Diverged, heap)
    | S fuel' =>
        let parentpos := ((pos - 1) / 2)%nat in
        match heap !! parentpos with
        | None => (Raised IndexError, heap)
        | Some parent =>
            match tuple_lt newitem parent with
            | None => (Raised TypeError, heap)
            | Some true =>
                _siftdown_loop fuel' newitem startpos parentpos
                  (<[pos := parent]> heap)
            | Some false => (Returned tt, <[pos := newitem]> heap)
            end
        end
    end
  else (Returned tt, <[pos := newitem]> heap).

(** [_siftdown(heap, startpos, pos)]. *)
Definition _siftdown (startpos pos : nat) : M (list entry) unit :=
  fun heap =>
    match heap !! pos with
    | None => (Raised IndexError, heap)
    | Some newitem => _siftdown_loop pos newitem startpos pos heap
    end.

(** The child chosen by one iteration of [_siftup]: the right child when it
    exists and the left child is not below it. *)
Definition smaller_child (endpos childpos : nat) (heap : list entry)
  : outcome nat :=
  let rightpos := (childpos + 1)%nat in
  if (rightpos <? endpos)%nat then
    match heap !! childpos, heap !! rightpos with
    | Some l, Some r =>
        match tuple_lt l r with
        | None => Raised TypeError
        | Some true => Returned childpos
        | Some false => Returned rightpos
        end
    | _, _ => Raised IndexError
    end
  else Returned childpos.

(** The [while childpos < endpos] loop of [_siftup]; it returns the leaf
    position reached.  At most [endpos] iterations can run, since
    [pos < childpos < endpos]. *)
Fixpoint _siftup_loop (fuel : nat) (endpos pos : nat) (heap : list entry)
  : outcome nat * list entry :=
  let childpos := (2 * pos + 1)%nat in
  if (childpos <? endpos)%nat then
    match fuel with
    | O => (Diverged, heap)
    | S fuel' =>
        match smaller_child endpos childpos heap with
        | Returned childpos' =>
            match heap !! childpos' with
            | None => (Raised IndexError, heap)
            | Some c =>
                _siftup_loop fuel' endpos childpos' (<[pos := c]> heap)
            end
        | Raised e => (Raised e, heap)
        | Suspended => (Suspended, heap)
        | Diverged => (Diverged, heap)
        end
    end
  else (Returned pos, heap).

(** [_siftup(heap, pos)]. *)
Definition _siftup (pos : nat) : M (list entry) unit :=
  fun heap =>
    let endpos := length heap in
    let startpos := pos in
    match heap !! pos with
    | None => (Raised IndexError, heap)
    | Some newitem =>
        (pos' <- _siftup_loop endpos endpos pos ;;
         modify (fun heap => <[pos' := newitem]> heap) ;;;
         _siftdown startpos pos') heap
    end.

(** [heappush(heap, item)]. *)
Definition heappush (item : entry) : M (list entry) unit :=
  modify (fun heap => heap ++ [item]) ;;;
  heap <- get_state ;;
  _siftdown 0 (length heap - 1).

(** [heap.pop()]: the last element and the list without it. *)
Definition list_pop (heap : list entry) : option (list entry * entry) :=
  match last heap with
  | None => None
  | Some lastelt => Some (removelast heap, lastelt)
  end.

(** [heappop(heap)]. *)
Definition heappop : M (list entry) entry :=
  fun heap =>
    match list_pop heap with
    | None => (Raised IndexError, heap)
    | Some (heap', lastelt) =>
        match heap' with
        | [] => (Returned lastelt, heap')
        | returnitem :: _ =>
            (modify (fun heap => <[0%nat := lastelt]> heap) ;;;
             _siftup 0 ;;;
             ret returnitem) heap'
        end
    end.

End Heapq.

End heapq.

(** ** services/priority_queue.py *)

Module priority_queue.

Import request.

Section Queue.

Context {T : Type}.
Variable item_eq : T -> T -> bool.
Variable item_lt : T -> T -> option bool.

(** The state of an [AsyncPriorityQueue]; the lock and the condition carry
    no data. *)
Record AsyncPriorityQueue : Type := {
  _max_size : Z;
  _heap : list (@heapq.entry T);
  _counter : Z
}.

(** [AsyncPriorityQueue.__init__]. *)
Definition init (max_size : Z) : AsyncPriorityQueue :=
  {| _max_size := max_size; _heap := []; _counter := 0 |}.

(** Runs a [heapq] function on [self._heap]. *)
Definition on_heap {A} (m : M (list heapq.entry) A)
  : M AsyncPriorityQueue A :=
  fun q =>
    let '(o, h) := m (_heap q) in
    (o, {| _max_size := _max_size q; _heap := h; _counter := _counter q |}).

(** [AsyncPriorityQueue.put]. *)
Definition put (item : T) (priority : Priority) : M AsyncPriorityQueue unit :=
  q <- get_state ;;
  if Z.of_nat (length (_heap q)) >=? _max_size q then raise QueueFullError
  else
    let entry := (int priority, _counter q, item) in
    set_state {| _max_size := _max_size q; _heap := _heap q;
                 _counter := _counter q + 1 |} ;;;
    on_heap (heapq.heappush item_eq item_lt entry).

(** [AsyncPriorityQueue.get].  With an empty heap the caller waits on
    [_not_empty]. *)
Definition get : M AsyncPriorityQueue T :=
  q <- get_state ;;
  if (length (_heap q) =? 0)%nat then (fun q => (Suspended, q))
  else
    e <- on_heap (heapq.heappop item_eq item_lt) ;;
    let '(_, _, item) := e in
    ret item.

(** [AsyncPriorityQueue.size]. *)
Definition size (q : AsyncPriorityQueue) : Z := Z.of_nat (length (_heap q)).

(** [AsyncPriorityQueue.is_empty]. *)
Definition is_empty (q : AsyncPriorityQueue) : bool :=
  (length (_heap q) =? 0)%nat.

End Queue.

Arguments AsyncPriorityQueue T : clear implicits.

End priority_queue.

(** ** services/gpu_manager.py *)

Module gpu_manager.

Import gpu.

(** [range(n)]. *)
Definition range (n : Z) : list Z := map Z.of_nat (seq 0 (Z.to_nat n)).

(** [self._gpus]: a dict from slot id to slot object.  Its iteration order
    is its insertion order, which [acquire_gpu] relies on, so the dict is
    the list of its items in that order.  The slot objects are shared with
    the callers of [acquire_gpu]; the pool is the only writer of their
    [state]. *)
Record GPUManager : Type := { _gpus : list (Z * GPUSlot) }.

(** [GPUManager.__init__]. *)
Definition init (gpu_count : Z) : GPUManager :=
  {| _gpus := map (fun i => (i, {| gpu_id := i; state := AVAILABLE |}))
                  (range gpu_count) |}.

(** [d[k]] ([None]: [KeyError]) and [k in d]. *)
Fixpoint dict_get (k : Z) (d : list (Z * GPUSlot)) : option GPUSlot :=
  match d with
  | [] => None
  | (k', v) :: d' => if k' =? k then Some v else dict_get k d'
  end.

Definition dict_contains (k : Z) (d : list (Z * GPUSlot)) : bool :=
  match dict_get k d with Some _ => true | None => false end.

(** [d.values()]. *)
Definition values (d : list (Z * GPUSlot)) : list GPUSlot := map snd d.

(** [d[k].state = st] for a key of [d]. *)
Fixpoint dict_set_state (k : Z) (st : GPUState) (d : list (Z * GPUSlot))
  : list (Z * GPUSlot) :=
  match d with
  | [] => []
  | (k', v) :: d' =>
      if k' =? k then (k', {| gpu_id := gpu_id v; state := st |}) :: d'
      else (k', v) :: dict_set_state k st d'
  end.

(** The [for gpu in self._gpus.values()] loop of [acquire_gpu]: the first
    slot found AVAILABLE is set to BUSY and returned; [None] when the loop
    ends without a [return]. *)
Fixpoint first_available (d : list (Z * GPUSlot))
  : option (GPUSlot * list (Z * GPUSlot)) :=
  match d with
  | [] => None
  | (k, gpu) :: d' =>
      if GPUState_eqb (state gpu) AVAILABLE then
        let gpu' := {| gpu_id := gpu_id gpu; state := BUSY |} in
        Some (gpu', (k, gpu') :: d')
      else
        match first_available d' with
        | Some (found, d'') => Some (found, (k, gpu) :: d'')
        | None => None
        end
  end.

(** [GPUManager.acquire_gpu].  With no slot AVAILABLE the caller waits on
    [_available]; it runs the loop again when it is woken up. *)
Definition acquire_gpu : M GPUManager GPUSlot :=
  fun m =>
    match first_available (_gpus m) with
    | Some (gpu, d) => (Returned gpu, {| _gpus := d |})
    | None => (Suspended, m)
    end.

(** [GPUManager.release_gpu]. *)
Definition release_gpu (gpu_id : Z) : M GPUManager unit :=
  fun m =>
    if dict_contains gpu_id (_gpus m) then
      (Returned tt, {| _gpus := dict_set_state gpu_id AVAILABLE (_gpus m) |})
    else (Returned tt, m).

(** [GPUManager.get_gpu_state]. *)
Definition get_gpu_state (gpu_id : Z) : M GPUManager GPUState :=
  fun m =>
    match dict_get gpu_id (_gpus m) with
    | Some gpu => (Returned (state gpu), m)
    | None => (Raised KeyError, m)
    end.

(** [GPUManager.get_all_states]. *)
Definition get_all_states (m : GPUManager) : list (Z * GPUState) :=
  map (fun kv => (fst kv, state (snd kv))) (_gpus m).

(** [sum(1 for gpu in gpus if gpu.state == st)]. *)
Definition count_state (st : GPUState) (gpus : list GPUSlot) : Z :=
  fold_left (fun acc gpu => if GPUState_eqb (state gpu) st then acc + 1 else acc)
            gpus 0.

(** [GPUManager.available_count]. *)
Definition available_count (m : GPUManager) : Z :=
  count_state AVAILABLE (values (_gpus m)).

(** [GPUManager.busy_count]. *)
Definition busy_count (m : GPUManager) : Z :=
  count_state BUSY (values (_gpus m)).

(** The calls that tasks make on a pool, and the effect of one call: an
    [acquire_gpu] that finds no slot leaves the pool as it is. *)
Inductive call : Type :=
| Acquire
| Release (gpu_id : Z).

Definition run_call (c : call) (m : GPUManager) : GPUManager :=
  match c with
  | Acquire => snd (acquire_gpu m)
  | Release gpu_id => snd (release_gpu gpu_id m)
  end.

Definition run_calls (cs : list call) (m : GPUManager) : GPUManager :=
  fold_left (fun m c => run_call c m) cs m.

End gpu_manager.

(** ** services/inference_worker.py *)

Module inference_worker.

Import request gpu gpu_manager.

Section Worker.

(** Floats, with the subtraction and the multiplication used on them. *)
Context {F : Type}.
Variable fsub fmul : F -> F -> F.
Variable f1000 : F.

(** [InferenceWorker]: the delay bounds; [_gpu_manager] is the pool the
    methods run on. *)
Record InferenceWorker : Type := { _min_ms : Z; _max_ms : Z }.

(** What one call of [execute] receives from outside the program: the two
    readings of [time.perf_counter], the number drawn by [random.randint],
    the string of [uuid.uuid4], the calls other tasks make on the pool
    while this one sleeps, and the exception thrown into the sleep, if any
    (a cancellation). *)
Record world : Type := {
  perf_counter_1 : F;
  perf_counter_2 : F;
  drawn : Z;
  uuid4 : string;
  meanwhile : list call;
  thrown : option exn
}.

(** [random.randint(a, b)]: [ValueError] on an empty range. *)
Definition randint (a b : Z) (w : world) : M GPUManager Z :=
  if a <=? b then ret (drawn w) else raise ValueError.

(** The floats end half a unit in the last place beyond the largest of
    them, at [2^1024 - 2^970]: a number of that magnitude or more is
    rounded to no float. *)
Definition float_limit : Z := 2 ^ 1024 - 2 ^ 970.

(** [delay_ms / 1000], the true division of two ints: the quotient
    rounded to a float, or [OverflowError] when it is rounded to none.
    The float is the length of the sleep and is used for nothing else. *)
Definition truediv_1000 (delay_ms : Z) : M GPUManager unit :=
  if Z.abs delay_ms <? 1000 * float_limit then ret tt
  else raise OverflowError.

(** A byte [10xxxxxx] continues the character that the last byte of
    another form began. *)
Definition continues (c : ascii) : bool :=
  ((128 <=? N_of_ascii c) && (N_of_ascii c <? 192))%N.

(** [s[:n]]: the first [n] characters of [s], each with all its bytes. *)
Fixpoint slice_to (n : nat) (s : string) : string :=
  match s with
  | EmptyString => EmptyString
  | String c s' =>
      if continues c then String c (slice_to n s')
      else
        match n with
        | O => EmptyString
        | S n' => String c (slice_to n' s')
        end
  end.

(** [await asyncio.sleep(...)]: the other tasks run, then the sleeper
    resumes or has an exception thrown into it. *)
Definition sleep (w : world) : M GPUManager unit :=
  modify (run_calls (meanwhile w)) ;;;
  match thrown w with
  | Some e => raise e
  | None => ret tt
  end.

(** [a or b] on an optional string: [a] when it is truthy, that is neither
    [None] nor empty. *)
Definition or_else (a : option string) (b : string) : string :=
  match a with
  | Some s => if String.eqb s EmptyString then b else s
  | None => b
  end.

(** The [try] block of [execute], run while holding the slot [gpu]. *)
Definition execute_body (self : InferenceWorker) (w : world)
    (request : InferenceRequest) (gpu : GPUSlot)
  : M GPUManager (InferenceResponse F) :=
  let start_time := perf_counter_1 w in
  delay_ms <- randint (_min_ms self) (_max_ms self) w ;;
  truediv_1000 delay_ms ;;;
  sleep w ;;;
  let elapsed_ms := fmul (fsub (perf_counter_2 w) start_time) f1000 in
  let request_id := or_else (request_id request) (uuid4 w) in
  ret {| r_request_id := request_id;
         r_model_id := model_id request;
         output := "Mock output for: " ++ slice_to 50 (prompt request);
         r_gpu_id := gpu_id gpu;
         inference_time_ms := elapsed_ms |}.

(** [InferenceWorker.execute]. *)
Definition execute (self : InferenceWorker) (w : world)
    (request : InferenceRequest) : M GPUManager (InferenceResponse F) :=
  gpu <- acquire_gpu ;;
  try_finally (execute_body self w request gpu) (release_gpu (gpu_id gpu)).

End Worker.

End inference_worker.

(** ** services/orchestrator.py *)

Module orchestrator.

Import request gpu gpu_manager inference_worker priority_queue.

Section Orchestrator.

Context {F : Type}.
Variable fsub fmul : F -> F -> F.
Variable f1000 : F.

(** An [asyncio.Future]: pending, or done with a result, with an exception,
    or by cancellation. *)
Inductive Future : Type :=
| PENDING
| FINISHED (result : InferenceResponse F)
| FAILED (exception : exn)
| CANCELLED.

(** Futures are objects shared by the submitting coroutine and the queue
    entry: a reference is a position in the store of all futures made. *)
Definition future_ref : Type := nat.

(** The queue items, the tuples [(request, future)]. *)
Definition item : Type := InferenceRequest * future_ref.

(** [==] on the optional [request_id]. *)
Definition option_string_eqb (a b : option string) : bool :=
  match a, b with
  | Some x, Some y => String.eqb x y
  | None, None => true
  | _, _ => false
  end.

Definition Priority_eqb (a b : Priority) : bool := int a =? int b.

(** [==] on requests is field by field; on futures it is identity. *)
Definition request_eqb (a b : InferenceRequest) : bool :=
  String.eqb (model_id a) (model_id b)
  && String.eqb (prompt a) (prompt b)
  && Priority_eqb (priority a) (priority b)
  && option_string_eqb (request_id a) (request_id b).

Definition item_eq (a b : item) : bool :=
  request_eqb (fst a) (fst b) && Nat.eqb (snd a) (snd b).

(** Neither requests nor futures define [<]: ordering two items that
    differ raises [TypeError]. *)
Definition item_lt (a b : item) : option bool := None.

(** The state of an [Orchestrator] and of the futures it made. *)
Record Orchestrator : Type := {
  _queue : AsyncPriorityQueue item;
  _gpu_manager : GPUManager;
  _worker : InferenceWorker;
  _running : bool;
  futures : list Future
}.

(** [Orchestrator.__init__]. *)
Definition init (gpu_count queue_max_size min_ms max_ms : Z) : Orchestrator :=
  {| _queue := priority_queue.init queue_max_size;
     _gpu_manager := gpu_manager.init gpu_count;
     _worker := {| _min_ms := min_ms; _max_ms := max_ms |};
     _running := false;
     futures := [] |}.

(** Runs a method of [self._queue], and one of [self._gpu_manager]. *)
Definition on_queue {A} (m : M (AsyncPriorityQueue item) A)
  : M Orchestrator A :=
  fun o =>
    let '(r, q) := m (_queue o) in
    (r, {| _queue := q; _gpu_manager := _gpu_manager o;
           _worker := _worker o; _running := _running o;
           futures := futures o |}).

Definition on_gpu_manager {A} (m : M GPUManager A) : M Orchestrator A :=
  fun o =>
    let '(r, g) := m (_gpu_manager o) in
    (r, {| _queue := _queue o; _gpu_manager := g;
           _worker := _worker o; _running := _running o;
           futures := futures o |}).

Definition with_futures (o : Orchestrator) (fs : list Future) : Orchestrator :=
  {| _queue := _queue o; _gpu_manager := _gpu_manager o;
     _worker := _worker o; _running := _running o; futures := fs |}.

(** [asyncio.Future()]: a new pending future. *)
Definition new_future : M Orchestrator future_ref :=
  fun o => (Returned (length (futures o)), with_futures o (futures o ++ [PENDING])).

(** The future behind a reference; a reference not in the store does not
    occur, and reads as pending. *)
Definition deref (o : Orchestrator) (f : future_ref) : Future :=
  match futures o !! f with
  | Some fut => fut
  | None => PENDING
  end.

(** [future.set_result(response)] and [future.set_exception(e)]: a future
    that is already done refuses with [InvalidStateError]. *)
Definition set_result (f : future_ref) (response : InferenceResponse F)
  : M Orchestrator unit :=
  fun o =>
    match deref o f with
    | PENDING => (Returned tt, with_futures o (<[f := FINISHED response]> (futures o)))
    | _ => (Raised InvalidStateError, o)
    end.

Definition set_exception (f : future_ref) (e : exn) : M Orchestrator unit :=
  fun o =>
    match deref o f with
    | PENDING => (Returned tt, with_futures o (<[f := FAILED e]> (futures o)))
    | _ => (Raised InvalidStateError, o)
    end.

(** [future.cancel()], which asyncio applies to the future a task awaits
    when that task is cancelled. *)
Definition cancel (f : future_ref) : M Orchestrator bool :=
  fun o =>
    match deref o f with
    | PENDING => (Returned true, with_futures o (<[f := CANCELLED]> (futures o)))
    | _ => (Returned false, o)
    end.

(** [await future]. *)
Definition await (f : future_ref) : M Orchestrator (InferenceResponse F) :=
  fun o =>
    match deref o f with
    | PENDING => (Suspended, o)
    | FINISHED response => (Returned response, o)
    | FAILED e => (Raised e, o)
    | CANCELLED => (Raised CancelledError, o)
    end.

(** [try: body except Exception as e: handler(e)]. *)
Definition try_except_Exception {S A} (body : M S A) (handler : exn -> M S A)
  : M S A :=
  fun s =>
    match body s with
    | (Raised e, s') => if is_Exception e then handler e s' else (Raised e, s')
    | r => r
    end.

(** [Orchestrator._enqueue]. *)
Definition _enqueue (request : InferenceRequest) : M Orchestrator future_ref :=
  future <- new_future ;;
  on_queue (put item_eq item_lt (request, future) (priority request)) ;;;
  ret future.

(** [Orchestrator.submit].  The caller is suspended at [await future] for
    as long as the future is pending; it resumes there, so a resumed
    [submit] is [await] on the same future. *)
Definition submit (request : InferenceRequest)
  : M Orchestrator (InferenceResponse F) :=
  future <- _enqueue request ;;
  await future.

(** [Orchestrator._execute_and_resolve]; [w] is what the call of
    [execute] receives from outside. *)
Definition _execute_and_resolve (w : world) (request : InferenceRequest)
    (future : future_ref) : M Orchestrator unit :=
  try_except_Exception
    (response <- (fun o => on_gpu_manager
                    (execute fsub fmul f1000 (_worker o) w request) o) ;;
     set_result future response)
    (fun e => set_exception future e).

(** [Orchestrator.start]: a second call changes nothing.  The task made
    by [asyncio.create_task] runs [_process_loop], whose iterations are
    [_process_loop_step]; the task object kept in [_process_task] is read
    by [stop] only.  [Orchestrator.stop], which cancels that task and
    waits for it, is not part of the model: what is established holds of
    an orchestrator up to a call of [stop]. *)
Definition start : M Orchestrator unit :=
  o <- get_state ;;
  if _running o then ret tt
  else
    set_state {| _queue := _queue o; _gpu_manager := _gpu_manager o;
                 _worker := _worker o; _running := true;
                 futures := futures o |}.

(** [try: body except asyncio.CancelledError: handler]. *)
Definition try_except_CancelledError {S A} (body handler : M S A) : M S A :=
  fun s =>
    match body s with
    | (Raised CancelledError, s') => handler s'
    | r => r
    end.

(** One iteration of [Orchestrator._process_loop], from the test of
    [self._running] on.  While the orchestrator is running, the next item
    leaves the queue and a task running [_execute_and_resolve] on it is
    created: the iteration returns the item handed to that task.  When the
    orchestrator is not running, or on [break], the loop is left and
    nothing is handed out. *)
Definition _process_loop_step : M Orchestrator (option item) :=
  o <- get_state ;;
  if _running o then
    try_except_CancelledError
      (it <- on_queue (get item_eq item_lt) ;; ret (Some it))
      (ret None)
  else ret None.

(** [Orchestrator.get_status]. *)
Definition get_status (o : Orchestrator) : Z * Z * Z :=
  (size (_queue o), available_count (_gpu_manager o),
   busy_count (_gpu_manager o)).

End Orchestrator.

End orchestrator.

(** * Specification

    The predicates and the reference functions in which the properties are
    stated, and the sample inputs on which they are run. *)

(** ** Heaps *)

Section HeapSpec.

Context {T : Type}.

(** The part of an entry that decides its place: priority, then arrival
    number. *)
Definition key (e : @heapq.entry T) : Z * Z := (e.1.1, e.1.2).

Definition item_of (e : @heapq.entry T) : T := e.2.

(** The lexicographic order on keys, strict and large. *)
Definition key_lt (a b : Z * Z) : Prop :=
  a.1 < b.1 \/ (a.1 = b.1 /\ a.2 < b.2).

Definition key_le (a b : Z * Z) : Prop :=
  a.1 < b.1 \/ (a.1 = b.1 /\ a.2 <= b.2).

(** [a] leaves the queue before [b]: lower priority number first, and
    within one priority the earlier arrival first. *)
Definition dequeued_before (a b : @heapq.entry T) : Prop :=
  a.1.1 < b.1.1 \/ (a.1.1 = b.1.1 /\ a.1.2 < b.1.2).

(** The position above position [i] in the implicit tree of [heapq]. *)
Definition parent (i : nat) : nat := (i - 1) / 2.

(** The heap invariant of [heapq]: no entry is below its parent. *)
Definition is_heap (h : list (@heapq.entry T)) : Prop :=
  forall i x y, (0 < i)%nat -> h !! i = Some x -> h !! parent i = Some y ->
    key_le (key y) (key x).

(** The heap invariant around a hole at [pos]: it holds between all
    positions other than [pos], and between the parent of [pos] and the
    children of [pos]. *)
Definition hole_heap (h : list (@heapq.entry T)) (pos : nat) : Prop :=
  (forall i x y, (0 < i)%nat -> i <> pos -> parent i <> pos ->
     h !! i = Some x -> h !! parent i = Some y -> key_le (key y) (key x))
  /\ (forall i x y, (0 < pos)%nat -> (0 < i)%nat -> parent i = pos ->
        h !! i = Some x -> h !! parent pos = Some y -> key_le (key y) (key x)).

(** [newitem] may be put at [pos] without being above a child of [pos]. *)
Definition below_children (newitem : @heapq.entry T)
    (h : list (@heapq.entry T)) (pos : nat) : Prop :=
  forall i x, (0 < i)%nat -> parent i = pos -> h !! i = Some x ->
    key_le (key newitem) (key x).

End HeapSpec.

(** ** Runs of the queue *)

Section QueueSpec.

Import request priority_queue.

Context {T : Type}.
Variable item_eq : T -> T -> bool.
Variable item_lt : T -> T -> option bool.

(** [put] for each pair in turn; [None] as soon as one does not return. *)
Fixpoint put_all (puts : list (T * Priority)) (q : AsyncPriorityQueue T)
  : option (AsyncPriorityQueue T) :=
  match puts with
  | [] => Some q
  | (x, p) :: rest =>
      match put item_eq item_lt x p q with
      | (Returned _, q') => put_all rest q'
      | _ => None
      end
  end.

(** [n] times [get], with the items returned; [None] as soon as one does
    not return. *)
Fixpoint get_all (n : nat) (q : AsyncPriorityQueue T)
  : option (list T * AsyncPriorityQueue T) :=
  match n with
  | O => Some ([], q)
  | S n' =>
      match get item_eq item_lt q with
      | (Returned x, q') =>
          match get_all n' q' with
          | Some (xs, q'') => Some (x :: xs, q'')
          | None => None
          end
      | _ => None
      end
  end.

(** The entries that the puts make when the counter starts at [c]. *)
Fixpoint arrivals (c : Z) (puts : list (T * Priority)) : list (@heapq.entry T) :=
  match puts with
  | [] => []
  | (x, p) :: rest => (int p, c, x) :: arrivals (c + 1) rest
  end.

(** The items put with priority [p], in the order of the puts. *)
Fixpoint put_with (p : Priority) (puts : list (T * Priority)) : list T :=
  match puts with
  | [] => []
  | (x, p') :: rest =>
      if int p' =? int p then x :: put_with p rest else put_with p rest
  end.

(** The entries of one priority class, and the entries class by class. *)
Definition in_class (p : Priority) (e : @heapq.entry T) : bool :=
  e.1.1 =? int p.

Definition by_class (A : list (@heapq.entry T)) : list (@heapq.entry T) :=
  List.filter (in_class HIGH) A ++ List.filter (in_class MEDIUM) A
  ++ List.filter (in_class LOW) A.

(** What every reachable queue satisfies: its list is a heap, no two
    entries share a key, and every arrival number is below the counter. *)
Definition queue_inv (q : AsyncPriorityQueue T) : Prop :=
  is_heap (_heap q) /\ NoDup (key <$> _heap q)
  /\ (forall e, e ∈ _heap q -> e.1.2 < _counter q).

(** The calls that tasks make on a queue, in any interleaving, and the
    state each leaves. *)
Inductive queue_call : Type :=
| Put (item : T) (priority : Priority)
| Get.

Definition run_queue_call (c : queue_call) (q : AsyncPriorityQueue T)
  : AsyncPriorityQueue T :=
  match c with
  | Put item priority => snd (put item_eq item_lt item priority q)
  | Get => snd (get item_eq item_lt q)
  end.

Definition run_queue_calls (cs : list queue_call) (q : AsyncPriorityQueue T)
  : AsyncPriorityQueue T :=
  fold_left (fun q c => run_queue_call c q) cs q.

End QueueSpec.

(** ** Pools *)

Section PoolSpec.

Import gpu gpu_manager.

(** A pool whose dict has the keys [range N], each slot stored under its
    own id. *)
Definition pool_wf (N : Z) (m : GPUManager) : Prop :=
  (_gpus m).*1 = range N
  /\ Forall (fun kv : Z * GPUSlot => gpu_id kv.2 = kv.1) (_gpus m).

End PoolSpec.

(** ** Case variants of a word *)

(** The upper-case form of a lower-case ASCII letter. *)
Definition upper_ascii (c : ascii) : ascii :=
  let n := N_of_ascii c in
  if ((97 <=? n) && (n <=? 122))%N then ascii_of_N (n - 32) else c.

(** [s] spells the lower-case word [word] up to the case of each letter. *)
Fixpoint case_variant (s word : string) : bool :=
  match s, word with
  | EmptyString, EmptyString => true
  | String c s', String d word' =>
      (Ascii.eqb c d || Ascii.eqb c (upper_ascii d)) && case_variant s' word'
  | _, _ => false
  end.

(** Every character of the word is a lower-case ASCII letter. *)
Fixpoint lower_word (word : string) : bool :=
  match word with
  | EmptyString => true
  | String d word' =>
      ((97 <=? N_of_ascii d) && (N_of_ascii d <=? 122))%N && lower_word word'
  end.

(** ** Characters of a string *)

(** [len(s)]: the number of characters of [s], one for each byte that
    does not continue a character. *)
Fixpoint len (s : string) : nat :=
  match s with
  | EmptyString => O
  | String c s' =>
      if inference_worker.continues c then len s' else S (len s')
  end.

(** ** Sample inputs *)

Section Samples.

Import request gpu gpu_manager inference_worker.

(** The puts of the mixed-priority scenario. *)
Definition puts0 : list (string * Priority) :=
  [("med_1", MEDIUM); ("low_1", LOW); ("high_1", HIGH);
   ("med_2", MEDIUM); ("high_2", HIGH); ("low_2", LOW)]%string.

(** [<] on items that are not orderable. *)
Definition unordered (a b : string) : option bool := None.

(** What one call of [execute] receives, with the exception thrown into
    its sleep left open. *)
Definition world0 (thrown : option exn) : @world Z :=
  {| perf_counter_1 := 5; perf_counter_2 := 9; drawn := 250;
     uuid4 := "0b0e7a3c-6f54-4d0c-9d57-2f1f1c9f4e11";
     meanwhile := [Acquire; Release 1]; thrown := thrown |}.

(** A request, with its [request_id] left open. *)
Definition request0 (request_id : option string) : InferenceRequest :=
  {| model_id := "test-model"; prompt := "Hello"; priority := HIGH;
     request_id := request_id |}.

(** An orchestrator with two slots after one request was enqueued; the
    future of that request is future [0]. *)
Definition orchestrator0 : @orchestrator.Orchestrator Z :=
  snd (orchestrator._enqueue (request0 (Some "req-123"%string))
         (orchestrator.init 2 10 100 500)).

End Samples.

(** ** Runs of calls and further sample inputs *)

Section QueueTraceSpec.

Import request priority_queue.

Context {T : Type}.
Variable item_eq : T -> T -> bool.
Variable item_lt : T -> T -> option bool.

(** What a run of calls on a queue hands out and takes in: the items that
    the gets returned, the items whose put returned, both in the order of
    the calls, and the queue the run leaves. *)
Fixpoint run_queue_trace (cs : list queue_call) (q : AsyncPriorityQueue T)
  : list T * list T * AsyncPriorityQueue T :=
  match cs with
  | [] => ([], [], q)
  | Put x p :: cs' =>
      let '(o, q') := put item_eq item_lt x p q in
      let '(got, taken, q'') := run_queue_trace cs' q' in
      (got, match o with Returned _ => x :: taken | _ => taken end, q'')
  | Get :: cs' =>
      let '(o, q') := get item_eq item_lt q in
      let '(got, taken, q'') := run_queue_trace cs' q' in
      (match o with Returned x => x :: got | _ => got end, taken, q'')
  end.

End QueueTraceSpec.

Section PoolRunSpec.

Import gpu gpu_manager.

(** [n] calls of [acquire_gpu] in a row: how each ended, by the id of the
    slot it returned, and the pool they leave. *)
Fixpoint acquire_times (n : nat) (m : GPUManager)
  : list (outcome Z) * GPUManager :=
  match n with
  | O => ([], m)
  | S n' =>
      match acquire_gpu m with
      | (Returned gpu, m') =>
          let '(os, m'') := acquire_times n' m' in
          (Returned (gpu_id gpu) :: os, m'')
      | (Raised e, m') =>
          let '(os, m'') := acquire_times n' m' in (Raised e :: os, m'')
      | (Suspended, m') =>
          let '(os, m'') := acquire_times n' m' in (Suspended :: os, m'')
      | (Diverged, m') =>
          let '(os, m'') := acquire_times n' m' in (Diverged :: os, m'')
      end
  end.

End PoolRunSpec.

Section OrchestratorRunSpec.

Import request gpu gpu_manager inference_worker priority_queue orchestrator.

Context {F : Type}.
Variable fsub fmul : F -> F -> F.
Variable f1000 : F.

(** What the tasks of a server do to its orchestrator: the server starts
    it, a caller submits a request, the processing loop makes one
    iteration, a task made by the loop runs [_execute_and_resolve], or a
    caller that gave up waiting has its future cancelled. *)
Inductive orchestrator_call : Type :=
| Start
| Submit (request : InferenceRequest)
| LoopStep
| Dispatch (w : @world F) (request : InferenceRequest) (future : future_ref)
| GiveUp (future : future_ref).

Definition run_orchestrator_call (c : orchestrator_call)
    (o : @Orchestrator F) : @Orchestrator F :=
  match c with
  | Start => snd (start o)
  | Submit request => snd (submit request o)
  | LoopStep => snd (_process_loop_step o)
  | Dispatch w request future =>
      snd (_execute_and_resolve fsub fmul f1000 w request future o)
  | GiveUp future => snd (cancel future o)
  end.

Definition run_orchestrator_calls (cs : list orchestrator_call)
    (o : @Orchestrator F) : @Orchestrator F :=
  fold_left (fun o c => run_orchestrator_call c o) cs o.

(** The number of calls of [submit] in a run. *)
Fixpoint submitted (cs : list orchestrator_call) : Z :=
  match cs with
  | [] => 0
  | Submit _ :: cs' => 1 + submitted cs'
  | _ :: cs' => submitted cs'
  end.

End OrchestratorRunSpec.

Section MoreSamples.

Import request gpu gpu_manager inference_worker priority_queue orchestrator.


(** The two bytes of a letter outside ASCII, and [n] copies of a string
    in a row. *)
Definition e_acute : string := String "195" (String "169" EmptyString).

Fixpoint copies (n : nat) (s : string) : string :=
  match n with
  | O => EmptyString
  | S n' => s ++ copies n' s
  end.

(** A request whose prompt has 60 characters of two bytes each. *)
Definition request2 : InferenceRequest :=
  {| model_id := "test-model"; prompt := copies 60 e_acute;
     priority := MEDIUM; request_id := None |}.

(** A request of the lowest priority. *)
Definition request1 : InferenceRequest :=
  {| model_id := "test-model"; prompt := "Later"; priority := LOW;
     request_id := None |}.

End MoreSamples.

(** * Properties

    ** heapq *)

Ltac parent_arith :=
  unfold parent in *;
  repeat match goal with
  | |- context [ (?a / 2)%nat ] =>
      lazymatch goal with
      | _ : a = (2 * (a / 2) + a mod 2)%nat |- _ => fail
      | _ => pose proof (Nat.div_mod_eq a 2);
             pose proof (Nat.mod_upper_bound a 2 ltac:(lia))
      end
  | _ : context [ (?a / 2)%nat ] |- _ =>
      lazymatch goal with
      | _ : a = (2 * (a / 2) + a mod 2)%nat |- _ => fail
      | _ => pose proof (Nat.div_mod_eq a 2);
             pose proof (Nat.mod_upper_bound a 2 ltac:(lia))
      end
  end;
  lia.

Section HeapProofs.
Context {T : Type}.
Variable item_eq : T -> T -> bool.
Variable item_lt : T -> T -> option bool.
Local Abbreviation entry := (@heapq.entry T).
Implicit Types (h heap : list entry) (e x y newitem : entry).

Lemma parent_lt i : (0 < i)%nat -> (parent i < i)%nat.
Proof. intros. parent_arith. Qed.

Lemma parent_child i p : (0 < i)%nat ->
  parent i = p <-> i = (2 * p + 1)%nat \/ i = (2 * p + 2)%nat.
Proof. intros. parent_arith. Qed.

Lemma key_le_trans a b c : key_le a b -> key_le b c -> key_le a c.
Proof. unfold key_le. lia. Qed.

Lemma key_lt_le a b : key_lt a b -> key_le a b.
Proof. unfold key_lt, key_le. lia. Qed.

Lemma key_not_lt a b : ~ key_lt a b -> key_le b a.
Proof. unfold key_lt, key_le. lia. Qed.

Lemma key_le_neq_lt a b : key_le a b -> a <> b -> key_lt a b.
Proof.
  destruct a as [a1 a2], b as [b1 b2]. unfold key_le, key_lt. simpl.
  intros H Hne. destruct H as [H|[H1 H2]]; [lia|].
  right. split; [done|]. destruct (Z.eq_dec a2 b2); [|lia]. subst. done.
Qed.

Lemma tuple_lt_key a b : key a <> key b ->
  (heapq.tuple_lt item_eq item_lt a b = Some true /\ key_lt (key a) (key b))
  \/ (heapq.tuple_lt item_eq item_lt a b = Some false /\ key_lt (key b) (key a)).
Proof.
  destruct a as [[p1 c1] x1], b as [[p2 c2] x2].
  unfold key, key_lt, heapq.tuple_lt. simpl. intros Hne.
  destruct (Z.eqb_spec p1 p2) as [->|Hp]; simpl.
  - destruct (Z.eqb_spec c1 c2) as [->|Hc]; simpl; [done|].
    destruct (Z.ltb_spec c1 c2); [left|right]; split; auto; lia.
  - destruct (Z.ltb_spec p1 p2); [left|right]; split; auto; lia.
Qed.


Lemma hole_heap_insert h pos x : hole_heap h pos -> hole_heap (<[pos := x]> h) pos.
Proof.
  intros [H1 H2]. split.
  - intros i a b Hi Hne Hpne Ha Hb.
    rewrite list_lookup_insert_ne in Ha by done.
    rewrite list_lookup_insert_ne in Hb by done. eauto.
  - intros i a b Hpos Hi Hp Ha Hb.
    assert (i <> pos) by (pose proof (parent_lt i Hi); lia).
    assert (parent pos <> pos) by (pose proof (parent_lt pos Hpos); lia).
    rewrite list_lookup_insert_ne in Ha by done.
    rewrite list_lookup_insert_ne in Hb by done. eauto.
Qed.

Lemma is_heap_hole h pos : is_heap h -> hole_heap h pos.
Proof.
  intros H. split.
  - intros i a b Hi _ _ Ha Hb. eauto.
  - intros i a b Hpos Hi Hp Ha Hb.
    assert (is_Some (h !! pos)) as [c Hc].
    { apply lookup_lt_is_Some. apply lookup_lt_Some in Ha.
      pose proof (parent_lt i Hi). lia. }
    apply key_le_trans with (key c).
    + apply (H pos); auto.
    + apply (H i); auto. by rewrite Hp.
Qed.

Lemma is_heap_fill h pos newitem :
  (pos < length h)%nat ->
  hole_heap h pos -> below_children newitem h pos ->
  (forall y, (0 < pos)%nat -> h !! parent pos = Some y ->
     key_le (key y) (key newitem)) ->
  is_heap (<[pos := newitem]> h).
Proof.
  intros Hlen [H1 H2] Hbelow Habove i a b Hi Ha Hb.
  destruct (decide (i = pos)) as [->|Hne].
  - rewrite list_lookup_insert_eq in Ha by done. injection Ha as <-.
    assert (parent pos <> pos) by (pose proof (parent_lt pos Hi); lia).
    rewrite list_lookup_insert_ne in Hb by done. eauto.
  - rewrite list_lookup_insert_ne in Ha by done.
    destruct (decide (parent i = pos)) as [Hp|Hp].
    + rewrite Hp in Hb. rewrite list_lookup_insert_eq in Hb by done.
      injection Hb as <-. eapply Hbelow; eauto.
    + rewrite list_lookup_insert_ne in Hb by done. eauto.
Qed.

(** One iteration of the [_siftdown] loop keeps the hole invariant. *)
Lemma hole_heap_up h pos newitem par :
  (0 < pos)%nat -> (pos < length h)%nat ->
  hole_heap h pos -> below_children newitem h pos ->
  h !! parent pos = Some par -> key_lt (key newitem) (key par) ->
  hole_heap (<[pos := par]> h) (parent pos)
  /\ below_children newitem (<[pos := par]> h) (parent pos).
Proof.
  intros Hpos Hlen [H1 H2] Hbelow Hpar Hlt.
  pose proof (parent_lt pos Hpos) as Hpp.
  split; [split|].
  - intros i a b Hi Hne Hpne Ha Hb.
    assert (i <> pos) by congruence.
    rewrite list_lookup_insert_ne in Ha by done.
    destruct (decide (parent i = pos)) as [Hp|Hp].
    + rewrite Hp in Hb. rewrite list_lookup_insert_eq in Hb by done.
      injection Hb as <-. eapply (H2 i); eauto.
    + rewrite list_lookup_insert_ne in Hb by done. eauto.
  - intros i a b Hpos' Hi Hp Ha Hb.
    pose proof (parent_lt _ Hpos') as Hpp'.
    rewrite list_lookup_insert_ne in Hb by lia.
    assert (key_le (key b) (key par)) as Hbp.
    { apply (H1 (parent pos)); auto; lia. }
    destruct (decide (i = pos)) as [->|Hne].
    + rewrite list_lookup_insert_eq in Ha by done. by injection Ha as <-.
    + rewrite list_lookup_insert_ne in Ha by done.
      eapply key_le_trans; [exact Hbp|].
      apply (H1 i); auto; [lia|]. by rewrite Hp.
  - intros i a Hi Hp Ha.
    destruct (decide (i = pos)) as [->|Hne].
    + rewrite list_lookup_insert_eq in Ha by done. injection Ha as <-.
      by apply key_lt_le.
    + rewrite list_lookup_insert_ne in Ha by done.
      eapply key_le_trans; [apply key_lt_le, Hlt|].
      apply (H1 i); auto; [lia|]. by rewrite Hp.
Qed.

(** One iteration of the [_siftup] loop keeps the hole invariant. *)
Lemma hole_heap_down h pos c cv :
  (0 < c)%nat -> parent c = pos ->
  hole_heap h pos -> h !! c = Some cv ->
  (forall i x, (0 < i)%nat -> parent i = pos -> i <> c -> h !! i = Some x ->
     key_le (key cv) (key x)) ->
  hole_heap (<[pos := cv]> h) c.
Proof.
  intros Hc Hpc [H1 H2] Hcv Hsib.
  pose proof (parent_lt c Hc) as Hlt. assert (pos < length h)%nat as Hlen.
  { apply lookup_lt_Some in Hcv. lia. }
  split.
  - intros i a b Hi Hne Hpne Ha Hb.
    destruct (decide (i = pos)) as [->|Hne'].
    + rewrite list_lookup_insert_eq in Ha by done. injection Ha as <-.
      pose proof (parent_lt pos Hi).
      rewrite list_lookup_insert_ne in Hb by lia.
      eapply (H2 c); eauto.
    + rewrite list_lookup_insert_ne in Ha by done.
      destruct (decide (parent i = pos)) as [Hp|Hp].
      * rewrite Hp in Hb. rewrite list_lookup_insert_eq in Hb by done.
        injection Hb as <-. eapply Hsib; eauto.
      * rewrite list_lookup_insert_ne in Hb by done. eauto.
  - intros i a b _ Hi Hp Ha Hb.
    pose proof (parent_lt i Hi).
    rewrite list_lookup_insert_ne in Ha by lia.
    rewrite Hpc in Hb. rewrite list_lookup_insert_eq in Hb by done.
    injection Hb as <-.
    apply (H1 i); auto; try lia. by rewrite Hp.
Qed.


Lemma keys_differ h i j x y :
  NoDup (key <$> h) -> i <> j -> h !! i = Some x -> h !! j = Some y ->
  key x <> key y.
Proof.
  intros Hnd Hne Hx Hy Heq. apply Hne.
  eapply NoDup_lookup; [exact Hnd| |].
  - rewrite list_lookup_fmap, Hx. reflexivity.
  - rewrite list_lookup_fmap, Hy. simpl. by rewrite Heq.
Qed.

Lemma insert_move h pos pos' newitem y :
  (pos < length h)%nat -> pos <> pos' -> h !! pos' = Some y ->
  <[pos' := newitem]> (<[pos := y]> h) ≡ₚ <[pos := newitem]> h.
Proof.
  intros Hlen Hne Hy.
  rewrite <- (list_insert_insert_eq h pos y newitem).
  apply Permutation_insert_swap.
  - by apply list_lookup_insert_eq.
  - by rewrite list_lookup_insert_ne.
Qed.

Lemma _siftdown_loop_S fuel newitem startpos pos heap :
  heapq._siftdown_loop item_eq item_lt (S fuel) newitem startpos pos heap =
  if (startpos <? pos)%nat then
    match heap !! parent pos with
    | None => (Raised IndexError, heap)
    | Some par =>
        match heapq.tuple_lt item_eq item_lt newitem par with
        | None => (Raised TypeError, heap)
        | Some true =>
            heapq._siftdown_loop item_eq item_lt fuel newitem startpos
              (parent pos) (<[pos := par]> heap)
        | Some false => (Returned tt, <[pos := newitem]> heap)
        end
    end
  else (Returned tt, <[pos := newitem]> heap).
Proof. reflexivity. Qed.

Lemma _siftdown_loop_spec fuel : forall pos heap newitem,
  (pos <= fuel)%nat -> (pos < length heap)%nat ->
  NoDup (key <$> <[pos := newitem]> heap) ->
  hole_heap heap pos -> below_children newitem heap pos ->
  exists h',
    heapq._siftdown_loop item_eq item_lt fuel newitem 0 pos heap
      = (Returned tt, h')
    /\ h' ≡ₚ <[pos := newitem]> heap /\ is_heap h'.
Proof.
  induction fuel as [|fuel IH]; intros pos heap newitem Hfuel Hlen Hnd Hhole Hbelow.
  - assert (pos = 0)%nat as -> by lia. simpl.
    eexists; split; [reflexivity|]. split; [done|].
    apply is_heap_fill; auto. intros y Hy. lia.
  - rewrite _siftdown_loop_S. destruct (Nat.ltb_spec 0 pos) as [Hpos|Hpos].
    + pose proof (parent_lt pos Hpos) as Hpp.
      destruct (lookup_lt_is_Some_2 heap (parent pos)) as [par Hpar]; [lia|].
      rewrite Hpar.
      assert (key newitem <> key par) as Hkeys.
      { eapply (keys_differ _ pos (parent pos)); [exact Hnd|lia| |].
        - by apply list_lookup_insert_eq.
        - rewrite list_lookup_insert_ne by lia. done. }
      destruct (tuple_lt_key newitem par Hkeys) as [[-> Hlt]|[-> Hlt]].
      * destruct (hole_heap_up heap pos newitem par) as [Hh' Hb']; auto.
        assert (<[parent pos := newitem]> (<[pos := par]> heap)
                  ≡ₚ <[pos := newitem]> heap) as Hperm.
        { apply insert_move; auto. lia. }
        destruct (IH (parent pos) (<[pos := par]> heap) newitem)
          as (h' & Hrun & Hp & Hheap); auto.
        { lia. }
        { rewrite length_insert. lia. }
        { by rewrite Hperm. }
        exists h'. split; [done|]. split; [|done]. by rewrite Hp.
      * eexists; split; [reflexivity|]. split; [done|].
        apply is_heap_fill; auto. intros y _ Hy.
        rewrite Hpar in Hy. injection Hy as <-. by apply key_lt_le.
    + assert (pos = 0)%nat as -> by lia.
      eexists; split; [reflexivity|]. split; [done|].
      apply is_heap_fill; auto. intros y Hy. lia.
Qed.

Lemma _siftdown_spec pos heap :
  (pos < length heap)%nat -> NoDup (key <$> heap) ->
  hole_heap heap pos ->
  (forall newitem, heap !! pos = Some newitem ->
     below_children newitem heap pos) ->
  exists h',
    heapq._siftdown item_eq item_lt 0 pos heap = (Returned tt, h')
    /\ h' ≡ₚ heap /\ is_heap h'.
Proof.
  intros Hlen Hnd Hhole Hbelow. unfold heapq._siftdown.
  destruct (lookup_lt_is_Some_2 heap pos Hlen) as [newitem Hnew].
  rewrite Hnew.
  destruct (_siftdown_loop_spec pos pos heap newitem)
    as (h' & Hrun & Hp & Hheap); auto.
  { by rewrite list_insert_id. }
  exists h'. split; [done|]. split; [|done].
  by rewrite Hp, list_insert_id.
Qed.


Lemma smaller_child_spec heap pos newitem :
  NoDup (key <$> <[pos := newitem]> heap) ->
  (2 * pos + 1 < length heap)%nat ->
  exists c cv,
    heapq.smaller_child item_eq item_lt (length heap) (2 * pos + 1) heap
      = Returned c
    /\ (0 < c)%nat /\ parent c = pos /\ heap !! c = Some cv
    /\ (forall i x, (0 < i)%nat -> parent i = pos -> i <> c ->
          heap !! i = Some x -> key_le (key cv) (key x)).
Proof.
  intros Hnd Hlen. unfold heapq.smaller_child.
  destruct (lookup_lt_is_Some_2 heap (2 * pos + 1)) as [l Hl]; [lia|].
  destruct (Nat.ltb_spec (2 * pos + 1 + 1) (length heap)) as [Hr|Hr].
  - destruct (lookup_lt_is_Some_2 heap (2 * pos + 1 + 1)) as [r Hr']; [lia|].
    rewrite Hl, Hr'.
    assert (key l <> key r) as Hkeys.
    { eapply (keys_differ _ (2 * pos + 1) (2 * pos + 1 + 1));
        [exact Hnd|lia| |]; rewrite list_lookup_insert_ne by lia; done. }
    destruct (tuple_lt_key l r Hkeys) as [[-> Hlt]|[-> Hlt]].
    + exists (2 * pos + 1)%nat, l. split; [done|]. split; [lia|].
      split; [apply parent_child; lia|]. split; [done|].
      intros i x Hi Hp Hne Hx. apply parent_child in Hp; [|done].
      assert (i = 2 * pos + 1 + 1)%nat as -> by lia.
      rewrite Hr' in Hx. injection Hx as <-. by apply key_lt_le.
    + exists (2 * pos + 1 + 1)%nat, r. split; [done|]. split; [lia|].
      split; [apply parent_child; lia|]. split; [done|].
      intros i x Hi Hp Hne Hx. apply parent_child in Hp; [|done].
      assert (i = 2 * pos + 1)%nat as -> by lia.
      rewrite Hl in Hx. injection Hx as <-. by apply key_lt_le.
  - exists (2 * pos + 1)%nat, l. split; [done|]. split; [lia|].
    split; [apply parent_child; lia|]. split; [done|].
    intros i x Hi Hp Hne Hx. apply parent_child in Hp; [|done].
    apply lookup_lt_Some in Hx. lia.
Qed.

Lemma _siftup_loop_S fuel endpos pos heap :
  heapq._siftup_loop item_eq item_lt (S fuel) endpos pos heap =
  if (2 * pos + 1 <? endpos)%nat then
    match heapq.smaller_child item_eq item_lt endpos (2 * pos + 1) heap with
    | Returned childpos' =>
        match heap !! childpos' with
        | None => (Raised IndexError, heap)
        | Some c =>
            heapq._siftup_loop item_eq item_lt fuel endpos childpos'
              (<[pos := c]> heap)
        end
    | Raised e => (Raised e, heap)
    | Suspended => (Suspended, heap)
    | Diverged => (Diverged, heap)
    end
  else (Returned pos, heap).
Proof. reflexivity. Qed.

Lemma _siftup_loop_spec fuel : forall endpos pos heap newitem,
  endpos = length heap ->
  (endpos - pos <= fuel)%nat -> (pos < endpos)%nat ->
  NoDup (key <$> <[pos := newitem]> heap) ->
  hole_heap heap pos ->
  exists pos' h',
    heapq._siftup_loop item_eq item_lt fuel endpos pos heap
      = (Returned pos', h')
    /\ length h' = endpos /\ (pos' < endpos)%nat
    /\ <[pos' := newitem]> h' ≡ₚ <[pos := newitem]> heap
    /\ hole_heap h' pos' /\ (endpos <= 2 * pos' + 1)%nat.
Proof.
  induction fuel as [|fuel IH];
    intros endpos pos heap newitem Hend Hfuel Hpos Hnd Hhole; [lia|].
  rewrite _siftup_loop_S.
  destruct (Nat.ltb_spec (2 * pos + 1) endpos) as [Hc|Hc].
  - subst endpos.
    destruct (smaller_child_spec heap pos newitem Hnd Hc)
      as (c & cv & -> & Hc0 & Hpc & Hcv & Hsib).
    rewrite Hcv.
    pose proof (parent_lt c Hc0) as Hlt.
    assert (c < length heap)%nat as Hclen by (by apply lookup_lt_Some in Hcv).
    assert (<[c := newitem]> (<[pos := cv]> heap) ≡ₚ <[pos := newitem]> heap)
      as Hperm by (apply insert_move; auto; lia).
    destruct (IH (length heap) c (<[pos := cv]> heap) newitem)
      as (pos' & h' & Hrun & Hl & Hp' & Hp & Hh & Hleaf); auto.
    { by rewrite length_insert. }
    { lia. }
    { by rewrite Hperm. }
    { eapply hole_heap_down; eauto. }
    exists pos', h'. split; [done|]. repeat split; auto.
    + by rewrite Hp.
    + apply Hh.
    + apply Hh.
  - exists pos, heap. split; [done|]. repeat split; auto; apply Hhole.
Qed.


Lemma _siftup_spec heap :
  (0 < length heap)%nat -> NoDup (key <$> heap) -> hole_heap heap 0 ->
  exists h',
    heapq._siftup item_eq item_lt 0 heap = (Returned tt, h')
    /\ h' ≡ₚ heap /\ is_heap h'.
Proof.
  intros Hlen Hnd Hhole. unfold heapq._siftup.
  destruct (lookup_lt_is_Some_2 heap 0 Hlen) as [newitem Hnew].
  rewrite Hnew.
  destruct (_siftup_loop_spec (length heap) (length heap) 0%nat heap newitem)
    as (pos' & h1 & Hrun & Hl & Hp' & Hperm & Hh & Hleaf); auto.
  { lia. }
  { by rewrite list_insert_id. }
  rewrite (list_insert_id heap) in Hperm by done.
  unfold bind at 1. rewrite Hrun. unfold bind, modify.
  destruct (_siftdown_spec pos' (<[pos' := newitem]> h1))
    as (h' & Hrun' & Hperm' & Hheap).
  { rewrite length_insert. lia. }
  { by rewrite Hperm. }
  { by apply hole_heap_insert. }
  { intros ? _ i x Hi Hp Hx. apply lookup_lt_Some in Hx.
    rewrite length_insert in Hx. apply parent_child in Hp; [|done]. lia. }
  exists h'. split; [done|]. split; [|done]. by rewrite Hperm'.
Qed.

Lemma is_heap_snoc h x : is_heap (h ++ [x]) -> is_heap h.
Proof.
  intros H i a b Hi Ha Hb. apply (H i); auto.
  - rewrite lookup_app_l; [done|]. by apply lookup_lt_Some in Ha.
  - rewrite lookup_app_l; [done|]. by apply lookup_lt_Some in Hb.
Qed.

Lemma heappush_spec h x :
  is_heap h -> NoDup (key <$> (h ++ [x])) ->
  exists h',
    heapq.heappush item_eq item_lt x h = (Returned tt, h')
    /\ h' ≡ₚ x :: h /\ is_heap h'.
Proof.
  intros Hheap Hnd. unfold heapq.heappush, bind, modify, get_state.
  rewrite length_app. simpl.
  replace (length h + 1 - 1)%nat with (length h) by lia.
  destruct (_siftdown_spec (length h) (h ++ [x]))
    as (h' & Hrun & Hperm & Hheap').
  { rewrite length_app. simpl. lia. }
  { done. }
  { split.
    - intros i a b Hi Hne Hpne Ha Hb.
      pose proof (parent_lt i Hi).
      assert (i < length h)%nat.
      { apply lookup_lt_Some in Ha. rewrite length_app in Ha. simpl in Ha. lia. }
      rewrite lookup_app_l in Ha by lia. rewrite lookup_app_l in Hb by lia.
      eauto.
    - intros i a b Hpos Hi Hp Ha Hb. apply lookup_lt_Some in Ha.
      rewrite length_app in Ha. simpl in Ha.
      apply parent_child in Hp; [|done]. lia. }
  { intros newitem _ i a Hi Hp Ha. apply lookup_lt_Some in Ha.
    rewrite length_app in Ha. simpl in Ha.
    apply parent_child in Hp; [|done]. lia. }
  exists h'. split; [done|]. split; [|done].
  rewrite Hperm. by rewrite Permutation_app_comm.
Qed.

Lemma heap_root_le h r :
  is_heap h -> h !! 0%nat = Some r ->
  forall i x, h !! i = Some x -> key_le (key r) (key x).
Proof.
  intros Hheap Hr i. induction i as [i IH] using lt_wf_ind. intros x Hx.
  destruct (decide (i = 0)%nat) as [->|Hne].
  - rewrite Hr in Hx. injection Hx as <-. unfold key_le. lia.
  - assert (0 < i)%nat as Hi by lia. pose proof (parent_lt i Hi).
    destruct (lookup_lt_is_Some_2 h (parent i)) as [y Hy].
    { apply lookup_lt_Some in Hx. lia. }
    eapply key_le_trans; [apply (IH (parent i)); eauto|].
    apply (Hheap i); auto.
Qed.

Lemma list_pop_snoc h :
  h <> [] -> exists h' lastelt,
    heapq.list_pop h = Some (h', lastelt) /\ h = h' ++ [lastelt].
Proof.
  intros Hne. destruct (exists_last Hne) as (h' & lastelt & ->).
  exists h', lastelt. unfold heapq.list_pop.
  by rewrite last_snoc, removelast_last.
Qed.

Lemma strictly_first (m : entry) h :
  NoDup (key <$> (m :: h)) ->
  (forall e, e ∈ h -> key_le (key m) (key e)) ->
  forall e, e ∈ h -> key_lt (key m) (key e).
Proof.
  intros Hnd Hle e He. apply key_le_neq_lt; [by apply Hle|].
  intros Heq. rewrite fmap_cons in Hnd. apply NoDup_cons in Hnd as [Hnotin _].
  apply Hnotin. rewrite Heq. apply list_elem_of_fmap. eauto.
Qed.

Lemma heappop_spec h :
  is_heap h -> NoDup (key <$> h) -> h <> [] ->
  exists m h',
    heapq.heappop item_eq item_lt h = (Returned m, h')
    /\ h ≡ₚ m :: h' /\ is_heap h'
    /\ (forall e, e ∈ h' -> key_lt (key m) (key e)).
Proof.
  intros Hheap Hnd Hne.
  destruct (list_pop_snoc h Hne) as (h0 & lastelt & Hpop & ->).
  unfold heapq.heappop. rewrite Hpop.
  destruct h0 as [|r t].
  - exists lastelt, []. split; [done|]. split; [done|]. split.
    + intros i a b _ Ha. by rewrite lookup_nil in Ha.
    + intros e He. by apply elem_of_nil in He.
  - unfold bind at 1. unfold modify. simpl.
    assert (r :: t ++ [lastelt] ≡ₚ r :: lastelt :: t) as Hperm.
    { constructor. by rewrite Permutation_app_comm. }
    assert (NoDup (key <$> r :: lastelt :: t)) as Hnd'.
    { by rewrite <- Hperm. }
    destruct (_siftup_spec (lastelt :: t)) as (h' & Hrun & Hp & Hheap').
    { simpl. lia. }
    { rewrite fmap_cons in Hnd'. by apply NoDup_cons in Hnd' as [_ ?]. }
    { apply (hole_heap_insert (r :: t) 0%nat lastelt).
      apply is_heap_hole. by apply is_heap_snoc in Hheap. }
    unfold bind, ret. rewrite Hrun.
    exists r, h'. split; [done|]. split; [by rewrite Hperm, Hp|].
    split; [done|].
    apply strictly_first; [by rewrite Hp|].
    intros e He. rewrite Hp in He.
    assert (e ∈ (r :: t) ++ [lastelt]) as Hin.
    { rewrite Hperm. by apply list_elem_of_further. }
    apply list_elem_of_lookup in Hin as [i Hi].
    by apply (heap_root_le _ r Hheap eq_refl i).
Qed.


(** The iteration bounds are never used up, whatever the list holds. *)
Lemma _siftdown_loop_fuel fuel : forall newitem startpos pos heap,
  (pos <= fuel)%nat ->
  fst (heapq._siftdown_loop item_eq item_lt fuel newitem startpos pos heap)
  <> Diverged.
Proof.
  induction fuel as [|fuel IH]; intros newitem startpos pos heap Hfuel.
  - simpl. destruct (Nat.ltb_spec startpos pos); [lia|done].
  - rewrite _siftdown_loop_S. destruct (Nat.ltb_spec startpos pos); [|done].
    destruct (heap !! parent pos) as [par|]; [|done].
    destruct (heapq.tuple_lt item_eq item_lt newitem par) as [[]|]; try done.
    apply IH. pose proof (parent_lt pos). lia.
Qed.

Lemma smaller_child_cases endpos childpos heap :
  (exists c, heapq.smaller_child item_eq item_lt endpos childpos heap
               = Returned c /\ (childpos <= c)%nat)
  \/ (exists err, heapq.smaller_child item_eq item_lt endpos childpos heap
                   = Raised err).
Proof.
  unfold heapq.smaller_child.
  destruct (childpos + 1 <? endpos)%nat; [|left; eauto].
  destruct (heap !! childpos) as [l|]; [|right; eauto].
  destruct (heap !! (childpos + 1)%nat) as [r|]; [|right; eauto].
  destruct (heapq.tuple_lt item_eq item_lt l r) as [[]|].
  - left. eauto.
  - left. exists (childpos + 1)%nat. split; [done|lia].
  - right. eauto.
Qed.

Lemma _siftup_loop_fuel fuel : forall endpos pos heap,
  (endpos - pos <= fuel)%nat ->
  fst (heapq._siftup_loop item_eq item_lt fuel endpos pos heap) <> Diverged.
Proof.
  induction fuel as [|fuel IH]; intros endpos pos heap Hfuel.
  - simpl. destruct (Nat.ltb_spec (pos + (pos + 0) + 1) endpos); [lia|done].
  - rewrite _siftup_loop_S.
    destruct (Nat.ltb_spec (2 * pos + 1) endpos); [|done].
    destruct (smaller_child_cases endpos (2 * pos + 1) heap)
      as [(c & -> & Hc)|(err & ->)]; [|done].
    destruct (heap !! c); [|done]. apply IH. lia.
Qed.

End HeapProofs.

(** ** The priority queue *)

Section QueueProofs.

Import request priority_queue.

Context {T : Type}.
Variable item_eq : T -> T -> bool.
Variable item_lt : T -> T -> option bool.
Local Abbreviation entry := (@heapq.entry T).
Local Abbreviation queue := (AsyncPriorityQueue T).

Lemma put_full (q : queue) x p :
  _max_size q <= size q ->
  put item_eq item_lt x p q = (Raised QueueFullError, q).
Proof.
  intros Hfull. unfold put, bind, get_state, size in *.
  destruct (Z.geb_spec (Z.of_nat (length (_heap q))) (_max_size q)); [done|lia].
Qed.

Lemma put_spec (q : queue) x p :
  queue_inv q -> size q < _max_size q ->
  exists q',
    put item_eq item_lt x p q = (Returned tt, q')
    /\ _heap q' ≡ₚ (int p, _counter q, x) :: _heap q
    /\ _counter q' = _counter q + 1
    /\ _max_size q' = _max_size q
    /\ queue_inv q'.
Proof.
  intros (Hheap & Hnd & Hcnt) Hroom.
  unfold put, bind, get_state, size in *.
  destruct (Z.geb_spec (Z.of_nat (length (_heap q))) (_max_size q)); [lia|].
  unfold set_state, on_heap. simpl.
  assert (NoDup (key <$> (_heap q ++ [(int p, _counter q, x)]))) as Hnd'.
  { rewrite fmap_app. rewrite Permutation_app_comm. simpl.
    apply NoDup_cons. split; [|done].
    intros Hin. apply list_elem_of_fmap in Hin as (e & Hk & He).
    apply Hcnt in He. unfold key in Hk. simpl in Hk.
    injection Hk as _ Hk. lia. }
  destruct (heappush_spec item_eq item_lt (_heap q) (int p, _counter q, x))
    as (h' & -> & Hperm & Hheap'); auto.
  eexists. split; [reflexivity|]. unfold queue_inv. simpl. split; [done|].
  split; [done|]. split; [done|].
  split; [done|]. split.
  - rewrite Hperm. by rewrite Permutation_app_comm in Hnd'.
  - intros e He. rewrite Hperm in He. apply elem_of_cons in He as [->|He].
    + simpl. lia.
    + apply Hcnt in He. lia.
Qed.

Lemma put_Returned (q q' : queue) x p :
  put item_eq item_lt x p q = (Returned tt, q') -> size q < _max_size q.
Proof.
  intros Hput. destruct (Z.lt_ge_cases (size q) (_max_size q)) as [|Hfull]; [done|].
  rewrite put_full in Hput by lia. discriminate.
Qed.

Lemma put_all_spec puts : forall (q q' : queue),
  queue_inv q -> put_all item_eq item_lt puts q = Some q' ->
  queue_inv q'
  /\ _heap q' ≡ₚ arrivals (_counter q) puts ++ _heap q.
Proof.
  induction puts as [|[x p] rest IH]; intros q q' Hinv Hrun; simpl in *.
  - injection Hrun as <-. done.
  - destruct (put item_eq item_lt x p q) as [[[]| | |] q1] eqn:Hput;
      try discriminate.
    destruct (put_spec q x p Hinv (put_Returned _ _ _ _ Hput))
      as (q1' & Hput' & Hperm & Hc & _ & Hinv1).
    rewrite Hput in Hput'. injection Hput' as <-.
    destruct (IH q1 q' Hinv1 Hrun) as (Hinv' & Hperm').
    split; [done|]. rewrite Hperm', Hperm, Hc.
    by rewrite <- Permutation_middle.
Qed.

Lemma get_spec (q : queue) :
  queue_inv q -> _heap q <> [] ->
  exists m q',
    get item_eq item_lt q = (Returned (item_of m), q')
    /\ _heap q ≡ₚ m :: _heap q'
    /\ queue_inv q'
    /\ (forall e, e ∈ _heap q' -> dequeued_before m e).
Proof.
  intros (Hheap & Hnd & Hcnt) Hne.
  unfold get, bind, get_state.
  destruct (Nat.eqb_spec (length (_heap q)) 0) as [Hlen|_].
  { by apply nil_length_inv in Hlen. }
  destruct (heappop_spec item_eq item_lt (_heap q))
    as (m & h' & Hpop & Hperm & Hheap' & Hmin); auto.
  unfold on_heap. rewrite Hpop. destruct m as [[mp mc] mx]. simpl.
  eexists (mp, mc, mx), _. split; [reflexivity|]. unfold queue_inv. simpl.
  split; [done|]. split; [|done].
  split; [done|]. split.
  - rewrite Hperm in Hnd. rewrite fmap_cons in Hnd.
    by apply NoDup_cons in Hnd as [_ ?].
  - intros e He. apply Hcnt. rewrite Hperm. by apply list_elem_of_further.
Qed.

Lemma run_queue_call_inv c (q : queue) :
  queue_inv q -> queue_inv (run_queue_call item_eq item_lt c q).
Proof.
  intros Hinv. destruct c as [x p|]; simpl.
  - destruct (Z.lt_ge_cases (size q) (_max_size q)) as [Hroom|Hfull].
    + destruct (put_spec q x p Hinv Hroom) as (q' & -> & _ & _ & _ & Hinv').
      done.
    + by rewrite put_full by lia.
  - destruct (_heap q) as [|e h] eqn:Hq.
    + unfold get, bind, get_state. by rewrite Hq.
    + destruct (get_spec q Hinv) as (m & q' & -> & _ & Hinv' & _); [|done].
      by rewrite Hq.
Qed.

Lemma run_queue_calls_inv cs : forall (q : queue),
  queue_inv q -> queue_inv (run_queue_calls item_eq item_lt cs q).
Proof.
  unfold run_queue_calls.
  induction cs as [|c cs IH]; intros q Hinv; simpl; [done|].
  apply IH. by apply run_queue_call_inv.
Qed.

(** X1: whatever puts and gets came before, in whatever order: a [get] on a
    queue that holds entries returns, and the entry it removes is ahead of
    every entry it leaves, by priority first and by arrival second. *)
Lemma get_removes_the_first max_size cs :
  _heap (run_queue_calls item_eq item_lt cs (init max_size)) <> [] ->
  exists m q',
    get item_eq item_lt (run_queue_calls item_eq item_lt cs (init max_size))
    = (Returned (item_of m), q')
    /\ _heap (run_queue_calls item_eq item_lt cs (init max_size))
       ≡ₚ m :: _heap q'
    /\ (forall e, e ∈ _heap q' -> dequeued_before m e).
Proof.
  intros Hne.
  destruct (get_spec (run_queue_calls item_eq item_lt cs (init max_size)))
    as (m & q' & Hget & Hperm & _ & Hmin); auto.
  { apply run_queue_calls_inv. split; [|split]; simpl.
    - intros i a b _ Ha. by rewrite lookup_nil in Ha.
    - constructor.
    - intros e He. by apply elem_of_nil in He. }
  exists m, q'. auto.
Qed.

Lemma get_all_spec n : forall (q : queue),
  queue_inv q -> length (_heap q) = n ->
  exists L q',
    get_all item_eq item_lt n q = Some (item_of <$> L, q')
    /\ L ≡ₚ _heap q
    /\ StronglySorted dequeued_before L
    /\ _heap q' = [].
Proof.
  induction n as [|n IH]; intros q Hinv Hlen.
  - exists [], q. simpl. apply nil_length_inv in Hlen.
    split; [done|]. rewrite Hlen. split; [done|]. split; [constructor|done].
  - destruct (get_spec q Hinv) as (m & q1 & Hget & Hperm & Hinv1 & Hmin).
    { intros Hnil. rewrite Hnil in Hlen. discriminate. }
    destruct (IH q1 Hinv1) as (L & q' & Hrun & HpermL & Hsorted & Hempty).
    { apply Permutation_length in Hperm. simpl in Hperm. lia. }
    exists (m :: L), q'. simpl. rewrite Hget, Hrun.
    split; [done|]. split; [by rewrite Hperm, HpermL|]. split; [|done].
    constructor; [done|]. apply Forall_forall. intros e He.
    apply Hmin. by rewrite <- HpermL.
Qed.


Lemma queue_inv_init max_size : queue_inv (init max_size : queue).
Proof.
  split; [|split]; simpl.
  - intros i a b _ Ha. by rewrite lookup_nil in Ha.
  - constructor.
  - intros e He. by apply elem_of_nil in He.
Qed.

Lemma length_arrivals c (puts : list (T * Priority)) :
  length (arrivals c puts) = length puts.
Proof.
  revert c. induction puts as [|[x p] rest IH]; intros c; simpl; [done|].
  by rewrite IH.
Qed.

(** Draining a queue filled from empty: every [get] returns, and the items
    come out along a list of the entries made by the puts that is ordered
    by [dequeued_before]. *)
Lemma put_all_get_all max_size (puts : list (T * Priority)) (q : queue) :
  put_all item_eq item_lt puts (init max_size) = Some q ->
  exists L q',
    get_all item_eq item_lt (length puts) q = Some (item_of <$> L, q')
    /\ L ≡ₚ arrivals 0 puts
    /\ StronglySorted dequeued_before L
    /\ is_empty q' = true.
Proof.
  intros Hputs.
  destruct (put_all_spec puts _ _ (queue_inv_init max_size) Hputs)
    as (Hinv & Hperm).
  simpl in Hperm. rewrite app_nil_r in Hperm.
  destruct (get_all_spec (length puts) q Hinv) as (L & q' & Hrun & HpL & Hs & He).
  { apply Permutation_length in Hperm. by rewrite Hperm, length_arrivals. }
  exists L, q'. split; [done|]. split; [by rewrite HpL|]. split; [done|].
  unfold is_empty. by rewrite He.
Qed.

(** *** One priority class after the other *)

Lemma by_class_arrivals_perm c (puts : list (T * Priority)) :
  by_class (arrivals c puts) ≡ₚ arrivals c puts.
Proof.
  revert c. induction puts as [|[x p] rest IH]; intros c; [done|].
  unfold by_class in *. simpl. specialize (IH (c + 1)).
  destruct p; unfold in_class at 1 3 5; simpl.
  - by constructor.
  - rewrite <- Permutation_middle. by constructor.
  - rewrite app_assoc, <- Permutation_middle, <- app_assoc. by constructor.
Qed.

Lemma arrivals_seq c (puts : list (T * Priority)) e :
  e ∈ arrivals c puts -> c <= e.1.2.
Proof.
  revert c. induction puts as [|[x p] rest IH]; intros c He; simpl in He.
  - by apply elem_of_nil in He.
  - apply elem_of_cons in He as [->|He]; simpl; [lia|].
    apply IH in He. lia.
Qed.

Lemma arrivals_sorted c (puts : list (T * Priority)) :
  StronglySorted (fun a b : entry => a.1.2 < b.1.2) (arrivals c puts).
Proof.
  revert c. induction puts as [|[x p] rest IH]; intros c; simpl; constructor.
  - apply IH.
  - apply Forall_forall. intros e He. apply arrivals_seq in He. simpl. lia.
Qed.

Lemma filter_sorted (R : relation entry) f (l : list entry) :
  StronglySorted R l -> StronglySorted R (List.filter f l).
Proof.
  induction 1 as [|a l Hs IH Hall]; simpl; [constructor|].
  destruct (f a); [|done]. constructor; [done|].
  apply Forall_forall. intros e He.
  apply list_elem_of_In, filter_In in He as [He _].
  rewrite Forall_forall in Hall. apply Hall. by apply list_elem_of_In.
Qed.

Lemma class_sorted p (A : list entry) :
  StronglySorted (fun a b : entry => a.1.2 < b.1.2) A ->
  StronglySorted dequeued_before (List.filter (in_class p) A).
Proof.
  induction 1 as [|a l Hs IH Hall]; simpl; [constructor|].
  destruct (in_class p a) eqn:Ha; [|done]. constructor; [done|].
  apply Forall_forall. intros e He.
  apply list_elem_of_In, filter_In in He as [He Hc].
  rewrite Forall_forall in Hall. apply list_elem_of_In, Hall in He.
  unfold in_class in *. right. split; [|done].
  apply Z.eqb_eq in Ha, Hc. congruence.
Qed.

Lemma in_class_elem p (A : list entry) e :
  e ∈ List.filter (in_class p) A -> e.1.1 = int p.
Proof.
  intros He. apply list_elem_of_In, filter_In in He as [_ He].
  by apply Z.eqb_eq in He.
Qed.

Lemma by_class_sorted (A : list entry) :
  StronglySorted (fun a b : entry => a.1.2 < b.1.2) A ->
  StronglySorted dequeued_before (by_class A).
Proof.
  intros Hs. unfold by_class.
  apply StronglySorted_app_2; [|by apply class_sorted|].
  - intros a b Ha Hb. left. apply in_class_elem in Ha. rewrite Ha.
    apply elem_of_app in Hb as [Hb|Hb]; apply in_class_elem in Hb;
      rewrite Hb; simpl; lia.
  - apply StronglySorted_app_2; [|by apply class_sorted..].
    intros a b Ha Hb. left. apply in_class_elem in Ha, Hb.
    rewrite Ha, Hb. simpl. lia.
Qed.

Lemma class_items p c (puts : list (T * Priority)) :
  item_of <$> List.filter (in_class p) (arrivals c puts) = put_with p puts.
Proof.
  revert c. induction puts as [|[x p'] rest IH]; intros c; simpl; [done|].
  unfold in_class at 1. simpl. destruct (int p' =? int p); simpl;
    by rewrite IH.
Qed.

(** A list of the entries of the puts that is ordered by
    [dequeued_before] holds the items class by class: those put with HIGH
    in the order they were put, then those put with MEDIUM, then those put
    with LOW. *)
Lemma sorted_arrivals_by_class (puts : list (T * Priority)) (L : list entry) :
  L ≡ₚ arrivals 0 puts -> StronglySorted dequeued_before L ->
  item_of <$> L
  = put_with HIGH puts ++ put_with MEDIUM puts ++ put_with LOW puts.
Proof.
  intros Hperm Hsorted.
  assert (L = by_class (arrivals 0 puts)) as ->.
  { apply (StronglySorted_unique_strong dequeued_before); auto.
    - intros a b _ _ Hab Hba. exfalso.
      unfold dequeued_before in *. lia.
    - apply by_class_sorted, arrivals_sorted.
    - by rewrite by_class_arrivals_perm. }
  unfold by_class. rewrite !fmap_app. by rewrite !class_items.
Qed.

(** C1: after any sequence of successful puts into a new queue, as many
    gets as there were puts all return, and the items they return follow a
    list of the entries [(priority, arrival number, item)] of the puts
    that is sorted by priority ascending and, within one priority, by
    arrival number: the items put with HIGH in their put order, then
    those put with MEDIUM, then those put with LOW. *)
Theorem gets_follow_priority_then_put_order
    max_size (puts : list (T * Priority)) (q : queue) :
  put_all item_eq item_lt puts (init max_size) = Some q ->
  exists L q',
    get_all item_eq item_lt (length puts) q = Some (item_of <$> L, q')
    /\ L ≡ₚ arrivals 0 puts
    /\ StronglySorted dequeued_before L
    /\ item_of <$> L
       = put_with HIGH puts ++ put_with MEDIUM puts ++ put_with LOW puts
    /\ is_empty q' = true.
Proof.
  intros Hputs.
  destruct (put_all_get_all max_size puts q Hputs)
    as (L & q' & Hrun & Hperm & Hsorted & Hempty).
  exists L, q'. repeat split; auto.
  by apply sorted_arrivals_by_class.
Qed.

(** C2: on a queue whose size has reached [max_size], [put] raises
    [QueueFullError] and leaves the queue as it was: same heap, same
    counter, same size. *)
Theorem put_on_full_queue_changes_nothing (q : queue) x p :
  _max_size q <= size q ->
  put item_eq item_lt x p q = (Raised QueueFullError, q)
  /\ _heap (snd (put item_eq item_lt x p q)) = _heap q
  /\ _counter (snd (put item_eq item_lt x p q)) = _counter q
  /\ size (snd (put item_eq item_lt x p q)) = size q.
Proof.
  intros Hfull.
  assert (put item_eq item_lt x p q = (Raised QueueFullError, q)) as ->.
  { unfold put, bind, get_state, raise, size in *.
    destruct (Z.geb_spec (Z.of_nat (length (_heap q))) (_max_size q)) as [_|Hlt].
    - reflexivity.
    - lia. }
  repeat split.
Qed.

End QueueProofs.

Section QueueRuns.

Import request priority_queue.

Lemma gets_follow_priority_then_put_order_witness :
  exists q,
    put_all String.eqb unordered puts0 (init 10) = Some q
    /\ exists L q',
         get_all String.eqb unordered (length puts0) q
         = Some (item_of <$> L, q')
         /\ L ≡ₚ arrivals 0 puts0
         /\ StronglySorted dequeued_before L
         /\ item_of <$> L
            = put_with HIGH puts0 ++ put_with MEDIUM puts0
              ++ put_with LOW puts0
         /\ is_empty q' = true.
Proof.
  eexists. split; [vm_compute; reflexivity|].
  apply (gets_follow_priority_then_put_order String.eqb unordered 10 puts0).
  vm_compute. reflexivity.
Defined.

Lemma put_on_full_queue_changes_nothing_witness :
  put String.eqb unordered "c"%string HIGH
    {| _max_size := 2;
       _heap := [(1, 0, "a"%string); (1, 1, "b"%string)];
       _counter := 2 |}
  = (Raised QueueFullError,
     {| _max_size := 2;
        _heap := [(1, 0, "a"%string); (1, 1, "b"%string)];
        _counter := 2 |}).
Proof.
  apply (put_on_full_queue_changes_nothing String.eqb unordered
           {| _max_size := 2;
              _heap := [(1, 0, "a"%string); (1, 1, "b"%string)];
              _counter := 2 |}).
  vm_compute. discriminate.
Defined.

End QueueRuns.

(** ** The slot pool *)

Section PoolProofs.

Import gpu gpu_manager.

Implicit Types (d : list (Z * GPUSlot)) (m : GPUManager).

Lemma elem_of_range n k : k ∈ range n <-> 0 <= k < n.
Proof.
  unfold range. rewrite list_elem_of_fmap. split.
  - intros (i & -> & Hi). apply elem_of_seq in Hi. lia.
  - intros Hk. exists (Z.to_nat k). split; [lia|]. apply elem_of_seq. lia.
Qed.

Lemma length_range n : Z.of_nat (length (range n)) = Z.max 0 n.
Proof. unfold range. rewrite length_fmap, length_seq. lia. Qed.

Lemma dict_get_None k d : dict_get k d = None <-> k ∉ d.*1.
Proof.
  induction d as [|[k' v] d IH]; simpl.
  - split; [intros _ H; by apply elem_of_nil in H|done].
  - destruct (Z.eqb_spec k' k) as [->|Hne].
    + split; [done|]. intros H. exfalso. apply H. apply list_elem_of_here.
    + rewrite IH. rewrite not_elem_of_cons. split; [intros ?; split; [congruence|done]|by intros [_ ?]].
Qed.

Lemma dict_get_Some k d v : dict_get k d = Some v -> (k, v) ∈ d.
Proof.
  induction d as [|[k' v'] d IH]; simpl; [done|].
  destruct (Z.eqb_spec k' k) as [->|Hne].
  - intros [= ->]. apply list_elem_of_here.
  - intros H. apply list_elem_of_further. auto.
Qed.

Lemma dict_set_state_keys k st d : (dict_set_state k st d).*1 = d.*1.
Proof.
  induction d as [|[k' v] d IH]; csimpl; [done|].
  destruct (k' =? k); csimpl; [done|]. by rewrite IH.
Qed.

Lemma dict_set_state_ids k st d :
  Forall (fun kv : Z * GPUSlot => gpu_id kv.2 = kv.1) d ->
  Forall (fun kv : Z * GPUSlot => gpu_id kv.2 = kv.1) (dict_set_state k st d).
Proof.
  induction 1 as [|[k' v] d Hkv Hd IH]; simpl; [constructor|].
  destruct (k' =? k); constructor; auto.
Qed.

Lemma dict_set_state_same k st d v :
  dict_get k d = Some v -> state v = st -> dict_set_state k st d = d.
Proof.
  induction d as [|[k' v'] d IH]; simpl; [done|].
  destruct (k' =? k).
  - intros [= ->] <-. by destruct v.
  - intros Hg Hst. by rewrite IH.
Qed.

Lemma dict_get_set_state k st d j :
  dict_get j (dict_set_state k st d) =
  if j =? k then
    match dict_get k d with
    | Some v => Some {| gpu_id := gpu_id v; state := st |}
    | None => None
    end
  else dict_get j d.
Proof.
  induction d as [|[k' v] d IH]; simpl.
  - by destruct (j =? k).
  - destruct (Z.eqb_spec k' k) as [->|Hne]; simpl.
    + destruct (Z.eqb_spec k j) as [->|Hne'].
      * by rewrite Z.eqb_refl.
      * destruct (Z.eqb_spec j k); [lia|done].
    + destruct (Z.eqb_spec k' j) as [->|Hne'].
      * destruct (Z.eqb_spec j k); [lia|done].
      * apply IH.
Qed.

Lemma first_available_keys d gpu d' :
  first_available d = Some (gpu, d') -> d'.*1 = d.*1.
Proof.
  revert gpu d'. induction d as [|[k v] d IH]; intros gpu d'; simpl; [done|].
  destruct (GPUState_eqb (state v) AVAILABLE).
  - by intros [= <- <-].
  - destruct (first_available d) as [[g d'']|]; [|done].
    intros [= <- <-]. csimpl. by rewrite (IH g d'').
Qed.

Lemma first_available_ids d gpu d' :
  first_available d = Some (gpu, d') ->
  Forall (fun kv : Z * GPUSlot => gpu_id kv.2 = kv.1) d ->
  Forall (fun kv : Z * GPUSlot => gpu_id kv.2 = kv.1) d'.
Proof.
  revert gpu d'. induction d as [|[k v] d IH]; intros gpu d'; simpl; [done|].
  intros Hf Hall. apply Forall_cons in Hall as [Hkv Hall].
  destruct (GPUState_eqb (state v) AVAILABLE).
  - injection Hf as <- <-. by constructor.
  - destruct (first_available d) as [[g d'']|]; [|done].
    injection Hf as <- <-. constructor; eauto.
Qed.

Lemma run_call_wf N c m : pool_wf N m -> pool_wf N (run_call c m).
Proof.
  intros [Hk Hid]. destruct c as [|k]; simpl.
  - unfold acquire_gpu.
    destruct (first_available (_gpus m)) as [[g d]|] eqn:Hf; simpl; [|done].
    split; simpl.
    + by rewrite (first_available_keys _ _ _ Hf).
    + by eapply first_available_ids.
  - unfold release_gpu. destruct (dict_contains k (_gpus m)); simpl; [|done].
    split; simpl.
    + by rewrite dict_set_state_keys.
    + by apply dict_set_state_ids.
Qed.

Lemma init_wf N : pool_wf N (init N).
Proof.
  unfold init, pool_wf. simpl. split.
  - rewrite <- list_fmap_compose. apply list_fmap_id.
  - apply Forall_fmap, Forall_forall. done.
Qed.

Lemma run_calls_wf N cs : forall m, pool_wf N m -> pool_wf N (run_calls cs m).
Proof.
  unfold run_calls. induction cs as [|c cs IH]; intros m Hwf; simpl; [done|].
  apply IH. by apply run_call_wf.
Qed.

Lemma reachable_wf N cs : pool_wf N (run_calls cs (init N)).
Proof. apply run_calls_wf, init_wf. Qed.

(** Counting *)

Lemma count_state_acc st (gpus : list GPUSlot) acc :
  fold_left (fun acc gpu => if GPUState_eqb (state gpu) st then acc + 1 else acc)
    gpus acc
  = acc + count_state st gpus.
Proof.
  unfold count_state. revert acc.
  induction gpus as [|g gpus IH]; intros acc; simpl; [lia|].
  rewrite IH. rewrite (IH (if GPUState_eqb (state g) st then 0 + 1 else 0)).
  destruct (GPUState_eqb (state g) st); lia.
Qed.

Lemma count_state_cons st g (gpus : list GPUSlot) :
  count_state st (g :: gpus)
  = (if GPUState_eqb (state g) st then 1 else 0) + count_state st gpus.
Proof.
  unfold count_state at 1. simpl. rewrite count_state_acc.
  by destruct (GPUState_eqb (state g) st).
Qed.

Lemma counts_total (gpus : list GPUSlot) :
  count_state AVAILABLE gpus + count_state BUSY gpus = Z.of_nat (length gpus).
Proof.
  induction gpus as [|g gpus IH]; [done|].
  rewrite !count_state_cons. simpl length.
  destruct (state g); simpl; lia.
Qed.

Lemma pool_counts N m :
  pool_wf N m -> available_count m + busy_count m = Z.max 0 N.
Proof.
  intros [Hk _]. unfold available_count, busy_count, values.
  rewrite counts_total. rewrite <- length_range, <- Hk.
  by rewrite !length_fmap.
Qed.


Lemma NoDup_range n : NoDup (range n).
Proof.
  unfold range. apply NoDup_fmap_2; [|apply NoDup_seq].
  intros a b Hab. lia.
Qed.

Lemma dict_get_lookup d i k v :
  NoDup d.*1 -> d !! i = Some (k, v) -> dict_get k d = Some v.
Proof.
  revert i. induction d as [|[k' v'] d IH]; intros i Hnd Hi; [done|].
  rewrite fmap_cons in Hnd. apply NoDup_cons in Hnd as [Hnotin Hnd].
  destruct i as [|i]; simpl in *.
  - injection Hi as -> ->. by rewrite Z.eqb_refl.
  - destruct (Z.eqb_spec k' k) as [->|Hne]; [|eauto].
    exfalso. apply Hnotin. apply list_elem_of_fmap. exists (k, v).
    split; [done|]. by eapply list_elem_of_lookup_2.
Qed.

Lemma count_state_pos st (gpus : list GPUSlot) :
  0 < count_state st gpus -> exists v, v ∈ gpus /\ state v = st.
Proof.
  induction gpus as [|g gpus IH]; [unfold count_state; simpl; lia|].
  rewrite count_state_cons. destruct (state g) eqn:Hg, st; simpl; intros H.
  - exists g. split; [apply list_elem_of_here|done].
  - destruct IH as (v & Hv & Hst); [lia|].
    exists v. split; [by apply list_elem_of_further|done].
  - destruct IH as (v & Hv & Hst); [lia|].
    exists v. split; [by apply list_elem_of_further|done].
  - exists g. split; [apply list_elem_of_here|done].
Qed.

Lemma first_available_Some d :
  (exists v, v ∈ values d /\ state v = AVAILABLE) ->
  exists gpu d', first_available d = Some (gpu, d').
Proof.
  induction d as [|[k v] d IH]; intros (a & Ha & Hst); simpl.
  - by apply elem_of_nil in Ha.
  - destruct (state v) eqn:Hv; simpl; [eauto|].
    unfold values in Ha. rewrite fmap_cons in Ha.
    apply elem_of_cons in Ha as [->|Ha]; [simpl in Hst; congruence|].
    destruct IH as (g & d' & ->); eauto.
Qed.

Lemma first_available_inv d gpu d' :
  first_available d = Some (gpu, d') ->
  exists i k old,
    d !! i = Some (k, old) /\ state old = AVAILABLE
    /\ gpu = {| gpu_id := gpu_id old; state := BUSY |}
    /\ d' = <[i := (k, gpu)]> d
    /\ (forall j kv, (j < i)%nat -> d !! j = Some kv -> state kv.2 = BUSY).
Proof.
  revert gpu d'. induction d as [|[k v] d IH]; intros gpu d'; simpl; [done|].
  destruct (state v) eqn:Hv; simpl.
  - intros [= <- <-]. exists 0%nat, k, v. repeat split; auto. intros; lia.
  - destruct (first_available d) as [[g d'']|]; [|done].
    intros [= <- <-].
    destruct (IH g d'' eq_refl) as (i & k' & old & Hi & Hst & -> & -> & Hbefore).
    exists (S i), k', old. repeat split; auto.
    intros [|j] kv Hj Hkv; simpl in Hkv.
    + by injection Hkv as <-.
    + apply (Hbefore j); [lia|done].
Qed.

Lemma dict_get_insert d i k v v' j :
  NoDup d.*1 -> d !! i = Some (k, v) ->
  dict_get j (<[i := (k, v')]> d) = if j =? k then Some v' else dict_get j d.
Proof.
  revert i. induction d as [|[k0 v0] d IH]; intros i Hnd Hi; [done|].
  rewrite fmap_cons in Hnd. apply NoDup_cons in Hnd as [Hnotin Hnd].
  destruct i as [|i]; simpl in *.
  - injection Hi as -> ->. rewrite (Z.eqb_sym j k). by destruct (k =? j).
  - assert (k0 <> k) as Hne.
    { intros ->. apply Hnotin. apply list_elem_of_fmap. exists (k, v).
      split; [done|]. by eapply list_elem_of_lookup_2. }
    destruct (Z.eqb_spec k0 j) as [->|Hne'].
    + destruct (Z.eqb_spec j k); [lia|done].
    + eauto.
Qed.


(** C3: in every state that a pool made with [N] slots reaches by calls of
    [acquire_gpu] and [release_gpu], the new pool included,
    [available_count() + busy_count()] is [N], and the slot ids are still
    those of [range(N)]. *)
Theorem slot_counts_add_up (N : Z) (calls : list call) :
  0 <= N ->
  available_count (run_calls calls (init N))
    + busy_count (run_calls calls (init N)) = N
  /\ (_gpus (run_calls calls (init N))).*1 = range N.
Proof.
  intros HN. pose proof (reachable_wf N calls) as Hwf. split.
  - rewrite (pool_counts N) by done. lia.
  - apply Hwf.
Qed.

Lemma slot_counts_add_up_witness :
  0 <= 3
  /\ available_count (run_calls [Acquire; Acquire; Release 0; Release 7; Acquire] (init 3))
      + busy_count (run_calls [Acquire; Acquire; Release 0; Release 7; Acquire] (init 3)) = 3.
Proof.
  split; [lia|].
  apply (slot_counts_add_up 3 [Acquire; Acquire; Release 0; Release 7; Acquire]).
  lia.
Defined.

(** C4: in every reachable pool state with a slot AVAILABLE,
    [acquire_gpu] returns; the slot it returns was AVAILABLE in the state
    it was called in, it is BUSY in the returned object and in the new
    state, and no other slot has changed. *)
Theorem acquire_takes_available_slot (N : Z) (calls : list call) :
  0 < available_count (run_calls calls (init N)) ->
  exists gpu m',
    acquire_gpu (run_calls calls (init N)) = (Returned gpu, m')
    /\ get_gpu_state (gpu_id gpu) (run_calls calls (init N))
        = (Returned AVAILABLE, run_calls calls (init N))
    /\ state gpu = BUSY
    /\ get_gpu_state (gpu_id gpu) m' = (Returned BUSY, m')
    /\ (forall k, k <> gpu_id gpu ->
          fst (get_gpu_state k m')
          = fst (get_gpu_state k (run_calls calls (init N)))).
Proof.
  pose proof (reachable_wf N calls) as [Hkeys Hids].
  set (m := run_calls calls (init N)) in *. intros Havail.
  assert (NoDup (_gpus m).*1) as Hnd by (rewrite Hkeys; apply NoDup_range).
  destruct (first_available_Some (_gpus m)) as (gpu & d' & Hf).
  { by apply count_state_pos. }
  destruct (first_available_inv _ _ _ Hf)
    as (i & k & old & Hi & Hst & Hgpu & -> & _).
  assert (gpu_id old = k) as Hk.
  { rewrite Forall_forall in Hids.
    apply (Hids (k, old)). by eapply list_elem_of_lookup_2. }
  exists gpu, {| _gpus := <[i := (k, gpu)]> (_gpus m) |}.
  unfold acquire_gpu, get_gpu_state. rewrite Hf. simpl.
  rewrite Hgpu. simpl. rewrite Hk.
  rewrite (dict_get_lookup _ i k old Hnd Hi), Hst.
  split; [reflexivity|]. split; [reflexivity|]. split; [reflexivity|].
  split.
  - rewrite (dict_get_insert _ i k old _ k Hnd Hi). by rewrite Z.eqb_refl.
  - intros j Hj. rewrite (dict_get_insert _ i k old _ j Hnd Hi).
    destruct (Z.eqb_spec j k); [done|]. unfold get_gpu_state.
    by destruct (dict_get j (_gpus m)).
Qed.

Lemma acquire_takes_available_slot_witness :
  exists gpu m',
    acquire_gpu (run_calls [Acquire] (init 2)) = (Returned gpu, m')
    /\ get_gpu_state (gpu_id gpu) (run_calls [Acquire] (init 2))
        = (Returned AVAILABLE, run_calls [Acquire] (init 2))
    /\ state gpu = BUSY
    /\ get_gpu_state (gpu_id gpu) m' = (Returned BUSY, m')
    /\ (forall k, k <> gpu_id gpu ->
          fst (get_gpu_state k m')
          = fst (get_gpu_state k (run_calls [Acquire] (init 2)))).
Proof.
  apply (acquire_takes_available_slot 2 [Acquire]). vm_compute. reflexivity.
Defined.

(** C5: in every reachable pool state, [release_gpu] with an id outside
    [0..N-1], or with the id of a slot that is AVAILABLE, returns without
    error and leaves the pool as it was. *)
Theorem release_unknown_or_available_is_noop (N : Z) (calls : list call) (k : Z) :
  k < 0 \/ N <= k
  \/ get_gpu_state k (run_calls calls (init N))
     = (Returned AVAILABLE, run_calls calls (init N)) ->
  release_gpu k (run_calls calls (init N))
  = (Returned tt, run_calls calls (init N)).
Proof.
  pose proof (reachable_wf N calls) as [Hkeys Hids].
  set (m := run_calls calls (init N)) in *. intros H.
  unfold release_gpu, dict_contains.
  destruct (dict_get k (_gpus m)) as [v|] eqn:Hv; [|done].
  assert (state v = AVAILABLE) as Hst.
  { destruct H as [H|[H|H]].
    - assert (k ∉ (_gpus m).*1) as Hn by (rewrite Hkeys, elem_of_range; lia).
      apply dict_get_None in Hn. congruence.
    - assert (k ∉ (_gpus m).*1) as Hn by (rewrite Hkeys, elem_of_range; lia).
      apply dict_get_None in Hn. congruence.
    - unfold get_gpu_state in H. rewrite Hv in H. by injection H. }
  rewrite (dict_set_state_same k AVAILABLE (_gpus m) v Hv Hst).
  by destruct m.
Qed.

Lemma release_unknown_or_available_is_noop_witness :
  release_gpu 7 (run_calls [Acquire] (init 2))
  = (Returned tt, run_calls [Acquire] (init 2))
  /\ release_gpu 1 (run_calls [Acquire] (init 2))
     = (Returned tt, run_calls [Acquire] (init 2)).
Proof.
  split.
  - apply (release_unknown_or_available_is_noop 2 [Acquire] 7). lia.
  - apply (release_unknown_or_available_is_noop 2 [Acquire] 1).
    right. right. vm_compute. reflexivity.
Defined.

(** C10: in every reachable pool state, [get_gpu_state] returns the state
    of the slot stored under an id in [0..N-1], and raises [KeyError] for
    any other id, for which [release_gpu] returns without a change. *)
Theorem get_gpu_state_known_or_KeyError (N : Z) (calls : list call) (k : Z) :
  (0 <= k < N ->
   exists slot,
     (k, slot) ∈ _gpus (run_calls calls (init N)) /\ gpu_id slot = k
     /\ get_gpu_state k (run_calls calls (init N))
        = (Returned (state slot), run_calls calls (init N)))
  /\ (k < 0 \/ N <= k ->
      get_gpu_state k (run_calls calls (init N))
      = (Raised KeyError, run_calls calls (init N))
      /\ release_gpu k (run_calls calls (init N))
         = (Returned tt, run_calls calls (init N))).
Proof.
  pose proof (reachable_wf N calls) as [Hkeys Hids].
  set (m := run_calls calls (init N)) in *. split.
  - intros Hk. unfold get_gpu_state.
    destruct (dict_get k (_gpus m)) as [v|] eqn:Hv.
    + exists v. apply dict_get_Some in Hv as Hin. split; [done|].
      split; [|done]. rewrite Forall_forall in Hids. apply (Hids _ Hin).
    + apply dict_get_None in Hv. exfalso. apply Hv.
      rewrite Hkeys. by apply elem_of_range.
  - intros Hk.
    assert (dict_get k (_gpus m) = None) as Hv.
    { apply dict_get_None. rewrite Hkeys, elem_of_range. lia. }
    unfold get_gpu_state, release_gpu, dict_contains. by rewrite Hv.
Qed.

Lemma get_gpu_state_known_or_KeyError_witness :
  (exists slot,
     (0, slot) ∈ _gpus (run_calls [Acquire] (init 2)) /\ gpu_id slot = 0
     /\ get_gpu_state 0 (run_calls [Acquire] (init 2))
        = (Returned (state slot), run_calls [Acquire] (init 2)))
  /\ get_gpu_state 2 (run_calls [Acquire] (init 2))
     = (Raised KeyError, run_calls [Acquire] (init 2)).
Proof.
  split.
  - apply (get_gpu_state_known_or_KeyError 2 [Acquire] 0). lia.
  - apply (get_gpu_state_known_or_KeyError 2 [Acquire] 2). lia.
Defined.

End PoolProofs.

(** ** The worker *)

(** The ways through the [try] block of [execute]. *)
Ltac execute_cases self w :=
  destruct (inference_worker._min_ms self <=? inference_worker._max_ms self);
  [destruct (Z.abs (inference_worker.drawn w)
             <? 1000 * inference_worker.float_limit);
   [destruct (inference_worker.thrown w)|]|].

Section WorkerProofs.

Import request gpu gpu_manager inference_worker.

Context {F : Type}.
Variable fsub fmul : F -> F -> F.
Variable f1000 : F.

Lemma acquire_gpu_wf N m gpu m1 :
  pool_wf N m -> acquire_gpu m = (Returned gpu, m1) ->
  pool_wf N m1 /\ 0 <= gpu_id gpu < N.
Proof.
  intros Hwf Hacq. split.
  - change m1 with (snd (Returned gpu, m1)). rewrite <- Hacq.
    apply (run_call_wf N Acquire m Hwf).
  - destruct Hwf as [Hkeys Hids]. unfold acquire_gpu in Hacq.
    destruct (first_available (_gpus m)) as [[g d]|] eqn:Hf; [|done].
    injection Hacq as -> <-.
    destruct (first_available_inv _ _ _ Hf) as (i & k & old & Hi & _ & -> & _).
    simpl. apply list_elem_of_lookup_2 in Hi.
    rewrite Forall_forall in Hids. pose proof (Hids _ Hi) as Hk. simpl in Hk.
    rewrite Hk. apply elem_of_range. rewrite <- Hkeys.
    apply list_elem_of_fmap. by exists (k, old).
Qed.

Lemma release_gpu_available N m k :
  pool_wf N m -> 0 <= k < N ->
  get_gpu_state k (snd (release_gpu k m))
  = (Returned AVAILABLE, snd (release_gpu k m)).
Proof.
  intros [Hkeys _] Hk. unfold release_gpu, dict_contains.
  destruct (dict_get k (_gpus m)) as [v|] eqn:Hv.
  - simpl. unfold get_gpu_state. simpl.
    by rewrite dict_get_set_state, Z.eqb_refl, Hv.
  - apply dict_get_None in Hv. exfalso. apply Hv.
    rewrite Hkeys. by apply elem_of_range.
Qed.

(** What the [try] block does: it raises [ValueError] before sleeping
    when the delay range is empty, and [OverflowError] when the delay is
    too large for a float; otherwise the other tasks run during the sleep,
    and the block raises what is thrown into the sleep or returns the
    response. *)
Lemma execute_body_run (self : InferenceWorker) (w : world)
    (request : InferenceRequest) (gpu : GPUSlot) (m1 : GPUManager) :
  execute_body fsub fmul f1000 self w request gpu m1 =
  if _min_ms self <=? _max_ms self then
    if Z.abs (drawn w) <? 1000 * float_limit then
      match thrown w with
      | Some e => (Raised e, run_calls (meanwhile w) m1)
      | None =>
          (Returned
             {| r_request_id := or_else (request_id request) (uuid4 w);
                r_model_id := model_id request;
                output := "Mock output for: " ++ slice_to 50 (prompt request);
                r_gpu_id := gpu_id gpu;
                inference_time_ms :=
                  fmul (fsub (perf_counter_2 w) (perf_counter_1 w)) f1000 |},
           run_calls (meanwhile w) m1)
      end
    else (Raised OverflowError, m1)
  else (Raised ValueError, m1).
Proof.
  unfold execute_body, randint, truediv_1000, sleep, bind, modify, ret, raise.
  destruct (_min_ms self <=? _max_ms self); [|done].
  destruct (Z.abs (drawn w) <? 1000 * float_limit); [|done].
  by destruct (thrown w).
Qed.

Lemma execute_body_wf N self w request gpu m1 :
  pool_wf N m1 ->
  pool_wf N (snd (execute_body fsub fmul f1000 self w request gpu m1)).
Proof.
  intros Hwf. rewrite execute_body_run.
  destruct (_min_ms self <=? _max_ms self); [|done].
  destruct (Z.abs (drawn w) <? 1000 * float_limit); [|done].
  destruct (thrown w); simpl; by apply run_calls_wf.
Qed.

Lemma execute_run (self : InferenceWorker) (w : world)
    (request : InferenceRequest) (m : GPUManager) gpu m1 :
  acquire_gpu m = (Returned gpu, m1) ->
  execute fsub fmul f1000 self w request m
  = (fst (execute_body fsub fmul f1000 self w request gpu m1),
     snd (release_gpu (gpu_id gpu)
            (snd (execute_body fsub fmul f1000 self w request gpu m1)))).
Proof.
  intros Hacq. unfold execute, bind. rewrite Hacq. unfold try_finally.
  rewrite execute_body_run.
  execute_cases self w; simpl;
    unfold release_gpu;
    match goal with
    | |- context [dict_contains ?k ?d] => destruct (dict_contains k d)
    end; reflexivity.
Qed.

Lemma execute_Suspended (self : InferenceWorker) (w : world)
    (request : InferenceRequest) (m : GPUManager) :
  acquire_gpu m = (Suspended, m) ->
  execute fsub fmul f1000 self w request m = (Suspended, m).
Proof. intros Hacq. unfold execute, bind. by rewrite Hacq. Qed.

End WorkerProofs.

Section WorkerRuns.

Import request gpu gpu_manager inference_worker.

(** C6: once [execute] has acquired a slot, its [try] block either
    returns a response or raises; in both cases [release_gpu] is called
    with the id of the acquired slot on the state the block left, that
    slot is AVAILABLE in the state [execute] leaves, and [execute] ends
    the way the block ended: it returns its response or raises its
    exception. *)
Theorem execute_releases_on_every_path {F : Type} (fsub fmul : F -> F -> F)
    (f1000 : F) (self : InferenceWorker) (w : @world F)
    (request : InferenceRequest) (N : Z) (calls : list call)
    (gpu : GPUSlot) (m1 : GPUManager) :
  acquire_gpu (run_calls calls (init N)) = (Returned gpu, m1) ->
  exists o m2 m3,
    execute_body fsub fmul f1000 self w request gpu m1 = (o, m2)
    /\ ((exists response, o = Returned response) \/ (exists e, o = Raised e))
    /\ release_gpu (gpu_id gpu) m2 = (Returned tt, m3)
    /\ execute fsub fmul f1000 self w request (run_calls calls (init N))
       = (o, m3)
    /\ get_gpu_state (gpu_id gpu) m3 = (Returned AVAILABLE, m3).
Proof.
  intros Hacq.
  destruct (acquire_gpu_wf N _ _ _ (reachable_wf N calls) Hacq) as [Hwf1 Hid].
  pose proof (execute_body_wf fsub fmul f1000 N self w request gpu m1 Hwf1) as Hwf2.
  pose proof (execute_run fsub fmul f1000 self w request _ _ _ Hacq) as Hrun.
  destruct (execute_body fsub fmul f1000 self w request gpu m1) as [o m2] eqn:Hbody.
  simpl in *.
  exists o, m2, (snd (release_gpu (gpu_id gpu) m2)).
  split; [done|]. split.
  { rewrite execute_body_run in Hbody.
    execute_cases self w;
      injection Hbody as <- _; eauto. }
  split.
  { unfold release_gpu. by destruct (dict_contains (gpu_id gpu) (_gpus m2)). }
  split; [done|].
  by apply (release_gpu_available N).
Qed.



Lemma execute_releases_on_every_path_witness :
  exists o m2 m3,
    execute_body Z.sub Z.mul 1000 {| _min_ms := 100; _max_ms := 500 |}
      (world0 (Some CancelledError)) (request0 None)
      {| gpu_id := 0; state := BUSY |}
      (snd (acquire_gpu (run_calls [] (init 2)))) = (o, m2)
    /\ ((exists response, o = Returned response) \/ (exists e, o = Raised e))
    /\ release_gpu 0 m2 = (Returned tt, m3)
    /\ execute Z.sub Z.mul 1000 {| _min_ms := 100; _max_ms := 500 |}
         (world0 (Some CancelledError)) (request0 None)
         (run_calls [] (init 2)) = (o, m3)
    /\ get_gpu_state 0 m3 = (Returned AVAILABLE, m3).
Proof.
  apply (execute_releases_on_every_path Z.sub Z.mul 1000
           {| _min_ms := 100; _max_ms := 500 |}
           (world0 (Some CancelledError)) (request0 None) 2 []
           {| gpu_id := 0; state := BUSY |}).
  vm_compute. reflexivity.
Defined.

(** C8, amended: when [execute] returns a response, its request id is the
    one the caller supplied if that one is not empty, and the string of
    [uuid4] if the caller supplied none or supplied the empty string; its
    slot id is the id of the slot that [acquire_gpu] returned, and its
    time is the difference of the two clock readings times 1000. *)
Theorem response_request_id_slot_and_time {F : Type}
    (fsub fmul : F -> F -> F) (f1000 : F)
    (self : InferenceWorker) (w : @world F) (request : InferenceRequest)
    (m m' : GPUManager) (response : InferenceResponse F) :
  execute fsub fmul f1000 self w request m = (Returned response, m') ->
  (forall s, request_id request = Some s -> s <> EmptyString ->
     r_request_id response = s)
  /\ (request_id request = None \/ request_id request = Some EmptyString ->
      r_request_id response = uuid4 w)
  /\ (exists gpu m1, acquire_gpu m = (Returned gpu, m1)
        /\ r_gpu_id response = gpu_id gpu)
  /\ inference_time_ms response
     = fmul (fsub (perf_counter_2 w) (perf_counter_1 w)) f1000.
Proof.
  intros Hrun. destruct (acquire_gpu m) as [[gpu| | |] m1] eqn:Hacq;
    try (unfold execute, bind in Hrun; rewrite Hacq in Hrun; discriminate).
  rewrite (execute_run _ _ _ _ _ _ _ _ _ Hacq) in Hrun.
  rewrite execute_body_run in Hrun.
  execute_cases self w;
    simpl in Hrun; try discriminate.
  injection Hrun as <- _. simpl. split; [|split; [|split]].
  - intros s Hs Hne. rewrite Hs. simpl.
    destruct (String.eqb_spec s EmptyString); [done|done].
  - intros [H|H]; by rewrite H.
  - eauto.
  - done.
Qed.

Lemma response_request_id_slot_and_time_witness :
  exists response m',
    execute Z.sub Z.mul 1000 {| _min_ms := 10; _max_ms := 20 |}
      (world0 None) (request0 (Some "req-123"%string)) (init 2)
    = (Returned response, m')
    /\ r_request_id response = "req-123"%string
    /\ r_gpu_id response = 0
    /\ inference_time_ms response = 4000.
Proof.
  eexists _, _. split; [vm_compute; reflexivity|].
  edestruct (response_request_id_slot_and_time Z.sub Z.mul 1000
               {| _min_ms := 10; _max_ms := 20 |} (world0 None)
               (request0 (Some "req-123"%string)) (init 2))
    as (Hid & _ & _ & Htime); [vm_compute; reflexivity|].
  split; [by apply Hid|]. split; [reflexivity|exact Htime].
Defined.

(** C8 as stated fails: a caller who supplies the empty string as its
    request id gets a response that carries the generated id. *)
Lemma supplied_empty_request_id_is_replaced :
  request_id (request0 (Some EmptyString)) = Some EmptyString
  /\ fst (execute Z.sub Z.mul 1000 {| _min_ms := 100; _max_ms := 500 |}
            (world0 None) (request0 (Some EmptyString)) (init 1))
     = Returned {| r_request_id := "0b0e7a3c-6f54-4d0c-9d57-2f1f1c9f4e11";
                   r_model_id := "test-model";
                   output := "Mock output for: Hello";
                   r_gpu_id := 0;
                   inference_time_ms := 4000 |}.
Proof. split; vm_compute; reflexivity. Qed.

End WorkerRuns.

(** ** The orchestrator *)

Section OrchestratorProofs.

Import request gpu gpu_manager inference_worker priority_queue orchestrator.

Context {F : Type}.
Variable fsub fmul : F -> F -> F.
Variable f1000 : F.
Local Abbreviation orch := (@Orchestrator F).

Lemma deref_lookup (o : orch) f fut :
  futures o !! f = Some fut -> deref o f = fut.
Proof. intros H. unfold deref. by rewrite H. Qed.

Lemma await_pending (o : orch) f :
  futures o !! f = Some PENDING -> await f o = (Suspended, o).
Proof. intros H. unfold await. by rewrite (deref_lookup _ _ _ H). Qed.

Lemma _enqueue_pending (request : InferenceRequest) (o o1 : orch) f :
  _enqueue request o = (Returned f, o1) ->
  futures o1 !! f = Some PENDING
  /\ submit request o = (Suspended, o1).
Proof.
  intros Henq. unfold submit, bind at 1. rewrite Henq.
  assert (futures o1 !! f = Some PENDING) as Hf.
  { unfold _enqueue, bind, new_future, on_queue, ret in Henq. simpl in Henq.
    match type of Henq with
    | context [put ?a ?b ?c ?d ?e] =>
        destruct (put a b c d e) as [[[]| | |] q] eqn:Hput
    end; try discriminate.
    injection Henq as <- <-. simpl. by apply list_lookup_middle. }
  split; [done|]. by apply await_pending.
Qed.

Lemma set_result_pending (o : orch) f response :
  futures o !! f = Some PENDING ->
  set_result f response o
  = (Returned tt, with_futures o (<[f := FINISHED response]> (futures o))).
Proof. intros H. unfold set_result. by rewrite (deref_lookup _ _ _ H). Qed.

Lemma set_exception_pending (o : orch) f e :
  futures o !! f = Some PENDING ->
  set_exception f e o
  = (Returned tt, with_futures o (<[f := FAILED e]> (futures o))).
Proof. intros H. unfold set_exception. by rewrite (deref_lookup _ _ _ H). Qed.

(** A future that is done stays as it is. *)
Lemma done_is_final (o : orch) f fut :
  futures o !! f = Some fut -> fut <> PENDING ->
  (forall r, set_result f r o = (Raised InvalidStateError, o))
  /\ (forall e, set_exception f e o = (Raised InvalidStateError, o))
  /\ cancel f o = (Returned false, o).
Proof.
  intros H Hne. unfold set_result, set_exception, cancel.
  rewrite (deref_lookup _ _ _ H). by destruct fut.
Qed.

Lemma on_gpu_manager_futures {A} (m : M GPUManager A) (o : orch) :
  futures (snd (on_gpu_manager m o)) = futures o.
Proof. unfold on_gpu_manager. by destruct (m (_gpu_manager o)). Qed.

Lemma on_gpu_manager_fst {A} (m : M GPUManager A) (o : orch) :
  fst (on_gpu_manager m o) = fst (m (_gpu_manager o)).
Proof. unfold on_gpu_manager. by destruct (m (_gpu_manager o)). Qed.

End OrchestratorProofs.

Section OrchestratorRuns.

Import request gpu gpu_manager inference_worker priority_queue orchestrator.

(** C7, amended: take a handle that is pending, as [submit] creates it.
    Awaiting it suspends the caller.  When the execution returns a
    response, or raises an exception of class [Exception],
    [_execute_and_resolve] returns with the handle holding that response,
    or that exception; awaiting the handle then returns that response, or
    raises that exception; and any later [set_result] or [set_exception]
    is refused with [InvalidStateError] and changes nothing.  When the
    execution raises an exception outside class [Exception], that
    exception passes through [_execute_and_resolve], the handle is still
    pending and awaiting it still suspends the caller. *)
Theorem dispatch_resolves_pending_handle_once {F : Type}
    (fsub fmul : F -> F -> F) (f1000 : F) (w : @world F)
    (request : InferenceRequest) (future : future_ref) (o : @Orchestrator F) :
  futures o !! future = Some PENDING ->
  await future o = (Suspended, o)
  /\ (forall response g,
        execute fsub fmul f1000 (_worker o) w request (_gpu_manager o)
          = (Returned response, g) ->
        exists o',
          _execute_and_resolve fsub fmul f1000 w request future o
            = (Returned tt, o')
          /\ futures o' !! future = Some (FINISHED response)
          /\ await future o' = (Returned response, o')
          /\ (forall r, set_result future r o' = (Raised InvalidStateError, o'))
          /\ (forall e, set_exception future e o'
                        = (Raised InvalidStateError, o')))
  /\ (forall e g,
        execute fsub fmul f1000 (_worker o) w request (_gpu_manager o)
          = (Raised e, g) ->
        is_Exception e = true ->
        exists o',
          _execute_and_resolve fsub fmul f1000 w request future o
            = (Returned tt, o')
          /\ futures o' !! future = Some (FAILED e)
          /\ await future o' = (Raised e, o')
          /\ (forall r, set_result future r o' = (Raised InvalidStateError, o'))
          /\ (forall e', set_exception future e' o'
                         = (Raised InvalidStateError, o')))
  /\ (forall e g,
        execute fsub fmul f1000 (_worker o) w request (_gpu_manager o)
          = (Raised e, g) ->
        is_Exception e = false ->
        exists o',
          _execute_and_resolve fsub fmul f1000 w request future o
            = (Raised e, o')
          /\ futures o' !! future = Some PENDING
          /\ await future o' = (Suspended, o')).
Proof.
  intros Hpending.
  assert (future < length (futures o))%nat as Hlen
    by (by apply lookup_lt_Some in Hpending).
  split; [by apply await_pending|]. split; [|split].
  - intros response g Hexec.
    unfold _execute_and_resolve, try_except_Exception, bind, on_gpu_manager.
    rewrite Hexec.
    rewrite set_result_pending by done.
    eexists. split; [reflexivity|].
    assert (<[future := FINISHED response]> (futures o) !! future
            = Some (FINISHED response)) as Hdone
      by (by apply list_lookup_insert_eq).
    split; [done|]. split.
    { unfold await, deref. simpl. by rewrite Hdone. }
    split; eapply done_is_final; simpl; eauto; done.
  - intros e g Hexec He.
    unfold _execute_and_resolve, try_except_Exception, bind, on_gpu_manager.
    rewrite Hexec, He.
    rewrite set_exception_pending by done.
    eexists. split; [reflexivity|].
    assert (<[future := FAILED e]> (futures o) !! future
            = Some (@FAILED F e)) as Hdone
      by (by apply list_lookup_insert_eq).
    split; [done|]. split.
    { unfold await, deref. simpl. by rewrite Hdone. }
    split; eapply done_is_final; simpl; eauto; done.
  - intros e g Hexec He.
    unfold _execute_and_resolve, try_except_Exception, bind, on_gpu_manager.
    rewrite Hexec, He.
    eexists. split; [reflexivity|]. cbn [futures].
    split; [done|]. by apply await_pending.
Qed.



Lemma dispatch_resolves_pending_handle_once_witness :
  await 0%nat orchestrator0 = (Suspended, orchestrator0)
  /\ (exists o',
        _execute_and_resolve Z.sub Z.mul 1000 (world0 None)
          (request0 (Some "req-123"%string)) 0%nat orchestrator0 = (Returned tt, o')
        /\ fst (await 0%nat o')
           = Returned {| r_request_id := "req-123";
                         r_model_id := "test-model";
                         output := "Mock output for: Hello";
                         r_gpu_id := 0;
                         inference_time_ms := 4000 |})
  /\ (exists o',
        _execute_and_resolve Z.sub Z.mul 1000
          {| perf_counter_1 := 5; perf_counter_2 := 9; drawn := 250;
             uuid4 := "0b0e7a3c"; meanwhile := []; thrown := Some ValueError |}
          (request0 (Some "req-123"%string)) 0%nat orchestrator0 = (Returned tt, o')
        /\ fst (await 0%nat o') = Raised ValueError)
  /\ (exists o',
        _execute_and_resolve Z.sub Z.mul 1000 (world0 (Some CancelledError))
          (request0 (Some "req-123"%string)) 0%nat orchestrator0
        = (Raised CancelledError, o')
        /\ await 0%nat o' = (Suspended, o')).
Proof.
  assert (futures orchestrator0 !! 0%nat = Some PENDING) as Hp
    by (vm_compute; reflexivity).
  split; [|split; [|split]].
  - apply (dispatch_resolves_pending_handle_once Z.sub Z.mul 1000 (world0 None)
             (request0 (Some "req-123"%string)) 0%nat orchestrator0 Hp).
  - destruct (dispatch_resolves_pending_handle_once Z.sub Z.mul 1000
                (world0 None) (request0 (Some "req-123"%string)) 0%nat orchestrator0 Hp)
      as (_ & Hok & _ & _).
    edestruct Hok as (o' & Hrun & _ & Haw & _); [vm_compute; reflexivity|].
    exists o'. split; [exact Hrun|]. by rewrite Haw.
  - destruct (dispatch_resolves_pending_handle_once Z.sub Z.mul 1000
                {| perf_counter_1 := 5; perf_counter_2 := 9; drawn := 250;
                   uuid4 := "0b0e7a3c"; meanwhile := [];
                   thrown := Some ValueError |}
                (request0 (Some "req-123"%string)) 0%nat orchestrator0 Hp)
      as (_ & _ & Hfail & _).
    edestruct Hfail as (o' & Hrun & _ & Haw & _);
      [vm_compute; reflexivity|reflexivity|].
    exists o'. split; [exact Hrun|]. by rewrite Haw.
  - destruct (dispatch_resolves_pending_handle_once Z.sub Z.mul 1000
                (world0 (Some CancelledError))
                (request0 (Some "req-123"%string)) 0%nat orchestrator0 Hp)
      as (_ & _ & _ & Hpass).
    edestruct Hpass as (o' & Hrun & _ & Haw);
      [vm_compute; reflexivity|reflexivity|].
    exists o'. split; [exact Hrun|exact Haw].
Defined.

(** C7 as stated fails: an execution ended by a cancellation leaves the
    handle pending, and [submit] keeps waiting. *)
Lemma cancelled_dispatch_leaves_handle_pending :
  fst (execute Z.sub Z.mul 1000 (_worker orchestrator0)
         (world0 (Some CancelledError)) (request0 (Some "req-123"%string))
         (_gpu_manager orchestrator0))
  = Raised CancelledError
  /\ fst (_execute_and_resolve Z.sub Z.mul 1000 (world0 (Some CancelledError))
            (request0 (Some "req-123"%string)) 0%nat orchestrator0)
     = Raised CancelledError
  /\ futures (snd (_execute_and_resolve Z.sub Z.mul 1000
                     (world0 (Some CancelledError))
                     (request0 (Some "req-123"%string)) 0%nat orchestrator0))
       !! 0%nat = Some PENDING
  /\ fst (await 0%nat
            (snd (_execute_and_resolve Z.sub Z.mul 1000
                    (world0 (Some CancelledError))
                    (request0 (Some "req-123"%string)) 0%nat orchestrator0)))
     = Suspended.
Proof. vm_compute. repeat split; reflexivity. Qed.

(** The other way out of C7: the caller gave up and its future was
    cancelled; the dispatch then finds the future done, both of its
    attempts to resolve it are refused, and the refusal leaves the task. *)
Lemma cancelled_handle_refuses_result :
  fst (_execute_and_resolve Z.sub Z.mul 1000 (world0 None)
         (request0 (Some "req-123"%string)) 0%nat
         (snd (cancel 0%nat orchestrator0)))
  = Raised InvalidStateError
  /\ futures (snd (_execute_and_resolve Z.sub Z.mul 1000 (world0 None)
                     (request0 (Some "req-123"%string)) 0%nat
                     (snd (cancel 0%nat orchestrator0))))
       !! 0%nat = Some CANCELLED.
Proof. vm_compute. split; reflexivity. Qed.

End OrchestratorRuns.

(** ** Priority parsing *)

Section RequestProofs.

Import request.

Lemma lower_ascii_variant c d :
  ((97 <=? N_of_ascii d) && (N_of_ascii d <=? 122))%N = true ->
  (Ascii.eqb c d || Ascii.eqb c (upper_ascii d)) = true ->
  lower_ascii c = d.
Proof.
  intros Hd Hc. apply andb_true_iff in Hd as [Hd1 Hd2].
  apply N.leb_le in Hd1, Hd2.
  apply orb_true_iff in Hc as [Hc|Hc]; apply Ascii.eqb_eq in Hc; subst c.
  - unfold lower_ascii.
    destruct (N.leb_spec 65 (N_of_ascii d)); simpl; [|done].
    destruct (N.leb_spec (N_of_ascii d) 90); [lia|done].
  - unfold upper_ascii, lower_ascii.
    destruct (N.leb_spec 97 (N_of_ascii d)); [|lia].
    destruct (N.leb_spec (N_of_ascii d) 122); [|lia]. simpl.
    rewrite N_ascii_embedding by lia.
    destruct (N.leb_spec 65 (N_of_ascii d - 32)); [|lia].
    destruct (N.leb_spec (N_of_ascii d - 32) 90); [|lia]. simpl.
    replace (N_of_ascii d - 32 + 32)%N with (N_of_ascii d) by lia.
    apply ascii_N_embedding.
Qed.

Lemma lower_case_variant word : forall s,
  lower_word word = true -> case_variant s word = true -> lower s = word.
Proof.
  induction word as [|d word IH]; intros [|c s] Hw Hs; simpl in *;
    try discriminate; [done|].
  apply andb_true_iff in Hw as [Hd Hw]. apply andb_true_iff in Hs as [Hc Hs].
  f_equal; [by apply lower_ascii_variant|by apply IH].
Qed.

(** C9: [parse_priority] maps every case variant of "high", "medium" and
    "low" to HIGH, MEDIUM and LOW, whose values are 1, 2 and 3, and a
    request made without a priority has priority MEDIUM. *)
Theorem parse_priority_case_insensitive (s : string) :
  (case_variant s "high" = true ->
   parse_priority (VStr s) = VPriority HIGH)
  /\ (case_variant s "medium" = true ->
      parse_priority (VStr s) = VPriority MEDIUM)
  /\ (case_variant s "low" = true ->
      parse_priority (VStr s) = VPriority LOW)
  /\ int HIGH = 1 /\ int MEDIUM = 2 /\ int LOW = 3
  /\ (forall coerce model_id prompt request_id,
        priority <$> make_request coerce model_id prompt None request_id
        = Some MEDIUM).
Proof.
  split; [|split; [|split]].
  - intros H. apply lower_case_variant in H; [|reflexivity].
    unfold parse_priority. by rewrite H.
  - intros H. apply lower_case_variant in H; [|reflexivity].
    unfold parse_priority. by rewrite H.
  - intros H. apply lower_case_variant in H; [|reflexivity].
    unfold parse_priority. by rewrite H.
  - done.
Qed.

Lemma parse_priority_case_insensitive_witness :
  parse_priority (VStr "HiGh") = VPriority HIGH
  /\ parse_priority (VStr "MEDIUM") = VPriority MEDIUM
  /\ parse_priority (VStr "Low") = VPriority LOW.
Proof.
  split; [|split].
  - apply (parse_priority_case_insensitive "HiGh"). reflexivity.
  - apply (parse_priority_case_insensitive "MEDIUM"). reflexivity.
  - apply (parse_priority_case_insensitive "Low"). reflexivity.
Defined.

End RequestProofs.

(** ** More on the priority queue *)

Section QueueMore.

Import request priority_queue.

Context {T : Type}.
Variable item_eq : T -> T -> bool.
Variable item_lt : T -> T -> option bool.
Local Abbreviation queue := (AsyncPriorityQueue T).

Lemma get_max_size (q : queue) :
  _max_size (snd (get item_eq item_lt q)) = _max_size q.
Proof.
  unfold get, bind, get_state, on_heap.
  destruct (length (_heap q) =? 0)%nat; [done|].
  destruct (heapq.heappop item_eq item_lt (_heap q)) as [[[[? ?] ?]| | |] h];
    done.
Qed.

Lemma put_max_size (q : queue) x p :
  _max_size (snd (put item_eq item_lt x p q)) = _max_size q.
Proof.
  unfold put, bind, get_state, set_state, on_heap, raise.
  destruct (Z.of_nat (length (_heap q)) >=? _max_size q); [done|]. simpl.
  destruct (heapq.heappush item_eq item_lt _ (_heap q)) as [[[]| | |] h]; done.
Qed.

Lemma run_queue_call_max_size c (q : queue) :
  _max_size (run_queue_call item_eq item_lt c q) = _max_size q.
Proof. destruct c; [apply put_max_size|apply get_max_size]. Qed.

Lemma run_queue_call_size c (q : queue) :
  queue_inv q -> size q <= Z.max 0 (_max_size q) ->
  size (run_queue_call item_eq item_lt c q) <= Z.max 0 (_max_size q).
Proof.
  intros Hinv Hsize. destruct c as [x p|]; simpl.
  - destruct (Z.lt_ge_cases (size q) (_max_size q)) as [Hroom|Hfull].
    + destruct (put_spec item_eq item_lt q x p Hinv Hroom)
        as (q' & -> & Hperm & _). simpl.
      unfold size in *. apply Permutation_length in Hperm.
      rewrite Hperm. simpl length. lia.
    + by rewrite put_full by lia.
  - destruct (_heap q) as [|e h] eqn:Hq.
    + unfold get, bind, get_state. by rewrite Hq.
    + destruct (get_spec item_eq item_lt q Hinv) as (m & q' & -> & Hperm & _).
      { by rewrite Hq. }
      simpl. unfold size in *. apply Permutation_length in Hperm.
      rewrite Hperm in Hsize. simpl length in Hsize. lia.
Qed.

Lemma run_queue_calls_size cs : forall (q : queue),
  queue_inv q -> size q <= Z.max 0 (_max_size q) ->
  size (run_queue_calls item_eq item_lt cs q) <= Z.max 0 (_max_size q).
Proof.
  unfold run_queue_calls.
  induction cs as [|c cs IH]; intros q Hinv Hsize; simpl; [done|].
  rewrite <- (run_queue_call_max_size c q). apply IH.
  - by apply run_queue_call_inv.
  - rewrite run_queue_call_max_size. by apply run_queue_call_size.
Qed.

(** X2: the capacity is a ceiling that no interleaving of puts and gets
    gets past, and a queue made with a capacity of zero or less stays
    empty. *)
Theorem size_never_exceeds_max_size max_size (cs : list queue_call) :
  0 <= size (run_queue_calls item_eq item_lt cs (init max_size))
  <= Z.max 0 max_size.
Proof.
  split; [unfold size; lia|].
  apply (run_queue_calls_size cs (init max_size)).
  - apply queue_inv_init.
  - unfold size. simpl. lia.
Qed.

Lemma run_queue_calls_max_size cs : forall (q : queue),
  _max_size (run_queue_calls item_eq item_lt cs q) = _max_size q.
Proof.
  unfold run_queue_calls.
  induction cs as [|c cs IH]; intros q; simpl; [done|].
  by rewrite IH, run_queue_call_max_size.
Qed.

(** X3: in a queue reached by any puts and gets, a [put] below the capacity
    returns, having grown the queue by one entry and moved the counter by
    one; nothing the items are can make it raise. *)
Theorem put_below_capacity_returns max_size (cs : list queue_call) x p :
  size (run_queue_calls item_eq item_lt cs (init max_size)) < max_size ->
  exists q',
    put item_eq item_lt x p (run_queue_calls item_eq item_lt cs (init max_size))
    = (Returned tt, q')
    /\ size q'
       = size (run_queue_calls item_eq item_lt cs (init max_size)) + 1
    /\ _counter q'
       = _counter (run_queue_calls item_eq item_lt cs (init max_size)) + 1
    /\ is_empty q' = false.
Proof.
  intros Hroom.
  pose proof (run_queue_calls_max_size cs (init max_size)) as Hmax.
  set (q := run_queue_calls item_eq item_lt cs (init max_size)) in *.
  assert (queue_inv q) as Hinv
    by (apply run_queue_calls_inv, queue_inv_init).
  destruct (put_spec item_eq item_lt q x p Hinv) as (q' & Hput & Hperm & Hc & _).
  { rewrite Hmax. simpl. lia. }
  exists q'. split; [done|]. apply Permutation_length in Hperm.
  unfold size, is_empty. rewrite Hperm. simpl length.
  split; [lia|]. split; [done|done].
Qed.

(** X4: in a queue reached by any puts and gets, [get] returns exactly when
    the queue is not empty, and then takes one entry out; on an empty
    queue the caller is suspended and the queue is left as it is. *)
Theorem get_returns_iff_not_empty max_size (cs : list queue_call) :
  (is_empty (run_queue_calls item_eq item_lt cs (init max_size)) = true ->
   get item_eq item_lt (run_queue_calls item_eq item_lt cs (init max_size))
   = (Suspended, run_queue_calls item_eq item_lt cs (init max_size)))
  /\ (is_empty (run_queue_calls item_eq item_lt cs (init max_size)) = false ->
      exists x q',
        get item_eq item_lt (run_queue_calls item_eq item_lt cs (init max_size))
        = (Returned x, q')
        /\ size q'
           = size (run_queue_calls item_eq item_lt cs (init max_size)) - 1
        /\ _counter q'
           = _counter (run_queue_calls item_eq item_lt cs (init max_size))).
Proof.
  set (q := run_queue_calls item_eq item_lt cs (init max_size)).
  assert (queue_inv q) as Hinv
    by (apply run_queue_calls_inv, queue_inv_init).
  split.
  - intros He. unfold get, bind, get_state. unfold is_empty in He.
    by rewrite He.
  - intros He.
    destruct (get_spec item_eq item_lt q Hinv) as (m & q' & Hget & Hperm & _).
    { intros Hnil. unfold is_empty in He. by rewrite Hnil in He. }
    exists (item_of m), q'. split; [done|].
    apply Permutation_length in Hperm. unfold size. rewrite Hperm.
    simpl length. split; [lia|].
    change q' with (snd (Returned (item_of m), q')). rewrite <- Hget.
    unfold get, bind, get_state, on_heap.
    destruct (length (_heap q) =? 0)%nat; [done|].
    destruct (heapq.heappop item_eq item_lt (_heap q)) as [[[[? ?] ?]| | |] h];
      done.
Qed.

Lemma run_queue_trace_conserves cs : forall (q : queue),
  queue_inv q ->
  (run_queue_trace item_eq item_lt cs q).1.2 ++ (item_of <$> _heap q)
  ≡ₚ (run_queue_trace item_eq item_lt cs q).1.1
     ++ (item_of <$> _heap (run_queue_trace item_eq item_lt cs q).2).
Proof.
  induction cs as [|c cs IH]; intros q Hinv; [done|].
  pose proof (run_queue_call_inv item_eq item_lt c q Hinv) as Hinv'.
  destruct c as [x p|]; simpl in *.
  - destruct (Z.lt_ge_cases (size q) (_max_size q)) as [Hroom|Hfull].
    + destruct (put_spec item_eq item_lt q x p Hinv Hroom)
        as (q' & Hput & Hperm & _).
      rewrite Hput in *. simpl in Hinv'. specialize (IH q' Hinv').
      destruct (run_queue_trace item_eq item_lt cs q') as [[got taken] q''].
      simpl in *. rewrite <- IH, Hperm. simpl.
      by rewrite <- Permutation_middle.
    + rewrite put_full in * by lia. simpl in Hinv'. specialize (IH q Hinv').
      by destruct (run_queue_trace item_eq item_lt cs q) as [[got taken] q''].
  - destruct (decide (_heap q = [])) as [Hq|Hq].
    + assert (get item_eq item_lt q = (Suspended, q)) as Hget
        by (unfold get, bind, get_state; by rewrite Hq).
      rewrite Hget in *. specialize (IH q Hinv).
      by destruct (run_queue_trace item_eq item_lt cs q) as [[got taken] q''].
    + destruct (get_spec item_eq item_lt q Hinv Hq)
        as (m & q' & Hget & Hperm & _).
      rewrite Hget in *. simpl in Hinv'. specialize (IH q' Hinv').
      destruct (run_queue_trace item_eq item_lt cs q') as [[got taken] q''].
      simpl in *. rewrite Hperm. simpl.
      rewrite <- Permutation_middle. by rewrite IH.
Qed.

Lemma run_queue_trace_state cs : forall (q : queue),
  (run_queue_trace item_eq item_lt cs q).2
  = run_queue_calls item_eq item_lt cs q.
Proof.
  unfold run_queue_calls.
  induction cs as [|[x p|] cs IH]; intros q; simpl; [done| |].
  - destruct (put item_eq item_lt x p q) as [o q'] eqn:Hput. simpl.
    specialize (IH q').
    by destruct (run_queue_trace item_eq item_lt cs q') as [[got taken] q''].
  - destruct (get item_eq item_lt q) as [o q'] eqn:Hget. simpl.
    specialize (IH q').
    by destruct (run_queue_trace item_eq item_lt cs q') as [[got taken] q''].
Qed.

(** X5: no item is lost and none is made up.  Along any interleaving of
    puts and gets on a new queue, the items whose put returned are, up to
    their order, the items that the gets returned together with the items
    still in the queue. *)
Theorem queue_conserves_items max_size (cs : list queue_call) :
  (run_queue_trace item_eq item_lt cs (init max_size)).1.2
  ≡ₚ (run_queue_trace item_eq item_lt cs (init max_size)).1.1
     ++ (item_of <$> _heap (run_queue_calls item_eq item_lt cs (init max_size))).
Proof.
  rewrite <- run_queue_trace_state.
  rewrite <- (run_queue_trace_conserves cs (init max_size)).
  - simpl. by rewrite app_nil_r.
  - apply queue_inv_init.
Qed.

End QueueMore.

Section QueueMoreRuns.

Import request priority_queue.

Lemma get_removes_the_first_witness :
  exists m q',
    get String.eqb unordered
      (run_queue_calls String.eqb unordered
         [Put "a"%string LOW; Put "b"%string HIGH] (init 10))
    = (Returned (item_of m), q')
    /\ _heap (run_queue_calls String.eqb unordered
                [Put "a"%string LOW; Put "b"%string HIGH] (init 10))
       ≡ₚ m :: _heap q'
    /\ (forall e, e ∈ _heap q' -> dequeued_before m e).
Proof.
  apply (get_removes_the_first String.eqb unordered 10
           [Put "a"%string LOW; Put "b"%string HIGH]).
  vm_compute. discriminate.
Defined.

Lemma put_below_capacity_returns_witness :
  exists q',
    put String.eqb unordered "b"%string HIGH
      (run_queue_calls String.eqb unordered [Put "a"%string LOW] (init 2))
    = (Returned tt, q')
    /\ size q'
       = size (run_queue_calls String.eqb unordered [Put "a"%string LOW]
                 (init 2)) + 1
    /\ _counter q'
       = _counter (run_queue_calls String.eqb unordered [Put "a"%string LOW]
                     (init 2)) + 1
    /\ is_empty q' = false.
Proof.
  apply (put_below_capacity_returns String.eqb unordered 2
           [Put "a"%string LOW] "b"%string HIGH).
  vm_compute. reflexivity.
Defined.

Lemma get_returns_iff_not_empty_witness :
  get String.eqb unordered
    (run_queue_calls String.eqb unordered [Put "a"%string LOW; Get] (init 3))
  = (Suspended,
     run_queue_calls String.eqb unordered [Put "a"%string LOW; Get] (init 3))
  /\ exists x q',
       get String.eqb unordered
         (run_queue_calls String.eqb unordered [Put "a"%string LOW] (init 3))
       = (Returned x, q')
       /\ size q'
          = size (run_queue_calls String.eqb unordered [Put "a"%string LOW]
                    (init 3)) - 1
       /\ _counter q'
          = _counter (run_queue_calls String.eqb unordered
                        [Put "a"%string LOW] (init 3)).
Proof.
  split.
  - apply (get_returns_iff_not_empty String.eqb unordered 3
             [Put "a"%string LOW; Get]).
    vm_compute. reflexivity.
  - apply (get_returns_iff_not_empty String.eqb unordered 3
             [Put "a"%string LOW]).
    vm_compute. reflexivity.
Defined.

End QueueMoreRuns.

(** ** More on the slot pool *)

Section PoolMore.

Import gpu gpu_manager.

Implicit Types (d : list (Z * GPUSlot)) (m : GPUManager).

Lemma count_state_nonneg st (gpus : list GPUSlot) : 0 <= count_state st gpus.
Proof.
  induction gpus as [|g gpus IH]; [done|].
  rewrite count_state_cons. destruct (GPUState_eqb (state g) st); lia.
Qed.

Lemma first_available_None d :
  count_state AVAILABLE (values d) = 0 -> first_available d = None.
Proof.
  induction d as [|[k v] d IH]; [done|].
  change (values ((k, v) :: d)) with (v :: values d).
  rewrite count_state_cons.
  pose proof (count_state_nonneg AVAILABLE (values d)) as Hnn.
  cbn [first_available]. destruct (state v); cbn [GPUState_eqb]; intros H0.
  - lia.
  - by rewrite IH by lia.
Qed.

Lemma first_available_counts d gpu d' :
  first_available d = Some (gpu, d') ->
  count_state AVAILABLE (values d') = count_state AVAILABLE (values d) - 1
  /\ count_state BUSY (values d') = count_state BUSY (values d) + 1.
Proof.
  revert gpu d'. induction d as [|[k v] d IH]; intros gpu d'; [done|].
  change (values ((k, v) :: d)) with (v :: values d).
  cbn [first_available]. destruct (state v) eqn:Hv; cbn [GPUState_eqb].
  - intros [= <- <-].
    change (values ((k, {| gpu_id := gpu_id v; state := BUSY |}) :: d))
      with ({| gpu_id := gpu_id v; state := BUSY |} :: values d).
    rewrite !count_state_cons. cbn [state]. rewrite Hv.
    cbn [GPUState_eqb]. lia.
  - destruct (first_available d) as [[g d'']|]; [|done].
    intros [= <- <-]. destruct (IH g d'' eq_refl) as [Ha Hb].
    change (values ((k, v) :: d'')) with (v :: values d'').
    rewrite !count_state_cons. rewrite Hv. cbn [GPUState_eqb]. lia.
Qed.

Lemma dict_set_state_counts k st d v st' :
  dict_get k d = Some v ->
  count_state st' (values (dict_set_state k st d))
  = count_state st' (values d)
    - (if GPUState_eqb (state v) st' then 1 else 0)
    + (if GPUState_eqb st st' then 1 else 0).
Proof.
  induction d as [|[k' v'] d IH]; [done|].
  cbn [dict_get dict_set_state]. destruct (k' =? k).
  - intros [= ->].
    change (values ((k', {| gpu_id := gpu_id v; state := st |}) :: d))
      with ({| gpu_id := gpu_id v; state := st |} :: values d).
    change (values ((k', v) :: d)) with (v :: values d).
    rewrite !count_state_cons. cbn [state]. lia.
  - intros Hv.
    change (values ((k', v') :: dict_set_state k st d))
      with (v' :: values (dict_set_state k st d)).
    change (values ((k', v') :: d)) with (v' :: values d).
    rewrite !count_state_cons. rewrite IH by done. lia.
Qed.

Lemma range_lookup n (j : nat) :
  (j < Z.to_nat n)%nat -> range n !! j = Some (Z.of_nat j).
Proof.
  intros Hj. unfold range. rewrite list_lookup_fmap.
  by rewrite lookup_seq_lt.
Qed.

Lemma wf_lookup N m (j : nat) kv :
  pool_wf N m -> _gpus m !! j = Some kv ->
  kv.1 = Z.of_nat j /\ gpu_id kv.2 = Z.of_nat j /\ 0 <= Z.of_nat j < N.
Proof.
  intros [Hkeys Hids] Hj.
  assert ((_gpus m).*1 !! j = Some kv.1) as Hk
    by (by rewrite list_lookup_fmap, Hj).
  rewrite Hkeys in Hk.
  assert (j < Z.to_nat N)%nat as Hlt.
  { apply lookup_lt_Some in Hk. unfold range in Hk.
    by rewrite length_fmap, length_seq in Hk. }
  rewrite range_lookup in Hk by done. injection Hk as Hk.
  rewrite Forall_forall in Hids.
  pose proof (Hids kv (list_elem_of_lookup_2 _ _ _ Hj)) as Hid.
  split; [done|]. split; [congruence|lia].
Qed.

Lemma wf_NoDup N m : pool_wf N m -> NoDup (_gpus m).*1.
Proof. intros [-> _]. apply NoDup_range. Qed.

(** X6: with no slot AVAILABLE, [acquire_gpu] suspends its caller and
    leaves the pool as it is, every slot being BUSY. *)
Theorem acquire_suspends_when_all_busy (N : Z) (calls : list call) :
  available_count (run_calls calls (init N)) = 0 ->
  acquire_gpu (run_calls calls (init N))
  = (Suspended, run_calls calls (init N))
  /\ busy_count (run_calls calls (init N)) = Z.max 0 N.
Proof.
  intros H0. pose proof (pool_counts N _ (reachable_wf N calls)) as Hsum.
  split; [|lia]. unfold acquire_gpu.
  by rewrite first_available_None.
Qed.

(** X7: [acquire_gpu] hands out the AVAILABLE slot with the lowest id:
    every slot with a lower id is BUSY when it returns one. *)
Theorem acquire_returns_lowest_available (N : Z) (calls : list call)
    (gpu : GPUSlot) (m1 : GPUManager) (k : Z) :
  acquire_gpu (run_calls calls (init N)) = (Returned gpu, m1) ->
  0 <= k < gpu_id gpu ->
  get_gpu_state k (run_calls calls (init N))
  = (Returned BUSY, run_calls calls (init N)).
Proof.
  pose proof (reachable_wf N calls) as Hwf.
  set (m := run_calls calls (init N)) in *. intros Hacq Hk.
  unfold acquire_gpu in Hacq.
  destruct (first_available (_gpus m)) as [[g d]|] eqn:Hf; [|done].
  injection Hacq as -> <-.
  destruct (first_available_inv _ _ _ Hf)
    as (i & k' & old & Hi & _ & -> & _ & Hbefore).
  destruct (wf_lookup N m i _ Hwf Hi) as (_ & Hid & _). simpl in *.
  assert (Z.to_nat k < i)%nat as Hlt by lia.
  destruct (lookup_lt_is_Some_2 (_gpus m) (Z.to_nat k)) as [[kj vj] Hj].
  { apply lookup_lt_Some in Hi. lia. }
  destruct (wf_lookup N m _ _ Hwf Hj) as (Hkj & _ & _). simpl in Hkj.
  rewrite Z2Nat.id in Hkj by lia. subst kj.
  unfold get_gpu_state.
  rewrite (dict_get_lookup _ _ _ _ (wf_NoDup N m Hwf) Hj).
  pose proof (Hbefore _ _ Hlt Hj) as Hb. simpl in Hb. by rewrite Hb.
Qed.

(** X8: a call of [acquire_gpu] that returns moves one slot from the
    AVAILABLE count to the BUSY count. *)
Theorem acquire_moves_one_slot_to_busy (N : Z) (calls : list call)
    (gpu : GPUSlot) (m1 : GPUManager) :
  acquire_gpu (run_calls calls (init N)) = (Returned gpu, m1) ->
  available_count m1 = available_count (run_calls calls (init N)) - 1
  /\ busy_count m1 = busy_count (run_calls calls (init N)) + 1.
Proof.
  intros Hacq. unfold acquire_gpu in Hacq.
  destruct (first_available (_gpus (run_calls calls (init N))))
    as [[g d]|] eqn:Hf; [|done].
  injection Hacq as -> <-. unfold available_count, busy_count. simpl.
  by apply (first_available_counts _ _ _ Hf).
Qed.

(** X9: [release_gpu] of a BUSY slot moves it back from the BUSY count to
    the AVAILABLE count. *)
Theorem release_moves_busy_slot_to_available (N : Z) (calls : list call)
    (k : Z) (m1 : GPUManager) :
  get_gpu_state k (run_calls calls (init N))
  = (Returned BUSY, run_calls calls (init N)) ->
  release_gpu k (run_calls calls (init N)) = (Returned tt, m1) ->
  available_count m1 = available_count (run_calls calls (init N)) + 1
  /\ busy_count m1 = busy_count (run_calls calls (init N)) - 1
  /\ get_gpu_state k m1 = (Returned AVAILABLE, m1).
Proof.
  set (m := run_calls calls (init N)). intros Hst Hrel.
  unfold get_gpu_state in Hst.
  destruct (dict_get k (_gpus m)) as [v|] eqn:Hv; [|done].
  injection Hst as Hst.
  unfold release_gpu, dict_contains in Hrel. rewrite Hv in Hrel.
  injection Hrel as <-. unfold available_count, busy_count. simpl.
  rewrite !(dict_set_state_counts k AVAILABLE _ v) by done. rewrite Hst. simpl.
  split; [lia|]. split; [lia|].
  unfold get_gpu_state. simpl.
  by rewrite dict_get_set_state, Z.eqb_refl, Hv.
Qed.


Lemma dict_set_state_insert d (i : nat) k v st :
  NoDup d.*1 -> d !! i = Some (k, v) ->
  dict_set_state k st d = <[i := (k, {| gpu_id := gpu_id v; state := st |})]> d.
Proof.
  revert i. induction d as [|[k0 v0] d IH]; intros i Hnd Hi; [done|].
  rewrite fmap_cons in Hnd. apply NoDup_cons in Hnd as [Hnotin Hnd].
  destruct i as [|i]; simpl in *.
  - injection Hi as -> ->. by rewrite Z.eqb_refl.
  - destruct (Z.eqb_spec k0 k) as [->|Hne].
    + exfalso. apply Hnotin. apply list_elem_of_fmap. exists (k, v).
      split; [done|]. by eapply list_elem_of_lookup_2.
    + f_equal. eauto.
Qed.

Lemma insert_keys d (i : nat) k v v' :
  d !! i = Some (k, v) -> (<[i := (k, v')]> d).*1 = d.*1.
Proof.
  intros Hi. rewrite list_fmap_insert. simpl.
  apply list_insert_id. by rewrite list_lookup_fmap, Hi.
Qed.

Lemma acquire_then_release N m gpu m1 :
  pool_wf N m -> acquire_gpu m = (Returned gpu, m1) ->
  release_gpu (gpu_id gpu) m1 = (Returned tt, m).
Proof.
  intros Hwf Hacq. pose proof (wf_NoDup N m Hwf) as Hnd.
  unfold acquire_gpu in Hacq.
  destruct (first_available (_gpus m)) as [[g d]|] eqn:Hf; [|done].
  injection Hacq as -> <-.
  destruct (first_available_inv _ _ _ Hf)
    as (i & k & old & Hi & Hst & -> & -> & _).
  assert (gpu_id old = k) as Hk.
  { destruct Hwf as [_ Hids]. rewrite Forall_forall in Hids.
    apply (Hids (k, old)). by eapply list_elem_of_lookup_2. }
  set (busy := {| gpu_id := gpu_id old; state := BUSY |}).
  assert (i < length (_gpus m))%nat as Hlen by (by apply lookup_lt_Some in Hi).
  assert (<[i := (k, busy)]> (_gpus m) !! i = Some (k, busy)) as Hi'
    by (by apply list_lookup_insert_eq).
  assert (NoDup (<[i := (k, busy)]> (_gpus m)).*1) as Hnd'
    by (by rewrite (insert_keys _ i k old busy Hi)).
  unfold release_gpu, dict_contains. simpl. rewrite Hk.
  rewrite (dict_get_lookup _ i k busy Hnd' Hi').
  rewrite (dict_set_state_insert _ i k busy AVAILABLE Hnd' Hi').
  rewrite list_insert_insert_eq. simpl.
  assert ({| gpu_id := gpu_id old; state := AVAILABLE |} = old) as ->
    by (destruct old; simpl in *; by subst).
  rewrite list_insert_id by done. by destruct m.
Qed.

(** X10: [release_gpu] undoes [acquire_gpu].  Releasing the slot that a
    call of [acquire_gpu] has just returned gives back the pool that the
    call found, with the counts it had. *)
Theorem release_undoes_acquire (N : Z) (calls : list call)
    (gpu : GPUSlot) (m1 : GPUManager) :
  acquire_gpu (run_calls calls (init N)) = (Returned gpu, m1) ->
  release_gpu (gpu_id gpu) m1 = (Returned tt, run_calls calls (init N))
  /\ available_count (snd (release_gpu (gpu_id gpu) m1))
     = available_count (run_calls calls (init N))
  /\ busy_count (snd (release_gpu (gpu_id gpu) m1))
     = busy_count (run_calls calls (init N)).
Proof.
  intros Hacq.
  rewrite (acquire_then_release N _ _ _ (reachable_wf N calls) Hacq).
  done.
Qed.

Lemma run_call_keeps_busy N c m k v :
  pool_wf N m -> dict_get k (_gpus m) = Some v -> state v = BUSY ->
  c <> Release k ->
  dict_get k (_gpus (run_call c m)) = Some v.
Proof.
  intros Hwf Hv Hst Hc. pose proof (wf_NoDup N m Hwf) as Hnd.
  destruct c as [|j]; simpl.
  - unfold acquire_gpu.
    destruct (first_available (_gpus m)) as [[g d]|] eqn:Hf; [|done].
    destruct (first_available_inv _ _ _ Hf)
      as (i & k' & old & Hi & Hold & -> & -> & _). simpl.
    rewrite (dict_get_insert _ i k' old _ k Hnd Hi).
    destruct (Z.eqb_spec k k') as [->|Hne]; [|done].
    rewrite (dict_get_lookup _ i k' old Hnd Hi) in Hv. congruence.
  - unfold release_gpu. destruct (dict_contains j (_gpus m)); [|done]. simpl.
    rewrite dict_get_set_state.
    destruct (Z.eqb_spec k j) as [->|Hne]; [done|done].
Qed.

Lemma run_calls_keep_busy N cs : forall m k v,
  pool_wf N m -> dict_get k (_gpus m) = Some v -> state v = BUSY ->
  Forall (fun c => c <> Release k) cs ->
  dict_get k (_gpus (run_calls cs m)) = Some v.
Proof.
  unfold run_calls. induction cs as [|c cs IH]; intros m k v Hwf Hv Hst Hcs;
    simpl; [done|].
  apply Forall_cons in Hcs as [Hc Hcs].
  apply IH; auto.
  - by apply run_call_wf.
  - by eapply run_call_keeps_busy.
Qed.

(** X11: a slot is held by one caller at a time.  Once [acquire_gpu] has
    returned a slot, and for as long as no call releases that slot, the
    slot stays BUSY and no call of [acquire_gpu] returns it again,
    whatever other calls are made on the pool. *)
Theorem acquired_slot_is_exclusive (N : Z) (before after : list call)
    (gpu : GPUSlot) (m1 : GPUManager) :
  acquire_gpu (run_calls before (init N)) = (Returned gpu, m1) ->
  Forall (fun c => c <> Release (gpu_id gpu)) after ->
  get_gpu_state (gpu_id gpu) (run_calls after m1)
  = (Returned BUSY, run_calls after m1)
  /\ (forall gpu' m2,
        acquire_gpu (run_calls after m1) = (Returned gpu', m2) ->
        gpu_id gpu' <> gpu_id gpu).
Proof.
  intros Hacq Hafter.
  destruct (acquire_gpu_wf N _ _ _ (reachable_wf N before) Hacq) as [Hwf1 _].
  assert (dict_get (gpu_id gpu) (_gpus m1) = Some gpu /\ state gpu = BUSY)
    as [Hg Hst].
  { pose proof (reachable_wf N before) as Hwf.
    pose proof (wf_NoDup N _ Hwf) as Hnd.
    unfold acquire_gpu in Hacq.
    destruct (first_available (_gpus (run_calls before (init N))))
      as [[g d]|] eqn:Hf; [|done].
    injection Hacq as -> <-.
    destruct (first_available_inv _ _ _ Hf)
      as (i & k & old & Hi & _ & -> & -> & _). simpl.
    assert (gpu_id old = k) as ->.
    { destruct Hwf as [_ Hids]. rewrite Forall_forall in Hids.
      apply (Hids (k, old)). by eapply list_elem_of_lookup_2. }
    split; [|done].
    rewrite (dict_get_insert _ i _ old _ _ Hnd Hi). by rewrite Z.eqb_refl. }
  pose proof (run_calls_keep_busy N after m1 _ _ Hwf1 Hg Hst Hafter) as Hkeep.
  pose proof (run_calls_wf N after m1 Hwf1) as Hwf2.
  split.
  - unfold get_gpu_state. by rewrite Hkeep, Hst.
  - intros gpu' m2 Hacq' Heq. unfold acquire_gpu in Hacq'.
    destruct (first_available (_gpus (run_calls after m1)))
      as [[g d]|] eqn:Hf; [|done].
    injection Hacq' as -> <-.
    destruct (first_available_inv _ _ _ Hf)
      as (i & k & old & Hi & Hold & -> & _). simpl in Heq.
    assert (gpu_id old = k) as Hk.
    { destruct Hwf2 as [_ Hids]. rewrite Forall_forall in Hids.
      apply (Hids (k, old)). by eapply list_elem_of_lookup_2. }
    rewrite <- Heq, Hk in Hkeep.
    rewrite (dict_get_lookup _ i k old (wf_NoDup N _ Hwf2) Hi) in Hkeep.
    congruence.
Qed.


(** X12: [release_gpu] with the id of a slot of the pool returns and leaves
    that slot AVAILABLE and every other slot as it was; releasing the
    same slot once more changes nothing. *)
Theorem release_makes_slot_available (N : Z) (calls : list call) (k : Z) :
  0 <= k < N ->
  exists m1,
    release_gpu k (run_calls calls (init N)) = (Returned tt, m1)
    /\ get_gpu_state k m1 = (Returned AVAILABLE, m1)
    /\ (forall j, j <> k ->
          fst (get_gpu_state j m1)
          = fst (get_gpu_state j (run_calls calls (init N))))
    /\ release_gpu k m1 = (Returned tt, m1).
Proof.
  pose proof (reachable_wf N calls) as Hwf.
  set (m := run_calls calls (init N)) in *. intros Hk.
  destruct (dict_get k (_gpus m)) as [v|] eqn:Hv.
  2: { apply dict_get_None in Hv. exfalso. apply Hv.
       destruct Hwf as [-> _]. by apply elem_of_range. }
  exists {| _gpus := dict_set_state k AVAILABLE (_gpus m) |}.
  assert (dict_get k (dict_set_state k AVAILABLE (_gpus m))
          = Some {| gpu_id := gpu_id v; state := AVAILABLE |}) as Hv'
    by (by rewrite dict_get_set_state, Z.eqb_refl, Hv).
  split.
  { unfold release_gpu, dict_contains. by rewrite Hv. }
  split.
  { unfold get_gpu_state. simpl. by rewrite Hv'. }
  split.
  { intros j Hj. unfold get_gpu_state. simpl. rewrite dict_get_set_state.
    destruct (Z.eqb_spec j k); [done|].
    by destruct (dict_get j (_gpus m)). }
  unfold release_gpu, dict_contains. simpl. rewrite Hv'.
  by rewrite (dict_set_state_same k AVAILABLE _ _ Hv').
Qed.

(** X13: [get_all_states] lists the ids [0..N-1] in order, each with the
    state that [get_gpu_state] returns for it. *)
Theorem get_all_states_lists_every_slot (N : Z) (calls : list call) :
  (get_all_states (run_calls calls (init N))).*1 = range N
  /\ (forall k st,
        (k, st) ∈ get_all_states (run_calls calls (init N))
        <-> get_gpu_state k (run_calls calls (init N))
            = (Returned st, run_calls calls (init N))).
Proof.
  pose proof (reachable_wf N calls) as Hwf.
  set (m := run_calls calls (init N)) in *.
  pose proof (wf_NoDup N m Hwf) as Hnd. unfold get_all_states. split.
  - destruct Hwf as [<- _]. rewrite <- list_fmap_compose.
    by apply list_fmap_ext.
  - intros k st. unfold get_gpu_state.
    change (map (fun kv : Z * GPUSlot => (kv.1, state kv.2)) (_gpus m))
      with ((fun kv : Z * GPUSlot => (kv.1, state kv.2)) <$> _gpus m).
    rewrite list_elem_of_fmap. split.
    + intros ([k' v] & [= -> ->] & Hin).
      apply list_elem_of_lookup in Hin as [i Hi].
      by rewrite (dict_get_lookup _ i k' v Hnd Hi).
    + destruct (dict_get k (_gpus m)) as [v|] eqn:Hv; [|done].
      intros [= <-]. exists (k, v). split; [done|]. by apply dict_get_Some.
Qed.

(** The slots below position [a] are BUSY and the others AVAILABLE. *)
Lemma acquire_at_front N m (a : nat) :
  pool_wf N m -> (a < Z.to_nat N)%nat ->
  (forall j kv, _gpus m !! j = Some kv ->
     state kv.2 = if (j <? a)%nat then BUSY else AVAILABLE) ->
  exists gpu m1,
    acquire_gpu m = (Returned gpu, m1) /\ gpu_id gpu = Z.of_nat a
    /\ pool_wf N m1
    /\ (forall j kv, _gpus m1 !! j = Some kv ->
          state kv.2 = if (j <? S a)%nat then BUSY else AVAILABLE).
Proof.
  intros Hwf Ha Hshape.
  assert (length (_gpus m) = Z.to_nat N) as Hlen.
  { destruct Hwf as [Hk _]. apply (f_equal length) in Hk.
    rewrite length_fmap in Hk. rewrite Hk. unfold range.
    by rewrite length_fmap, length_seq. }
  destruct (lookup_lt_is_Some_2 (_gpus m) a) as [kva Hkva]; [lia|].
  pose proof (Hshape _ _ Hkva) as Hsa. rewrite Nat.ltb_irrefl in Hsa.
  destruct (first_available_Some (_gpus m)) as (gpu & d & Hf).
  { exists kva.2. split; [|done]. unfold values.
    apply list_elem_of_In, in_map, list_elem_of_In.
    by eapply list_elem_of_lookup_2. }
  destruct (first_available_inv _ _ _ Hf)
    as (i & k & old & Hi & Hold & -> & -> & Hbefore).
  assert (i = a) as ->.
  { destruct (Nat.lt_trichotomy i a) as [Hlt|[->|Hgt]]; [|done|].
    - pose proof (Hshape _ _ Hi) as Hs. simpl in Hs.
      destruct (Nat.ltb_spec i a); [|lia]. rewrite Hold in Hs. done.
    - pose proof (Hbefore _ _ Hgt Hkva) as Hb. rewrite Hsa in Hb. done. }
  destruct (wf_lookup N m a _ Hwf Hi) as (_ & Hid & _). simpl in Hid.
  exists {| gpu_id := gpu_id old; state := BUSY |},
         {| _gpus := <[a := (k, {| gpu_id := gpu_id old; state := BUSY |})]>
                       (_gpus m) |}.
  split; [unfold acquire_gpu; by rewrite Hf|]. split; [done|]. split.
  { change (pool_wf N (snd (Returned {| gpu_id := gpu_id old; state := BUSY |},
      {| _gpus := <[a := (k, {| gpu_id := gpu_id old; state := BUSY |})]>
                    (_gpus m) |}))).
    replace (Returned {| gpu_id := gpu_id old; state := BUSY |},
             {| _gpus := <[a := (k, {| gpu_id := gpu_id old; state := BUSY |})]>
                           (_gpus m) |}) with (acquire_gpu m)
      by (unfold acquire_gpu; by rewrite Hf).
    apply (run_call_wf N Acquire m Hwf). }
  intros j kv Hj. simpl in Hj.
  destruct (decide (j = a)) as [->|Hne].
  - rewrite list_lookup_insert_eq in Hj by lia. injection Hj as <-. simpl.
    destruct (Nat.ltb_spec a (S a)); [done|lia].
  - rewrite list_lookup_insert_ne in Hj by done.
    rewrite (Hshape _ _ Hj).
    destruct (Nat.ltb_spec j a), (Nat.ltb_spec j (S a)); try done; lia.
Qed.

Lemma acquire_times_from N (n : nat) : forall m (a : nat),
  pool_wf N m -> (a + n <= Z.to_nat N)%nat ->
  (forall j kv, _gpus m !! j = Some kv ->
     state kv.2 = if (j <? a)%nat then BUSY else AVAILABLE) ->
  fst (acquire_times n m) = (fun i => Returned (Z.of_nat i)) <$> seq a n
  /\ pool_wf N (snd (acquire_times n m))
  /\ (forall j kv, _gpus (snd (acquire_times n m)) !! j = Some kv ->
        state kv.2 = if (j <? a + n)%nat then BUSY else AVAILABLE).
Proof.
  induction n as [|n IH]; intros m a Hwf Han Hshape.
  - simpl. rewrite Nat.add_0_r. done.
  - destruct (acquire_at_front N m a Hwf) as (gpu & m1 & Hacq & Hid & Hwf1 & Hs1);
      [lia|done|].
    simpl. rewrite Hacq.
    destruct (IH m1 (S a) Hwf1) as (Hos & Hwf' & Hs'); [lia|done|].
    destruct (acquire_times n m1) as [os m']. simpl in *.
    rewrite Hid, Hos. split; [done|]. split; [done|].
    intros j kv Hj. rewrite (Hs' _ _ Hj).
    by replace (a + S n)%nat with (S (a + n)) by lia.
Qed.

(** X14: on a new pool of [N] slots, [N] calls of [acquire_gpu] in a row
    return the slots [0], [1], ..., [N-1] in this order, no slot twice, and
    the next call suspends its caller. *)
Theorem new_pool_hands_out_slots_in_order (N : Z) :
  fst (acquire_times (Z.to_nat N) (init N)) = Returned <$> range N
  /\ acquire_gpu (snd (acquire_times (Z.to_nat N) (init N)))
     = (Suspended, snd (acquire_times (Z.to_nat N) (init N))).
Proof.
  destruct (acquire_times_from N (Z.to_nat N) (init N) 0%nat)
    as (Hos & Hwf & Hshape).
  - apply init_wf.
  - lia.
  - intros j kv Hj. unfold init in Hj. simpl in Hj.
    rewrite list_lookup_fmap in Hj.
    destruct (range N !! j); [|done]. injection Hj as <-. done.
  - split.
    + rewrite Hos. unfold range. by rewrite <- list_fmap_compose.
    + unfold acquire_gpu.
      destruct (first_available (_gpus (acquire_times (Z.to_nat N) (init N)).2))
        as [[g d]|] eqn:Hf; [|done].
      destruct (first_available_inv _ _ _ Hf) as (i & k & old & Hi & Hold & _).
      pose proof (Hshape _ _ Hi) as Hs. simpl in Hs.
      destruct (wf_lookup N _ i _ Hwf Hi) as (_ & _ & Hlt).
      destruct (Nat.ltb_spec i (Z.to_nat N)); [|lia].
      rewrite Hold in Hs. done.
Qed.

End PoolMore.

Section PoolMoreRuns.

Import gpu gpu_manager.

Lemma acquire_suspends_when_all_busy_witness :
  acquire_gpu (run_calls [Acquire; Acquire] (init 2))
  = (Suspended, run_calls [Acquire; Acquire] (init 2))
  /\ busy_count (run_calls [Acquire; Acquire] (init 2)) = Z.max 0 2.
Proof.
  apply (acquire_suspends_when_all_busy 2 [Acquire; Acquire]).
  vm_compute. reflexivity.
Defined.

Lemma acquire_returns_lowest_available_witness :
  get_gpu_state 0 (run_calls [Acquire] (init 3))
  = (Returned BUSY, run_calls [Acquire] (init 3)).
Proof.
  apply (acquire_returns_lowest_available 3 [Acquire]
           {| gpu_id := 1; state := BUSY |}
           (snd (acquire_gpu (run_calls [Acquire] (init 3)))) 0).
  - vm_compute. reflexivity.
  - simpl. lia.
Defined.

Lemma acquire_moves_one_slot_to_busy_witness :
  available_count (snd (acquire_gpu (run_calls [Acquire] (init 3))))
  = available_count (run_calls [Acquire] (init 3)) - 1
  /\ busy_count (snd (acquire_gpu (run_calls [Acquire] (init 3))))
     = busy_count (run_calls [Acquire] (init 3)) + 1.
Proof.
  apply (acquire_moves_one_slot_to_busy 3 [Acquire]
           {| gpu_id := 1; state := BUSY |}).
  vm_compute. reflexivity.
Defined.

Lemma release_moves_busy_slot_to_available_witness :
  available_count (snd (release_gpu 0 (run_calls [Acquire] (init 2))))
  = available_count (run_calls [Acquire] (init 2)) + 1
  /\ busy_count (snd (release_gpu 0 (run_calls [Acquire] (init 2))))
     = busy_count (run_calls [Acquire] (init 2)) - 1
  /\ get_gpu_state 0 (snd (release_gpu 0 (run_calls [Acquire] (init 2))))
     = (Returned AVAILABLE,
        snd (release_gpu 0 (run_calls [Acquire] (init 2)))).
Proof.
  apply (release_moves_busy_slot_to_available 2 [Acquire] 0).
  - vm_compute. reflexivity.
  - vm_compute. reflexivity.
Defined.

Lemma release_undoes_acquire_witness :
  release_gpu 1 (snd (acquire_gpu (run_calls [Acquire] (init 2))))
  = (Returned tt, run_calls [Acquire] (init 2)).
Proof.
  apply (release_undoes_acquire 2 [Acquire] {| gpu_id := 1; state := BUSY |}
           (snd (acquire_gpu (run_calls [Acquire] (init 2))))).
  vm_compute. reflexivity.
Defined.

Lemma acquired_slot_is_exclusive_witness :
  get_gpu_state 0
    (run_calls [Acquire; Release 1; Acquire]
       (snd (acquire_gpu (run_calls [] (init 2)))))
  = (Returned BUSY,
     run_calls [Acquire; Release 1; Acquire]
       (snd (acquire_gpu (run_calls [] (init 2))))).
Proof.
  apply (acquired_slot_is_exclusive 2 [] [Acquire; Release 1; Acquire]
           {| gpu_id := 0; state := BUSY |}
           (snd (acquire_gpu (run_calls [] (init 2))))).
  - vm_compute. reflexivity.
  - repeat constructor; discriminate.
Defined.

Lemma release_makes_slot_available_witness :
  exists m1,
    release_gpu 0 (run_calls [Acquire] (init 2)) = (Returned tt, m1)
    /\ get_gpu_state 0 m1 = (Returned AVAILABLE, m1)
    /\ (forall j, j <> 0 ->
          fst (get_gpu_state j m1)
          = fst (get_gpu_state j (run_calls [Acquire] (init 2))))
    /\ release_gpu 0 m1 = (Returned tt, m1).
Proof.
  apply (release_makes_slot_available 2 [Acquire] 0). lia.
Defined.

Lemma get_all_states_lists_every_slot_witness :
  (0, BUSY) ∈ get_all_states (run_calls [Acquire] (init 2)).
Proof.
  apply (get_all_states_lists_every_slot 2 [Acquire]).
  vm_compute. reflexivity.
Defined.

End PoolMoreRuns.

(** ** More on the worker *)

Section WorkerMore.

Import request gpu gpu_manager inference_worker.

Context {F : Type}.
Variable fsub fmul : F -> F -> F.
Variable f1000 : F.

Lemma len_slice_to (s : string) : forall n : nat,
  len (slice_to n s) = Nat.min n (len s).
Proof.
  induction s as [|c s IH]; intros n; cbn [slice_to len].
  - by rewrite Nat.min_0_r.
  - destruct (continues c) eqn:Hc; cbn [len]; rewrite ?Hc; [apply IH|].
    destruct n as [|n]; [done|]. cbn [len]. rewrite Hc, IH. done.
Qed.

Lemma len_append (s t : string) : len (s ++ t) = (len s + len t)%nat.
Proof.
  induction s as [|c s IH]; [done|]. cbn [append len].
  destruct (continues c); by rewrite IH.
Qed.

Lemma slice_to_prefix (s : string) : forall n : nat,
  exists rest, s = (slice_to n s ++ rest)%string.
Proof.
  induction s as [|c s IH]; intros n; cbn [slice_to].
  - by exists EmptyString.
  - destruct (continues c).
    + destruct (IH n) as [rest Hrest]. exists rest. cbn [append]. congruence.
    + destruct n as [|n]; [by exists (String c s)|].
      destruct (IH n) as [rest Hrest]. exists rest. cbn [append]. congruence.
Qed.

Lemma slice_to_all (s : string) : forall n : nat,
  (len s <= n)%nat -> slice_to n s = s.
Proof.
  induction s as [|c s IH]; intros n Hn; cbn [slice_to len] in *; [done|].
  destruct (continues c).
  - by rewrite IH.
  - destruct n as [|n]; [lia|]. rewrite IH; [done|lia].
Qed.


(** X17: a worker whose [min_ms] is above its [max_ms] fails every request
    it gets a slot for: [execute] raises [ValueError] without sleeping,
    and the slot is back in the pool, which is as it was. *)
Theorem execute_with_empty_delay_range (self : InferenceWorker) (w : world)
    (request : InferenceRequest) (N : Z) (calls : list call) :
  _max_ms self < _min_ms self ->
  0 < available_count (run_calls calls (init N)) ->
  execute fsub fmul f1000 self w request (run_calls calls (init N))
  = (Raised ValueError, run_calls calls (init N)).
Proof.
  intros Hrange Hpos. pose proof (reachable_wf N calls) as Hwf.
  set (m := run_calls calls (init N)) in *.
  destruct (first_available_Some (_gpus m)) as (gpu & d & Hf).
  { by apply count_state_pos. }
  assert (acquire_gpu m = (Returned gpu, {| _gpus := d |})) as Hacq
    by (unfold acquire_gpu; by rewrite Hf).
  rewrite (execute_run _ _ _ _ _ _ _ _ _ Hacq), execute_body_run.
  destruct (Z.leb_spec (_min_ms self) (_max_ms self)); [lia|].
  cbn [fst snd].
  by rewrite (acquire_then_release N m gpu _ Hwf Hacq).
Qed.

(** X18: a response names the model of its request and a slot of the
    pool.  Its output is the fixed text followed by the first 50
    characters of the prompt, a character being what [len] counts, of one
    byte or of several: a beginning of the prompt, and the whole prompt
    when it has at most 50 characters, which makes
    17 + min(50, len(prompt)) characters. *)
Theorem response_echoes_model_and_prompt_prefix (self : InferenceWorker)
    (w : world) (request : InferenceRequest) (N : Z) (calls : list call)
    (response : InferenceResponse F) (m' : GPUManager) :
  execute fsub fmul f1000 self w request (run_calls calls (init N))
  = (Returned response, m') ->
  r_model_id response = model_id request
  /\ output response
     = ("Mock output for: " ++ slice_to 50 (prompt request))%string
  /\ len (output response) = (17 + Nat.min 50 (len (prompt request)))%nat
  /\ (exists rest,
        prompt request = (slice_to 50 (prompt request) ++ rest)%string)
  /\ ((len (prompt request) <= 50)%nat ->
      output response = ("Mock output for: " ++ prompt request)%string)
  /\ 0 <= r_gpu_id response < N.
Proof.
  intros Hrun. set (m := run_calls calls (init N)) in *.
  destruct (acquire_gpu m) as [[gpu| | |] m1] eqn:Hacq;
    try (unfold execute, bind in Hrun; rewrite Hacq in Hrun; discriminate).
  destruct (acquire_gpu_wf N _ _ _ (reachable_wf N calls) Hacq) as [_ Hid].
  rewrite (execute_run _ _ _ _ _ _ _ _ _ Hacq) in Hrun.
  rewrite execute_body_run in Hrun.
  execute_cases self w; cbn [fst snd] in Hrun; try discriminate.
  injection Hrun as <- _. cbn [r_model_id output r_gpu_id].
  split; [done|]. split; [done|]. split.
  { change (len ("Mock output for: " ++ slice_to 50 (prompt request))
            = (17 + Nat.min 50 (len (prompt request)))%nat).
    rewrite len_append, len_slice_to. reflexivity. }
  split; [apply slice_to_prefix|]. split; [|done].
  intros Hshort. rewrite slice_to_all by done. reflexivity.
Qed.

(** X28: a delay too large for a float fails the request.  When the
    delay range is not empty and the delay drawn has a magnitude of 1000
    times [float_limit] or more, [execute] raises [OverflowError] from
    the division without sleeping, and the slot is back in the pool,
    which is as it was. *)
Theorem execute_with_delay_beyond_floats (self : InferenceWorker) (w : world)
    (request : InferenceRequest) (N : Z) (calls : list call) :
  _min_ms self <= _max_ms self ->
  1000 * float_limit <= Z.abs (drawn w) ->
  0 < available_count (run_calls calls (init N)) ->
  execute fsub fmul f1000 self w request (run_calls calls (init N))
  = (Raised OverflowError, run_calls calls (init N)).
Proof.
  intros Hrange Hlarge Hpos. pose proof (reachable_wf N calls) as Hwf.
  set (m := run_calls calls (init N)) in *.
  destruct (first_available_Some (_gpus m)) as (gpu & d & Hf).
  { by apply count_state_pos. }
  assert (acquire_gpu m = (Returned gpu, {| _gpus := d |})) as Hacq
    by (unfold acquire_gpu; by rewrite Hf).
  rewrite (execute_run _ _ _ _ _ _ _ _ _ Hacq), execute_body_run.
  destruct (Z.leb_spec (_min_ms self) (_max_ms self)); [|lia].
  destruct (Z.ltb_spec (Z.abs (drawn w)) (1000 * float_limit)); [lia|].
  cbn [fst snd].
  by rewrite (acquire_then_release N m gpu _ Hwf Hacq).
Qed.

End WorkerMore.

Section WorkerMoreRuns.

Import request gpu gpu_manager inference_worker.


Lemma execute_with_empty_delay_range_witness :
  execute Z.sub Z.mul 1000 {| _min_ms := 500; _max_ms := 100 |}
    (world0 None) (request0 None) (run_calls [] (init 2))
  = (Raised ValueError, run_calls [] (init 2)).
Proof.
  apply (execute_with_empty_delay_range Z.sub Z.mul 1000
           {| _min_ms := 500; _max_ms := 100 |} (world0 None)
           (request0 None) 2 []).
  - simpl. lia.
  - vm_compute. reflexivity.
Defined.

Lemma response_echoes_model_and_prompt_prefix_witness :
  exists response m',
    execute Z.sub Z.mul 1000 {| _min_ms := 100; _max_ms := 500 |}
      (world0 None) request2 (run_calls [] (init 2))
    = (Returned response, m')
    /\ r_model_id response = "test-model"%string
    /\ output response
       = ("Mock output for: " ++ copies 50 e_acute)%string
    /\ len (output response) = 67%nat
    /\ String.length (output response) = 117%nat
    /\ 0 <= r_gpu_id response < 2.
Proof.
  exists {| r_request_id := "0b0e7a3c-6f54-4d0c-9d57-2f1f1c9f4e11";
            r_model_id := "test-model";
            output := "Mock output for: " ++ copies 50 e_acute;
            r_gpu_id := 0;
            inference_time_ms := 4000 |},
         (run_calls [] (init 2)).
  split; [vm_compute; reflexivity|].
  destruct (response_echoes_model_and_prompt_prefix Z.sub Z.mul 1000
              {| _min_ms := 100; _max_ms := 500 |} (world0 None)
              request2 2 []
              {| r_request_id := "0b0e7a3c-6f54-4d0c-9d57-2f1f1c9f4e11";
                 r_model_id := "test-model";
                 output := "Mock output for: " ++ copies 50 e_acute;
                 r_gpu_id := 0;
                 inference_time_ms := 4000 |}
              (run_calls [] (init 2)))
    as (Hmodel & Hout & Hlen & _ & _ & Hgpu); [vm_compute; reflexivity|].
  split; [exact Hmodel|]. split; [reflexivity|].
  split; [exact Hlen|]. split; [vm_compute; reflexivity|exact Hgpu].
Defined.

Lemma execute_with_delay_beyond_floats_witness :
  execute Z.sub Z.mul 1000
    {| _min_ms := 10 ^ 400; _max_ms := 10 ^ 400 |}
    {| perf_counter_1 := 5; perf_counter_2 := 9; drawn := 10 ^ 400;
       uuid4 := "0b0e7a3c"; meanwhile := []; thrown := None |}
    (request0 None) (run_calls [] (init 2))
  = (Raised OverflowError, run_calls [] (init 2)).
Proof.
  apply (execute_with_delay_beyond_floats Z.sub Z.mul 1000
           {| _min_ms := 10 ^ 400; _max_ms := 10 ^ 400 |}
           {| perf_counter_1 := 5; perf_counter_2 := 9; drawn := 10 ^ 400;
              uuid4 := "0b0e7a3c"; meanwhile := []; thrown := None |}
           (request0 None) 2 []).
  - vm_compute. discriminate.
  - vm_compute. discriminate.
  - vm_compute. reflexivity.
Defined.

End WorkerMoreRuns.

(** ** More on the orchestrator *)

Section OrchestratorMore.

Import request gpu gpu_manager inference_worker priority_queue orchestrator.

Context {F : Type}.
Variable fsub fmul : F -> F -> F.
Variable f1000 : F.
Local Abbreviation orch := (@Orchestrator F).

Lemma _enqueue_run (request : InferenceRequest) (o : orch) :
  _enqueue request o
  = (let '(r, q) := @put item item_eq item_lt (request, length (futures o))
                      (priority request) (_queue o) in
     (match r with
      | Returned _ => Returned (length (futures o))
      | Raised e => Raised e
      | Suspended => Suspended
      | Diverged => Diverged
      end,
      {| _queue := q; _gpu_manager := _gpu_manager o; _worker := _worker o;
         _running := _running o; futures := futures o ++ [PENDING] |})).
Proof.
  unfold _enqueue, bind, new_future, on_queue, ret, with_futures.
  cbn [_queue _gpu_manager _worker _running futures].
  match goal with
  | |- context [put ?a ?b ?c ?d ?e] => set (P := put a b c d e)
  end.
  change (@put item item_eq item_lt (request, length (futures o))
            (priority request) (_queue o)) with P.
  by destruct P as [[[]| | |] q].
Qed.

(** X19: on a full queue [submit] raises [QueueFullError] at once, without
    suspending its caller; the queue and the pool are as they were, and
    the future made for the request is left pending, referred to by
    nothing. *)
Theorem submit_on_full_queue_raises (request : InferenceRequest) (o : orch) :
  _max_size (_queue o) <= size (_queue o) ->
  exists o',
    submit request o = (Raised QueueFullError, o')
    /\ _queue o' = _queue o
    /\ _gpu_manager o' = _gpu_manager o
    /\ futures o' = futures o ++ [PENDING].
Proof.
  intros Hfull. unfold submit, bind. rewrite _enqueue_run.
  rewrite put_full by done. eexists. split; [reflexivity|]. done.
Qed.

(** What one iteration of the loop does, by the way its [get] ends. *)
Lemma _process_loop_step_run (o : orch) :
  _process_loop_step o
  = if _running o then
      let '(r, q) := get item_eq item_lt (_queue o) in
      (match r with
       | Returned it => Returned (Some it)
       | Raised CancelledError => Returned None
       | Raised e => Raised e
       | Suspended => Suspended
       | Diverged => Diverged
       end,
       {| _queue := q; _gpu_manager := _gpu_manager o; _worker := _worker o;
          _running := _running o; futures := futures o |})
    else (Returned None, o).
Proof.
  unfold _process_loop_step, bind, get_state, try_except_CancelledError,
    on_queue, ret.
  destruct (_running o) eqn:Hrun; [|done].
  destruct (get item_eq item_lt (_queue o)) as [[it|[]| |] q];
    by rewrite ?Hrun.
Qed.

(** X20: below the capacity, on a queue reached by any puts and gets,
    [submit] puts the request into the queue with a new pending future and
    suspends its caller on that future: the heap gains one entry, made of
    the priority of the request, the counter of the queue, the request and
    the reference of the new future, and loses none; the counter moves by
    one; the pool, the running flag and the futures made before are as
    they were. *)
Theorem submit_below_capacity_enqueues_and_waits (request : InferenceRequest)
    (o : orch) (max_size : Z) (cs : list queue_call) :
  _queue o = run_queue_calls item_eq item_lt cs (priority_queue.init max_size) ->
  size (_queue o) < max_size ->
  exists o',
    submit request o = (Suspended, o')
    /\ _heap (_queue o')
       ≡ₚ (int (priority request), _counter (_queue o),
           (request, length (futures o))) :: _heap (_queue o)
    /\ _counter (_queue o') = _counter (_queue o) + 1
    /\ size (_queue o') = size (_queue o) + 1
    /\ futures o' = futures o ++ [PENDING]
    /\ await (length (futures o)) o' = (Suspended, o')
    /\ _gpu_manager o' = _gpu_manager o
    /\ _running o' = _running o.
Proof.
  intros Hq Hroom.
  assert (queue_inv (_queue o)) as Hinv
    by (rewrite Hq; apply run_queue_calls_inv, queue_inv_init).
  assert (_max_size (_queue o) = max_size) as Hmax
    by (rewrite Hq; apply run_queue_calls_max_size).
  destruct (put_spec item_eq item_lt (_queue o) (request, length (futures o))
              (priority request) Hinv) as (q' & Hput & Hperm & Hcnt & _);
    [lia|].
  assert (await (length (futures o))
            {| _queue := q'; _gpu_manager := _gpu_manager o;
               _worker := _worker o; _running := _running o;
               futures := futures o ++ [PENDING] |}
          = (Suspended,
             {| _queue := q'; _gpu_manager := _gpu_manager o;
                _worker := _worker o; _running := _running o;
                futures := futures o ++ [PENDING] |})) as Hawait.
  { apply await_pending. simpl. by apply list_lookup_middle. }
  eexists. unfold submit, bind. rewrite _enqueue_run, Hput, Hawait.
  split; [reflexivity|]. cbn [_queue _gpu_manager _running futures].
  split; [exact Hperm|]. split; [exact Hcnt|]. split; [|done].
  unfold size. apply Permutation_length in Hperm. rewrite Hperm. simpl length.
  lia.
Qed.


(** What a dispatch can change: the pool becomes what [execute] leaves,
    the queue is not touched, and of the futures at most the one of the
    request is written, and only if it was pending. *)
Lemma dispatch_frame (w : world) (request : InferenceRequest)
    (future : future_ref) (o : orch) :
  exists out fs,
    _execute_and_resolve fsub fmul f1000 w request future o
    = (out,
       {| _queue := _queue o;
          _gpu_manager :=
            snd (execute fsub fmul f1000 (_worker o) w request
                   (_gpu_manager o));
          _worker := _worker o; _running := _running o; futures := fs |})
    /\ (fs = futures o
        \/ exists fut, fs = <[future := fut]> (futures o)
                       /\ deref o future = PENDING /\ fut <> PENDING).
Proof.
  unfold _execute_and_resolve, try_except_Exception, bind, on_gpu_manager.
  destruct (execute fsub fmul f1000 (_worker o) w request (_gpu_manager o))
    as [[response|e| |] g]; cbn [snd].
  - unfold set_result, set_exception, deref, with_futures. simpl.
    destruct (futures o !! future) as [fut|] eqn:Hf.
    + destruct fut; simpl; rewrite ?Hf; eexists _, _;
        (split; [reflexivity|]);
        first [by left | right; eexists; by rewrite ?Hf].
    + eexists _, _. split; [reflexivity|]. left.
      apply list_insert_ge. by apply lookup_ge_None.
  - destruct (is_Exception e); [|eexists _, _; split; [reflexivity|by left]].
    unfold set_exception, deref, with_futures. simpl.
    destruct (futures o !! future) as [fut|] eqn:Hf.
    + destruct fut; simpl; eexists _, _; (split; [reflexivity|]);
        first [by left | right; eexists; by rewrite ?Hf].
    + eexists _, _. split; [reflexivity|]. left.
      apply list_insert_ge. by apply lookup_ge_None.
  - eexists _, _. split; [reflexivity|by left].
  - eexists _, _. split; [reflexivity|by left].
Qed.

(** X21: a dispatch touches nothing but its own request.  Whatever way
    [_execute_and_resolve] ends, the queue is as it was, no future is made
    or dropped, and every future other than the one of the request is as
    it was. *)
Theorem dispatch_leaves_other_requests_alone (w : world)
    (request : InferenceRequest) (future : future_ref) (o : orch) :
  _queue (snd (_execute_and_resolve fsub fmul f1000 w request future o))
  = _queue o
  /\ length (futures
               (snd (_execute_and_resolve fsub fmul f1000 w request future o)))
     = length (futures o)
  /\ (forall other, other <> future ->
        futures (snd (_execute_and_resolve fsub fmul f1000 w request future o))
          !! other
        = futures o !! other).
Proof.
  destruct (dispatch_frame w request future o) as (out & fs & -> & Hfs).
  cbn [snd _queue futures]. split; [done|].
  destruct Hfs as [->|(fut & -> & _)]; [done|].
  split; [by rewrite length_insert|].
  intros other Hne. by rewrite list_lookup_insert_ne.
Qed.

(** X22: a future that is done is never written again.  When the future of
    the request is no longer pending, as after its caller gave up and it
    was cancelled, the dispatch still runs the request and frees its slot,
    but both of its attempts to resolve the future are refused:
    [InvalidStateError] leaves [_execute_and_resolve], and the futures are
    as they were. *)
Theorem dispatch_on_done_future_is_refused (w : world)
    (request : InferenceRequest) (future : future_ref) (o : orch)
    (fut : Future) (out : outcome (InferenceResponse F)) (g : GPUManager) :
  futures o !! future = Some fut -> fut <> PENDING ->
  execute fsub fmul f1000 (_worker o) w request (_gpu_manager o) = (out, g) ->
  (exists response, out = Returned response)
  \/ (exists e, out = Raised e /\ is_Exception e = true) ->
  _execute_and_resolve fsub fmul f1000 w request future o
  = (Raised InvalidStateError,
     {| _queue := _queue o; _gpu_manager := g; _worker := _worker o;
        _running := _running o; futures := futures o |}).
Proof.
  intros Hf Hdone Hexec Hout.
  unfold _execute_and_resolve, try_except_Exception, bind, on_gpu_manager.
  rewrite Hexec.
  destruct Hout as [[response ->]|(e & -> & He)].
  - unfold set_result, set_exception, deref, with_futures.
    cbn [futures]. rewrite Hf. destruct fut; try done; cbn [is_Exception];
      cbn [futures]; by rewrite Hf.
  - rewrite He. unfold set_exception, deref, with_futures.
    cbn [futures]. rewrite Hf. by destruct fut.
Qed.

Lemma run_calls_app cs1 cs2 m :
  run_calls (cs1 ++ cs2) m = run_calls cs2 (run_calls cs1 m).
Proof. unfold run_calls. apply fold_left_app. Qed.

Lemma run_queue_calls_app (cs1 cs2 : list (@queue_call item))
    (q : AsyncPriorityQueue item) :
  run_queue_calls item_eq item_lt (cs1 ++ cs2) q
  = run_queue_calls item_eq item_lt cs2 (run_queue_calls item_eq item_lt cs1 q).
Proof. unfold run_queue_calls. apply fold_left_app. Qed.

(** What [execute] does to the pool is what some calls on the pool do. *)
Lemma execute_as_calls (self : InferenceWorker) (w : world)
    (request : InferenceRequest) (m : GPUManager) :
  exists cs,
    snd (execute fsub fmul f1000 self w request m) = run_calls cs m.
Proof.
  destruct (acquire_gpu m) as [[gpu| | |] m1] eqn:Hacq.
  - rewrite (execute_run _ _ _ _ _ _ _ _ _ Hacq). cbn [snd].
    assert (m1 = run_calls [Acquire] m) as ->
      by (unfold run_calls; simpl; by rewrite Hacq).
    rewrite execute_body_run.
    execute_cases self w;
      cbn [snd].
    + exists ([Acquire] ++ meanwhile w ++ [Release (gpu_id gpu)]).
      by rewrite !run_calls_app.
    + exists ([Acquire] ++ meanwhile w ++ [Release (gpu_id gpu)]).
      by rewrite !run_calls_app.
    + exists ([Acquire] ++ [Release (gpu_id gpu)]). by rewrite run_calls_app.
    + exists ([Acquire] ++ [Release (gpu_id gpu)]). by rewrite run_calls_app.
  - exists [Acquire]. unfold execute, bind, run_calls. simpl. by rewrite Hacq.
  - exists [Acquire]. unfold execute, bind, run_calls. simpl. by rewrite Hacq.
  - exists [Acquire]. unfold execute, bind, run_calls. simpl. by rewrite Hacq.
Qed.

Lemma run_orchestrator_call_reach N M (c : orchestrator_call) (o : orch) :
  (exists qcs, _queue o
               = run_queue_calls item_eq item_lt qcs (priority_queue.init M)) ->
  (exists pcs, _gpu_manager o = run_calls pcs (gpu_manager.init N)) ->
  (exists qcs, _queue (run_orchestrator_call fsub fmul f1000 c o)
               = run_queue_calls item_eq item_lt qcs (priority_queue.init M))
  /\ (exists pcs, _gpu_manager (run_orchestrator_call fsub fmul f1000 c o)
                  = run_calls pcs (gpu_manager.init N)).
Proof.
  intros [qcs Hq] [pcs Hp].
  destruct c as [|request| |w request future|future];
    cbn [run_orchestrator_call].
  - unfold start, bind, get_state, set_state, ret.
    destruct (_running o); cbn [snd _queue _gpu_manager]; eauto.
  - unfold submit, bind. rewrite _enqueue_run.
    destruct (put item_eq item_lt (request, length (futures o))
                (priority request) (_queue o)) as [r q] eqn:Hput.
    assert (q = run_queue_calls item_eq item_lt
                  (qcs ++ [Put (request, length (futures o)) (priority request)])
                  (priority_queue.init M)) as Hq'.
    { rewrite run_queue_calls_app, <- Hq. unfold run_queue_calls. simpl.
      by rewrite Hput. }
    destruct r as [[]| | |]; cbn [snd]; [|by eauto..].
    unfold await. destruct (deref _ _); cbn [snd _queue _gpu_manager]; eauto.
  - rewrite _process_loop_step_run.
    destruct (_running o); [|by eauto].
    destruct (get item_eq item_lt (_queue o)) as [r q] eqn:Hget.
    cbn [snd _queue _gpu_manager]. split; [|eauto].
    exists (qcs ++ [Get]). rewrite run_queue_calls_app, <- Hq.
    unfold run_queue_calls. simpl. by rewrite Hget.
  - destruct (dispatch_frame w request future o) as (out & fs & -> & _).
    cbn [snd _queue _gpu_manager]. split; [eauto|].
    destruct (execute_as_calls (_worker o) w request (_gpu_manager o))
      as [cs ->].
    exists (pcs ++ cs). by rewrite run_calls_app, Hp.
  - unfold cancel, with_futures.
    destruct (deref o future); cbn [snd _queue _gpu_manager]; eauto.
Qed.

Lemma run_orchestrator_calls_reach N M cs : forall (o : orch),
  (exists qcs, _queue o
               = run_queue_calls item_eq item_lt qcs (priority_queue.init M)) ->
  (exists pcs, _gpu_manager o = run_calls pcs (gpu_manager.init N)) ->
  (exists qcs, _queue (run_orchestrator_calls fsub fmul f1000 cs o)
               = run_queue_calls item_eq item_lt qcs (priority_queue.init M))
  /\ (exists pcs, _gpu_manager (run_orchestrator_calls fsub fmul f1000 cs o)
                  = run_calls pcs (gpu_manager.init N)).
Proof.
  unfold run_orchestrator_calls.
  induction cs as [|c cs IH]; intros o Hq Hp; simpl; [done|].
  destruct (run_orchestrator_call_reach N M c o Hq Hp) as [Hq' Hp'].
  by apply IH.
Qed.

(** X23: the status stays within the configuration.  Whatever the server,
    the callers, the loop and the dispatches have done to an orchestrator
    made with [gpu_count] slots and a queue capacity of [queue_max_size],
    its status reports a queue size between 0 and the capacity, and
    numbers of available and of busy slots that add up to [gpu_count]. *)
Theorem status_stays_within_configuration
    (gpu_count queue_max_size min_ms max_ms : Z)
    (cs : list orchestrator_call) :
  0 <= gpu_count -> 0 <= queue_max_size ->
  let '(queue_size, gpus_available, gpus_busy) :=
    get_status (run_orchestrator_calls fsub fmul f1000 cs
                  (orchestrator.init gpu_count queue_max_size min_ms max_ms)) in
  0 <= queue_size <= queue_max_size
  /\ gpus_available + gpus_busy = gpu_count
  /\ 0 <= gpus_available /\ 0 <= gpus_busy.
Proof.
  intros HN HM.
  destruct (run_orchestrator_calls_reach gpu_count queue_max_size cs
              (orchestrator.init gpu_count queue_max_size min_ms max_ms))
    as [[qcs Hq] [pcs Hp]].
  { exists []. done. }
  { exists []. done. }
  unfold get_status. rewrite Hq, Hp.
  pose proof (run_queue_calls_size item_eq item_lt qcs
                (priority_queue.init queue_max_size)
                (queue_inv_init queue_max_size)) as Hsize.
  pose proof (pool_counts gpu_count _ (reachable_wf gpu_count pcs)) as Hsum.
  unfold available_count, busy_count in *.
  pose proof (count_state_nonneg AVAILABLE
                (values (_gpus (run_calls pcs (gpu_manager.init gpu_count)))))
    as Hav.
  pose proof (count_state_nonneg BUSY
                (values (_gpus (run_calls pcs (gpu_manager.init gpu_count)))))
    as Hbu.
  split; [|lia]. split; [unfold size; lia|].
  cbn [priority_queue.init _max_size] in Hsize.
  assert (size (priority_queue.init queue_max_size : AsyncPriorityQueue item)
          <= Z.max 0 queue_max_size) as Hinit by (unfold size; simpl; lia).
  specialize (Hsize Hinit). lia.
Qed.


Lemma init_all_available N (j : nat) kv :
  _gpus (gpu_manager.init N) !! j = Some kv -> state kv.2 = AVAILABLE.
Proof.
  unfold gpu_manager.init. simpl. rewrite list_lookup_fmap.
  destruct (range N !! j); [|done]. by intros [= <-].
Qed.

Lemma count_busy_init N :
  busy_count (gpu_manager.init N) = 0.
Proof.
  unfold busy_count, gpu_manager.init. simpl. generalize (range N).
  intros l. induction l as [|i l IH]; [done|].
  change (values (map (fun i0 => (i0, {| gpu_id := i0; state := AVAILABLE |}))
                    (i :: l)))
    with ({| gpu_id := i; state := AVAILABLE |}
          :: values (map (fun i0 => (i0, {| gpu_id := i0; state := AVAILABLE |}))
                       l)).
  rewrite count_state_cons. simpl. by rewrite IH.
Qed.

(** X24: a new orchestrator reports an empty queue, all its slots
    available and none busy. *)
Theorem new_orchestrator_status (gpu_count queue_max_size min_ms max_ms : Z) :
  0 <= gpu_count ->
  get_status (orchestrator.init gpu_count queue_max_size min_ms max_ms : orch)
  = (0, gpu_count, 0).
Proof.
  intros HN. unfold get_status, orchestrator.init.
  cbn [_queue _gpu_manager].
  pose proof (pool_counts gpu_count _ (init_wf gpu_count)) as Hsum.
  rewrite count_busy_init in *.
  replace (available_count (gpu_manager.init gpu_count)) with gpu_count by lia.
  done.
Qed.

(** X25: one request through a new orchestrator.  With at least one slot,
    room in the queue, a delay range that is not empty and a delay within
    the floats, on an orchestrator that was started a request that is
    submitted suspends its caller; the next iteration of the loop takes
    it out of the queue with its future; its dispatch, into whose sleep
    nothing is thrown, returns; and the caller, resumed, gets a response
    for its request from slot 0, with the queue empty again. *)
Theorem new_orchestrator_answers_a_request
    (gpu_count queue_max_size min_ms max_ms : Z) (w : world)
    (request : InferenceRequest) :
  0 < gpu_count -> 0 < queue_max_size -> min_ms <= max_ms ->
  Z.abs (drawn w) < 1000 * float_limit ->
  thrown w = None ->
  exists o0 o1 o2 o3 response,
    start (orchestrator.init gpu_count queue_max_size min_ms max_ms : orch)
    = (Returned tt, o0)
    /\ submit request o0 = (Suspended, o1)
    /\ _process_loop_step o1 = (Returned (Some (request, 0%nat)), o2)
    /\ _execute_and_resolve fsub fmul f1000 w request 0%nat o2
       = (Returned tt, o3)
    /\ await 0%nat o3 = (Returned response, o3)
    /\ r_model_id response = model_id request
    /\ r_request_id response = or_else (request_id request) (uuid4 w)
    /\ r_gpu_id response = 0
    /\ is_empty (_queue o3) = true.
Proof.
  intros HN HM Hrange Hfloat Hthrown.
  set (o0 := {| _queue := priority_queue.init queue_max_size;
                _gpu_manager := gpu_manager.init gpu_count;
                _worker := {| _min_ms := min_ms; _max_ms := max_ms |};
                _running := true; futures := [] |} : orch).
  set (e := (int (priority request), 0, (request, 0%nat))
            : @heapq.entry item).
  assert (@put item item_eq item_lt (request, length (futures o0))
            (priority request) (_queue o0)
          = (Returned tt,
             {| _max_size := queue_max_size; _heap := [e]; _counter := 1 |}))
    as Hput.
  { unfold put, bind, get_state, set_state, on_heap. simpl.
    destruct (Z.geb_spec (Z.of_nat 0) queue_max_size); [lia|]. reflexivity. }
  set (o1 := {| _queue := {| _max_size := queue_max_size; _heap := [e];
                             _counter := 1 |};
                _gpu_manager := gpu_manager.init gpu_count;
                _worker := {| _min_ms := min_ms; _max_ms := max_ms |};
                _running := true; futures := [PENDING] |} : orch).
  set (o2 := {| _queue := {| _max_size := queue_max_size; _heap := [];
                             _counter := 1 |};
                _gpu_manager := gpu_manager.init gpu_count;
                _worker := {| _min_ms := min_ms; _max_ms := max_ms |};
                _running := true; futures := [PENDING] |} : orch).
  destruct (acquire_at_front gpu_count (gpu_manager.init gpu_count) 0%nat)
    as (gpu & m1 & Hacq & Hid & _).
  { apply init_wf. }
  { lia. }
  { intros j kv Hj. by apply init_all_available in Hj. }
  pose proof (execute_run fsub fmul f1000
                {| _min_ms := min_ms; _max_ms := max_ms |} w request _ _ _ Hacq)
    as Hexec.
  rewrite execute_body_run in Hexec. cbn [_min_ms _max_ms] in Hexec.
  destruct (Z.leb_spec min_ms max_ms); [|lia].
  destruct (Z.ltb_spec (Z.abs (drawn w)) (1000 * float_limit)); [|lia].
  rewrite Hthrown in Hexec. cbn [fst snd] in Hexec.
  eexists o0, o1, o2, _, _. split; [|split; [|split; [|split; [|split]]]].
  - reflexivity.
  - unfold submit, bind. rewrite _enqueue_run, Hput. reflexivity.
  - reflexivity.
  - unfold _execute_and_resolve, try_except_Exception, bind, on_gpu_manager.
    unfold o2 at 1 2. cbn [_worker _gpu_manager]. rewrite Hexec.
    reflexivity.
  - reflexivity.
  - cbn [r_model_id r_request_id r_gpu_id]. rewrite Hid. done.
Qed.

(** X26: the loop takes the more urgent of two waiting requests first.
    After two requests were submitted to a new orchestrator that was
    started and has room for both, the first iteration of the loop takes
    the second request if its priority number is strictly lower, and the
    first request otherwise; the next iteration takes the other one, and
    the one after it finds the queue empty and waits. *)
Theorem loop_takes_more_urgent_request_first
    (gpu_count queue_max_size min_ms max_ms : Z)
    (first second : InferenceRequest) :
  2 <= queue_max_size ->
  exists o0 o1 o2 o3 o4,
    start (orchestrator.init gpu_count queue_max_size min_ms max_ms : orch)
    = (Returned tt, o0)
    /\ submit first o0 = (Suspended, o1)
    /\ submit second o1 = (Suspended, o2)
    /\ _process_loop_step o2
       = (Returned (Some (if int (priority second) <? int (priority first)
                          then (second, 1%nat) else (first, 0%nat))), o3)
    /\ _process_loop_step o3
       = (Returned (Some (if int (priority second) <? int (priority first)
                          then (first, 0%nat) else (second, 1%nat))), o4)
    /\ is_empty (_queue o4) = true
    /\ _process_loop_step o4 = (Suspended, o4).
Proof.
  intros HM.
  destruct queue_max_size as [|[p|p|]|p]; try lia;
    destruct first as [model1 prompt1 [| |] id1];
    destruct second as [model2 prompt2 [| |] id2];
    eexists _, _, _, _, _;
    (split; [vm_compute; reflexivity|]);
    (split; [vm_compute; reflexivity|]);
    (split; [vm_compute; reflexivity|]);
    (split; [vm_compute; reflexivity|]);
    (split; [vm_compute; reflexivity|]);
    (split; [vm_compute; reflexivity|]);
    vm_compute; reflexivity.
Qed.

Lemma submitted_nonneg (cs : list (@orchestrator_call F)) : 0 <= submitted cs.
Proof. induction cs as [|[] cs IH]; simpl; lia. Qed.

Lemma not_started_step (c : orchestrator_call) (o : orch) M :
  c <> Start -> 0 <= M ->
  _running o = false -> queue_inv (_queue o) -> _max_size (_queue o) = M ->
  size (_queue o) <= M ->
  _running (run_orchestrator_call fsub fmul f1000 c o) = false
  /\ queue_inv (_queue (run_orchestrator_call fsub fmul f1000 c o))
  /\ _max_size (_queue (run_orchestrator_call fsub fmul f1000 c o)) = M
  /\ size (_queue (run_orchestrator_call fsub fmul f1000 c o))
     = Z.min (size (_queue o) + submitted [c]) M.
Proof.
  intros Hc HM Hrun Hinv Hmax Hsize.
  destruct c as [|request| |w request future|future]; [done| | | |];
    cbn [run_orchestrator_call submitted].
  - unfold submit, bind. rewrite _enqueue_run.
    destruct (Z.lt_ge_cases (size (_queue o)) M) as [Hroom|Hfull].
    + destruct (put_spec item_eq item_lt (_queue o)
                  (request, length (futures o)) (priority request) Hinv)
        as (q' & Hput & Hperm & _ & Hmax' & Hinv'); [lia|].
      rewrite Hput. unfold await. destruct (deref _ _);
        cbn [snd _queue _running]; (split; [done|]); (split; [done|]);
        (split; [lia|]); unfold size in *;
        apply Permutation_length in Hperm; rewrite Hperm; simpl length; lia.
    + rewrite put_full by lia. cbn [snd _queue _running].
      split; [done|]. split; [done|]. split; [done|]. lia.
  - rewrite _process_loop_step_run, Hrun. cbn [snd].
    split; [done|]. split; [done|]. split; [done|]. lia.
  - destruct (dispatch_frame w request future o) as (out & fs & -> & _).
    cbn [snd _queue _running].
    split; [done|]. split; [done|]. split; [done|]. lia.
  - unfold cancel, with_futures.
    destruct (deref o future); cbn [snd _queue _running];
      (split; [done|]); (split; [done|]); (split; [done|]); lia.
Qed.

Lemma not_started_run M (cs : list orchestrator_call) : forall (o : orch),
  Forall (fun c => c <> Start) cs -> 0 <= M ->
  _running o = false -> queue_inv (_queue o) -> _max_size (_queue o) = M ->
  size (_queue o) <= M ->
  _running (run_orchestrator_calls fsub fmul f1000 cs o) = false
  /\ size (_queue (run_orchestrator_calls fsub fmul f1000 cs o))
     = Z.min (size (_queue o) + submitted cs) M.
Proof.
  unfold run_orchestrator_calls.
  induction cs as [|c cs IH]; intros o Hcs HM Hrun Hinv Hmax Hsize.
  - simpl. split; [done|]. lia.
  - apply Forall_cons in Hcs as [Hc Hcs]. cbn [fold_left].
    destruct (not_started_step c o M Hc HM Hrun Hinv Hmax Hsize)
      as (Hrun' & Hinv' & Hmax' & Hsize').
    destruct (IH _ Hcs HM Hrun' Hinv' Hmax') as [Hr Hs]; [lia|].
    split; [done|]. rewrite Hs, Hsize'.
    pose proof (submitted_nonneg cs) as Hnn.
    destruct c; cbn [submitted] in *; lia.
Qed.

(** X29: requests wait until the orchestrator is started.  On an
    orchestrator on which [start] was never called, whatever submits,
    loop iterations, dispatches and cancellations were made, an iteration
    of the loop hands out nothing and changes nothing, and the queue
    holds as many requests as were submitted, up to its capacity. *)
Theorem requests_wait_until_start
    (gpu_count queue_max_size min_ms max_ms : Z)
    (cs : list orchestrator_call) :
  0 <= queue_max_size ->
  Forall (fun c => c <> Start) cs ->
  _process_loop_step
    (run_orchestrator_calls fsub fmul f1000 cs
       (orchestrator.init gpu_count queue_max_size min_ms max_ms))
  = (Returned None,
     run_orchestrator_calls fsub fmul f1000 cs
       (orchestrator.init gpu_count queue_max_size min_ms max_ms))
  /\ size (_queue
             (run_orchestrator_calls fsub fmul f1000 cs
                (orchestrator.init gpu_count queue_max_size min_ms max_ms)))
     = Z.min (submitted cs) queue_max_size.
Proof.
  intros HM Hcs.
  destruct (not_started_run queue_max_size cs
              (orchestrator.init gpu_count queue_max_size min_ms max_ms)
              Hcs HM) as [Hrun Hsize]; try done.
  { apply queue_inv_init. }
  split; [|exact Hsize].
  by rewrite _process_loop_step_run, Hrun.
Qed.

End OrchestratorMore.

Section OrchestratorMoreRuns.

Import request gpu gpu_manager inference_worker priority_queue orchestrator.

Lemma submit_on_full_queue_raises_witness :
  exists o',
    submit (request0 None) (orchestrator.init 2 0 100 500 : @Orchestrator Z)
    = (Raised QueueFullError, o')
    /\ _queue o' = _queue (orchestrator.init 2 0 100 500 : @Orchestrator Z)
    /\ _gpu_manager o'
       = _gpu_manager (orchestrator.init 2 0 100 500 : @Orchestrator Z)
    /\ futures o'
       = futures (orchestrator.init 2 0 100 500 : @Orchestrator Z)
         ++ [PENDING].
Proof.
  apply (submit_on_full_queue_raises (request0 None)
           (orchestrator.init 2 0 100 500 : @Orchestrator Z)).
  vm_compute. discriminate.
Defined.

Lemma submit_below_capacity_enqueues_and_waits_witness :
  exists o',
    submit request1 orchestrator0 = (Suspended, o')
    /\ _heap (_queue o')
       ≡ₚ (int (priority request1), _counter (_queue orchestrator0),
           (request1, length (futures orchestrator0)))
          :: _heap (_queue orchestrator0)
    /\ _counter (_queue o') = _counter (_queue orchestrator0) + 1
    /\ size (_queue o') = size (_queue orchestrator0) + 1
    /\ futures o' = futures orchestrator0 ++ [PENDING]
    /\ await (length (futures orchestrator0)) o' = (Suspended, o')
    /\ _gpu_manager o' = _gpu_manager orchestrator0
    /\ _running o' = _running orchestrator0.
Proof.
  apply (submit_below_capacity_enqueues_and_waits request1 orchestrator0 10
           [Put (request0 (Some "req-123"%string), 0%nat) HIGH]).
  - vm_compute. reflexivity.
  - vm_compute. reflexivity.
Defined.

Lemma dispatch_leaves_other_requests_alone_witness :
  futures
    (snd (_execute_and_resolve Z.sub Z.mul 1000 (world0 None)
            (request0 (Some "req-123"%string)) 0%nat
            (snd (submit request1 orchestrator0)))) !! 1%nat
  = futures (snd (submit request1 orchestrator0)) !! 1%nat.
Proof.
  apply (dispatch_leaves_other_requests_alone Z.sub Z.mul 1000 (world0 None)
           (request0 (Some "req-123"%string)) 0%nat
           (snd (submit request1 orchestrator0))).
  lia.
Defined.

Lemma dispatch_on_done_future_is_refused_witness :
  fst (_execute_and_resolve Z.sub Z.mul 1000 (world0 None)
         (request0 (Some "req-123"%string)) 0%nat
         (snd (cancel 0%nat orchestrator0)))
  = Raised InvalidStateError
  /\ futures
       (snd (_execute_and_resolve Z.sub Z.mul 1000 (world0 None)
               (request0 (Some "req-123"%string)) 0%nat
               (snd (cancel 0%nat orchestrator0))))
     = [CANCELLED].
Proof.
  rewrite (dispatch_on_done_future_is_refused Z.sub Z.mul 1000 (world0 None)
             (request0 (Some "req-123"%string)) 0%nat
             (snd (cancel 0%nat orchestrator0)) CANCELLED
             (fst (execute Z.sub Z.mul 1000
                     (_worker (snd (cancel 0%nat orchestrator0)))
                     (world0 None) (request0 (Some "req-123"%string))
                     (_gpu_manager (snd (cancel 0%nat orchestrator0)))))
             (snd (execute Z.sub Z.mul 1000
                     (_worker (snd (cancel 0%nat orchestrator0)))
                     (world0 None) (request0 (Some "req-123"%string))
                     (_gpu_manager (snd (cancel 0%nat orchestrator0)))))).
  - split; vm_compute; reflexivity.
  - vm_compute. reflexivity.
  - discriminate.
  - vm_compute. reflexivity.
  - left. eexists. vm_compute. reflexivity.
Defined.

Lemma status_stays_within_configuration_witness :
  let '(queue_size, gpus_available, gpus_busy) :=
    get_status
      (run_orchestrator_calls Z.sub Z.mul 1000
         [Start; Submit (request0 None); Submit request1; LoopStep;
          Dispatch (world0 None) (request0 None) 0%nat; GiveUp 1%nat]
         (orchestrator.init 2 10 100 500)) in
  0 <= queue_size <= 10
  /\ gpus_available + gpus_busy = 2
  /\ 0 <= gpus_available /\ 0 <= gpus_busy.
Proof.
  apply (status_stays_within_configuration Z.sub Z.mul 1000 2 10 100 500
           [Start; Submit (request0 None); Submit request1; LoopStep;
            Dispatch (world0 None) (request0 None) 0%nat; GiveUp 1%nat]);
    lia.
Defined.

Lemma new_orchestrator_status_witness :
  get_status (orchestrator.init 2 10 100 500 : @Orchestrator Z) = (0, 2, 0).
Proof.
  apply (new_orchestrator_status (F:=Z) 2 10 100 500). lia.
Defined.

Lemma new_orchestrator_answers_a_request_witness :
  exists o0 o1 o2 o3 response,
    start (orchestrator.init 2 10 100 500 : @Orchestrator Z)
    = (Returned tt, o0)
    /\ submit (request0 None) o0 = (Suspended, o1)
    /\ _process_loop_step o1 = (Returned (Some (request0 None, 0%nat)), o2)
    /\ _execute_and_resolve Z.sub Z.mul 1000 (world0 None) (request0 None)
         0%nat o2
       = (Returned tt, o3)
    /\ await 0%nat o3 = (Returned response, o3)
    /\ r_model_id response = model_id (request0 None)
    /\ r_request_id response
       = or_else (request_id (request0 None)) (uuid4 (world0 None))
    /\ r_gpu_id response = 0
    /\ is_empty (_queue o3) = true.
Proof.
  apply (new_orchestrator_answers_a_request Z.sub Z.mul 1000 2 10 100 500
           (world0 None) (request0 None));
    [lia|lia|lia|vm_compute; reflexivity|reflexivity].
Defined.

Lemma loop_takes_more_urgent_request_first_witness :
  exists o0 o1 o2 o3 o4,
    start (orchestrator.init 2 10 100 500 : @Orchestrator Z)
    = (Returned tt, o0)
    /\ submit request1 o0 = (Suspended, o1)
    /\ submit (request0 None) o1 = (Suspended, o2)
    /\ _process_loop_step o2
       = (Returned
            (Some (if int (priority (request0 None)) <? int (priority request1)
                   then (request0 None, 1%nat) else (request1, 0%nat))), o3)
    /\ _process_loop_step o3
       = (Returned
            (Some (if int (priority (request0 None)) <? int (priority request1)
                   then (request1, 0%nat) else (request0 None, 1%nat))), o4)
    /\ is_empty (_queue o4) = true
    /\ _process_loop_step o4 = (Suspended, o4).
Proof.
  apply (loop_takes_more_urgent_request_first (F:=Z) 2 10 100 500
           request1 (request0 None)).
  lia.
Defined.

Lemma requests_wait_until_start_witness :
  _process_loop_step
    (run_orchestrator_calls Z.sub Z.mul 1000
       [Submit (request0 None); LoopStep; Submit request1; GiveUp 0%nat]
       (orchestrator.init 2 10 100 500))
  = (Returned None,
     run_orchestrator_calls Z.sub Z.mul 1000
       [Submit (request0 None); LoopStep; Submit request1; GiveUp 0%nat]
       (orchestrator.init 2 10 100 500))
  /\ size (_queue
             (run_orchestrator_calls Z.sub Z.mul 1000
                [Submit (request0 None); LoopStep; Submit request1;
                 GiveUp 0%nat]
                (orchestrator.init 2 10 100 500)))
     = Z.min (submitted
                [Submit (request0 None); LoopStep; Submit request1;
                 GiveUp 0%nat : @orchestrator_call Z]) 10.
Proof.
  apply (requests_wait_until_start Z.sub Z.mul 1000 2 10 100 500
           [Submit (request0 None); LoopStep; Submit request1; GiveUp 0%nat]).
  - lia.
  - repeat constructor; discriminate.
Defined.

End OrchestratorMoreRuns.

(** ** More on priority parsing *)

Section RequestMore.

Import request.

Lemma lower_ascii_only_variant c d :
  ((97 <=? N_of_ascii d) && (N_of_ascii d <=? 122))%N = true ->
  lower_ascii c = d ->
  (Ascii.eqb c d || Ascii.eqb c (upper_ascii d)) = true.
Proof.
  intros Hd Hc. apply orb_true_iff. unfold upper_ascii. rewrite Hd.
  apply andb_true_iff in Hd as [Hd1 Hd2]. apply N.leb_le in Hd1, Hd2.
  unfold lower_ascii in Hc.
  pose proof (N_ascii_bounded c) as Hb.
  destruct (N.leb_spec 65 (N_of_ascii c)); simpl in Hc;
    [destruct (N.leb_spec (N_of_ascii c) 90)|].
  - right. apply Ascii.eqb_eq. subst d.
    rewrite N_ascii_embedding by lia.
    replace (N_of_ascii c + 32 - 32)%N with (N_of_ascii c) by lia.
    by rewrite ascii_N_embedding.
  - left. by apply Ascii.eqb_eq.
  - left. by apply Ascii.eqb_eq.
Qed.

Lemma lower_only_case_variant word : forall s,
  lower_word word = true -> lower s = word -> case_variant s word = true.
Proof.
  induction word as [|d word IH]; intros [|c s] Hw Hs; simpl in *;
    try discriminate; [done|].
  apply andb_true_iff in Hw as [Hd Hw]. injection Hs as Hc Hs.
  apply andb_true_iff. split; [by apply lower_ascii_only_variant|by apply IH].
Qed.

(** X27: [parse_priority] turns nothing but the case variants of the three
    names into a priority.  It returns its argument as it is, unless the
    argument is a string that spells "high", "medium" or "low" up to the
    case of its letters, which it turns into the priority of that name;
    and applying it twice is the same as applying it once. *)
Theorem parse_priority_changes_only_case_variants (v : value) :
  (parse_priority v = v
   \/ exists s, v = VStr s
        /\ ((case_variant s "high" = true
             /\ parse_priority v = VPriority HIGH)
            \/ (case_variant s "medium" = true
                /\ parse_priority v = VPriority MEDIUM)
            \/ (case_variant s "low" = true
                /\ parse_priority v = VPriority LOW)))
  /\ parse_priority (parse_priority v) = parse_priority v.
Proof.
  destruct v as [s|n|p|]; try (split; [by left|done]).
  simpl. destruct (mapping (lower s)) as [p|] eqn:Hmap.
  - split; [|done]. right. exists s. split; [done|].
    unfold mapping in Hmap.
    destruct (String.eqb_spec (lower s) "high") as [Hh|_];
      [|destruct (String.eqb_spec (lower s) "medium") as [Hm|_];
        [|destruct (String.eqb_spec (lower s) "low") as [Hl|_]]];
      [| | |done]; injection Hmap as <-.
    + left. split; [|done]. by apply lower_only_case_variant.
    + right; left. split; [|done]. by apply lower_only_case_variant.
    + right; right. split; [|done]. by apply lower_only_case_variant.
  - split; [by left|]. simpl. by rewrite Hmap.
Qed.

End RequestMore.
